(** * zeus::queue — bounded lock-free MPMC ring buffer

    Shallow embedding of [include/zeus/slot.hpp] and [include/zeus/queue.hpp].

    - [std::size_t] values are integers in [0, 2^64) with the wrap-around of
      unsigned arithmetic written out ([wrap]).
    - The raw [storage] of a slot is an [option T]: [Some v] while a [T] is
      alive in it, [None] otherwise.
    - Every member function of [queue] is cut at its accesses to shared memory
      into program points ([Queue.pc]); [Queue.step] executes the code between
      two program points.  [None] stands for undefined behaviour (division by
      zero, out-of-range subscript, use of a dead object).
    - Sequential calls run one operation to completion ([Queue.run]); the
      concurrent semantics interleaves the steps of a pool of threads, in
      program order ([perform], [schedule]) and with the relaxed store of
      [try_pop] taking effect early ([occur], [play]). *)

From Stdlib Require Import ZArith Lia.
From stdpp Require Import base option list gmap.

Local Open Scope Z_scope.

(** ** Machine integers *)

Definition size_bits : Z := 64.
Definition size_modulus : Z := 2 ^ size_bits.

(** Unsigned wrap-around of [std::size_t]. *)
Definition wrap (z : Z) : Z := z mod size_modulus.

(** [static_cast<std::ptrdiff_t>] of a [std::size_t] value. *)
Definition to_ptrdiff (z : Z) : Z :=
  if z <? 2 ^ (size_bits - 1) then z else z - size_modulus.

(** ** slot.hpp *)

Module Slot.
Section Slot.
Context {T : Type}.

(** [class slot]: [std::atomic_size_t turn = 0] and the raw [storage]. *)
Record slot : Type := Build {
  turn : Z;
  storage : option T
}.

(** A default-constructed slot: [turn = 0], nothing alive in [storage]. *)
Definition fresh : slot := {| turn := 0; storage := None |}.

(** [construct]: placement-new of a [T] into [storage]. *)
Definition construct (s : slot) (v : T) : slot :=
  {| turn := turn s; storage := Some v |}.

(** [destroy]: runs [~T] on the object in [storage]; undefined when no
    object is alive there. *)
Definition destroy (s : slot) : option slot :=
  match storage s with
  | Some _ => Some {| turn := turn s; storage := None |}
  | None => None
  end.

(** [move]: an rvalue reference to the object in [storage]; the caller
    move-constructs from it.  Undefined when no object is alive. *)
Definition move (s : slot) : option T := storage s.

(** [~slot]: [if (turn % 2 != 0) destroy();]. *)
Definition dtor (s : slot) : option slot :=
  if negb (turn s mod 2 =? 0) then destroy s else Some s.

(** [turn.store(t)]. *)
Definition store_turn (s : slot) (t : Z) : slot :=
  {| turn := t; storage := storage s |}.
End Slot.
Arguments slot : clear implicits.
End Slot.

(** ** queue.hpp *)

Module Queue.
Section Queue.
Context {T : Type}.
Abbreviation slot := (Slot.slot T).

(** [class queue]: the private members. *)
Record queue : Type := Build {
  max_capacity : Z;
  slots : list slot;
  head : Z;
  tail : Z
}.

(** [get_idx]: [i % max_capacity]. *)
Definition get_idx (q : queue) (i : Z) : option Z :=
  if max_capacity q =? 0 then None else Some (i mod max_capacity q).

(** [get_current_turn]: [i / max_capacity]. *)
Definition get_current_turn (q : queue) (i : Z) : option Z :=
  if max_capacity q =? 0 then None else Some (i / max_capacity q).

(** [slots[i]] as an lvalue: reading and writing one element. *)
Definition slot_at (q : queue) (i : Z) : option slot :=
  slots q !! Z.to_nat i.

Definition set_slot (q : queue) (i : Z) (s : slot) : queue :=
  {| max_capacity := max_capacity q;
     slots := <[Z.to_nat i := s]> (slots q);
     head := head q;
     tail := tail q |}.

Definition set_head (q : queue) (h : Z) : queue :=
  {| max_capacity := max_capacity q; slots := slots q;
     head := h; tail := tail q |}.

Definition set_tail (q : queue) (t : Z) : queue :=
  {| max_capacity := max_capacity q; slots := slots q;
     head := head q; tail := t |}.

(** The constructor after a successful allocation: [max_capacity + 1]
    value-initialised slots, the first [max_capacity] of them constructed
    again in place, and the two counters at zero. *)
Definition placement_loop (n : nat) (l : list slot) : option (list slot) :=
  foldl (fun acc i =>
           l' ← acc;
           if decide (i < length l')%nat
           then Some (<[i := Slot.fresh]> l') else None)
        (Some l) (seq 0 n).

Definition make (capacity : Z) : option queue :=
  let allocated := replicate (Z.to_nat (wrap (capacity + 1))) Slot.fresh in
  l ← placement_loop (Z.to_nat capacity) allocated;
  Some {| max_capacity := capacity; slots := l; head := 0; tail := 0 |}.

(** [size]: [head - tail] in unsigned arithmetic, cast to [ptrdiff_t]. *)
Definition size (q : queue) : Z := to_ptrdiff (wrap (head q - tail q)).

(** [empty]: [size() <= 0]. *)
Definition empty (q : queue) : bool := size q <=? 0.

(** *** Program points

    One constructor per point between two accesses to shared memory, with
    the live local variables as arguments. *)
Inductive pc : Type :=
(* emplace *)
| EmFetchAdd (v : T)                     (* head.fetch_add(1) *)
| EmSpin (v : T) (current_head : Z)      (* do {} while (... != turn.load) *)
| EmConstruct (v : T) (current_head : Z) (* slot.construct(...) *)
| EmStore (v : T) (current_head : Z)     (* slot.turn.store(2g + 1) *)
| EmDone
(* try_emplace *)
| TeLoadHead (v : T)                     (* head.load *)
| TeLoadTurn (v : T) (current_head : Z)  (* slot.turn.load, comparison *)
| TeCas (v : T) (current_head : Z)       (* head.compare_exchange_strong *)
| TeConstruct (v : T) (current_head : Z)
| TeStore (v : T) (current_head : Z)
| TeReload (v : T) (prev_head : Z)       (* head.load in the else branch *)
| TeDone (r : bool)
(* pop *)
| PopFetchAdd
| PopSpin (current_tail : Z)
| PopMove (current_tail : Z)             (* T rv(slot.move()) *)
| PopDestroy (current_tail : Z) (rv : T) (* slot.destroy() *)
| PopStore (current_tail : Z) (rv : T)   (* slot.turn.store(2g + 2) *)
| PopDone (rv : T)
(* try_pop *)
| TpLoadTail
| TpLoadTurn (current_tail : Z)
| TpCas (current_tail : Z)
| TpMove (current_tail : Z)
| TpDestroy (current_tail : Z) (rv : T)
| TpStore (current_tail : Z) (rv : T)
| TpReload (prev_tail : Z)
| TpDone (r : option T).

(** What a finished call hands back to its caller. *)
Inductive retval : Type :=
| RVoid
| RBool (b : bool)
| RValue (x : T)
| ROptional (o : option T).

Definition returned (p : pc) : option retval :=
  match p with
  | EmDone => Some RVoid
  | TeDone b => Some (RBool b)
  | PopDone x => Some (RValue x)
  | TpDone o => Some (ROptional o)
  | _ => None
  end.

(** [slots[get_idx(i)]] together with its index. *)
Definition target (q : queue) (i : Z) : option (Z * slot) :=
  idx ← get_idx q i;
  s ← slot_at q idx;
  Some (idx, s).

(** [get_current_turn(i) * 2 + k] in [size_t]. *)
Definition turn_of (q : queue) (i : Z) (k : Z) : option Z :=
  g ← get_current_turn q i;
  Some (wrap (wrap (g * 2) + k)).

(** *** One step of one call *)
Definition step (p : pc) (q : queue) : option (pc * queue) :=
  match p with
  (* emplace, queue.hpp:51-63 *)
  | EmFetchAdd v =>
      let current_head := head q in
      let q' := set_head q (wrap (current_head + 1)) in
      '(_, _) ← target q' current_head;
      Some (EmSpin v current_head, q')
  | EmSpin v h =>
      '(_, s) ← target q h;
      expected ← turn_of q h 0;
      if expected =? Slot.turn s
      then Some (EmConstruct v h, q) else Some (EmSpin v h, q)
  | EmConstruct v h =>
      '(idx, s) ← target q h;
      Some (EmStore v h, set_slot q idx (Slot.construct s v))
  | EmStore v h =>
      '(idx, s) ← target q h;
      t ← turn_of q h 1;
      Some (EmDone, set_slot q idx (Slot.store_turn s t))
  | EmDone => Some (EmDone, q)
  (* try_emplace, queue.hpp:69-96 *)
  | TeLoadHead v => Some (TeLoadTurn v (head q), q)
  | TeLoadTurn v h =>
      '(_, s) ← target q h;
      current_turn ← turn_of q h 0;
      if current_turn =? Slot.turn s
      then Some (TeCas v h, q) else Some (TeReload v h, q)
  | TeCas v h =>
      if head q =? h
      then Some (TeConstruct v h, set_head q (wrap (h + 1)))
      else Some (TeLoadTurn v (head q), q)
  | TeConstruct v h =>
      '(idx, s) ← target q h;
      Some (TeStore v h, set_slot q idx (Slot.construct s v))
  | TeStore v h =>
      '(idx, s) ← target q h;
      current_turn ← turn_of q h 0;
      Some (TeDone true, set_slot q idx (Slot.store_turn s (wrap (current_turn + 1))))
  | TeReload v prev_head =>
      let current_head := head q in
      if current_head =? prev_head
      then Some (TeDone false, q) else Some (TeLoadTurn v current_head, q)
  | TeDone r => Some (TeDone r, q)
  (* pop, queue.hpp:123-140 *)
  | PopFetchAdd =>
      let current_tail := tail q in
      let q' := set_tail q (wrap (current_tail + 1)) in
      '(_, _) ← target q' current_tail;
      Some (PopSpin current_tail, q')
  | PopSpin t =>
      '(_, s) ← target q t;
      expected ← turn_of q t 1;
      if expected =? Slot.turn s
      then Some (PopMove t, q) else Some (PopSpin t, q)
  | PopMove t =>
      '(_, s) ← target q t;
      rv ← Slot.move s;
      Some (PopDestroy t rv, q)
  | PopDestroy t rv =>
      '(idx, s) ← target q t;
      s' ← Slot.destroy s;
      Some (PopStore t rv, set_slot q idx s')
  | PopStore t rv =>
      '(idx, s) ← target q t;
      t2 ← turn_of q t 2;
      Some (PopDone rv, set_slot q idx (Slot.store_turn s t2))
  | PopDone rv => Some (PopDone rv, q)
  (* try_pop, queue.hpp:144-173 *)
  | TpLoadTail => Some (TpLoadTurn (tail q), q)
  | TpLoadTurn t =>
      '(_, s) ← target q t;
      expected_turn ← turn_of q t 1;
      if expected_turn =? Slot.turn s
      then Some (TpCas t, q) else Some (TpReload t, q)
  | TpCas t =>
      if tail q =? t
      then Some (TpMove t, set_tail q (wrap (t + 1)))
      else Some (TpLoadTurn (tail q), q)
  | TpMove t =>
      '(_, s) ← target q t;
      rv ← Slot.move s;
      Some (TpDestroy t rv, q)
  | TpDestroy t rv =>
      '(idx, s) ← target q t;
      s' ← Slot.destroy s;
      Some (TpStore t rv, set_slot q idx s')
  | TpStore t rv =>
      '(idx, s) ← target q t;
      t2 ← turn_of q t 2;
      Some (TpDone (Some rv), set_slot q idx (Slot.store_turn s t2))
  | TpReload prev_tail =>
      let current_tail := tail q in
      if current_tail =? prev_tail
      then Some (TpDone None, q) else Some (TpLoadTurn current_tail, q)
  | TpDone r => Some (TpDone r, q)
  end.

(** *** Sequential calls *)
Inductive outcome : Type :=
| Returns (r : retval) (q : queue)
| Undefined
| Spinning.

(** Runs one call alone, for at most [fuel] steps. *)
Fixpoint run (fuel : nat) (p : pc) (q : queue) : outcome :=
  match returned p with
  | Some r => Returns r q
  | None =>
      match fuel with
      | O => Spinning
      | S fuel' =>
          match step p q with
          | None => Undefined
          | Some (p', q') => run fuel' p' q'
          end
      end
  end.

Definition emplace (fuel : nat) (q : queue) (v : T) := run fuel (EmFetchAdd v) q.
Definition try_emplace (fuel : nat) (q : queue) (v : T) := run fuel (TeLoadHead v) q.
Definition push := emplace.
Definition try_push := try_emplace.
Definition pop (fuel : nat) (q : queue) := run fuel PopFetchAdd q.
Definition try_pop (fuel : nat) (q : queue) := run fuel TpLoadTail q.
End Queue.
Arguments queue : clear implicits.
Arguments pc : clear implicits.
Arguments retval : clear implicits.
Arguments outcome : clear implicits.
End Queue.

(** ** Arithmetic of tickets *)

Arguments wrap : simpl never.

(** Tickets below this bound are far from the wrap-around of the counters
    and of the doubled generation. *)
Definition ticket_limit : Z := 2 ^ 62.

Lemma size_modulus_eq : size_modulus = 18446744073709551616.
Proof. reflexivity. Qed.

Lemma ticket_limit_eq : ticket_limit = 4611686018427387904.
Proof. reflexivity. Qed.

Lemma wrap_small z : 0 <= z < size_modulus -> wrap z = z.
Proof. intros H. unfold wrap. now apply Z.mod_small. Qed.

Lemma wrap_range z : 0 <= wrap z < size_modulus.
Proof. unfold wrap. apply Z.mod_pos_bound. rewrite size_modulus_eq. lia. Qed.

Lemma div_le_self i c : 0 <= i -> 0 < c -> 0 <= i / c <= i.
Proof.
  intros Hi Hc. split; [apply Z.div_pos; lia|].
  apply Z.div_le_upper_bound; nia.
Qed.

Lemma wrap_turn i c k :
  0 <= i <= ticket_limit -> 0 < c -> 0 <= k <= 2 ->
  wrap (wrap (i / c * 2) + k) = 2 * (i / c) + k.
Proof.
  intros Hi Hc Hk. pose proof (div_le_self i c ltac:(lia) Hc) as Hd.
  rewrite ticket_limit_eq in Hi.
  rewrite (wrap_small (i / c * 2)) by (rewrite size_modulus_eq; lia).
  rewrite wrap_small by (rewrite size_modulus_eq; lia). lia.
Qed.

(** Two tickets less than a capacity apart select different slots. *)
Lemma mod_inj_window t c j k :
  0 < c -> 0 <= j < c -> 0 <= k < c ->
  (t + j) mod c = (t + k) mod c -> j = k.
Proof.
  intros Hc Hj Hk E.
  assert (D : (j - k) mod c = 0).
  { replace (j - k) with ((t + j) - (t + k)) by lia.
    rewrite Zminus_mod, E, Z.sub_diag. apply Z.mod_0_l. lia. }
  apply Z.mod_divide in D; [|lia]. destruct D as [m Hm].
  assert (m = 0) by nia. lia.
Qed.

Lemma div_add_cap t c : 0 < c -> (t + c) / c = t / c + 1.
Proof.
  intros Hc. replace (t + c) with (t + 1 * c) by lia.
  rewrite Z.div_add by lia. reflexivity.
Qed.

Lemma mod_add_cap t c : 0 < c -> (t + c) mod c = t mod c.
Proof.
  intros Hc. replace (t + c) with (t + 1 * c) by lia.
  apply Z.mod_add. lia.
Qed.

(** ** Sequential behaviour: the ring as a list

    [repr q l] relates a queue between two calls to the elements it holds,
    oldest first. Ticket [tail + k] owns slot [(tail + k) mod capacity];
    the first [length l] of these slots are full, the others are empty and
    wait for the writer of their ticket. *)

Section Sequential.
Context {T : Type}.
Implicit Types (q : Queue.queue T) (l : list T) (v x : T) (p : Queue.pc T).

Definition cell (i c : Z) (o : option T) : Slot.slot T :=
  {| Slot.turn := 2 * (i / c) + match o with Some _ => 1 | None => 0 end; Slot.storage := o |}.

Record repr q l : Prop := {
  repr_cap : 0 < Queue.max_capacity q;
  repr_len : Z.of_nat (length (Queue.slots q)) = Queue.max_capacity q + 1;
  repr_tail : 0 <= Queue.tail q;
  repr_head : Queue.head q = Queue.tail q + Z.of_nat (length l);
  repr_bound : Z.of_nat (length l) <= Queue.max_capacity q;
  repr_limit : Queue.head q <= ticket_limit;
  repr_ring : forall k, 0 <= k < Queue.max_capacity q ->
    Queue.slot_at q ((Queue.tail q + k) mod Queue.max_capacity q) =
    Some (cell (Queue.tail q + k) (Queue.max_capacity q) (l !! Z.to_nat k));
  repr_spare : Queue.slot_at q (Queue.max_capacity q) = Some Slot.fresh
}.

(** The state a completed insert of [v] leaves behind. *)
Definition after_insert q v : Queue.queue T :=
  Queue.set_slot (Queue.set_head q (Queue.head q + 1))
    (Queue.head q mod Queue.max_capacity q)
    (cell (Queue.head q) (Queue.max_capacity q) (Some v)).

(** The state a completed remove leaves behind. *)
Definition after_remove q : Queue.queue T :=
  Queue.set_slot (Queue.set_tail q (Queue.tail q + 1))
    (Queue.tail q mod Queue.max_capacity q)
    (cell (Queue.tail q + Queue.max_capacity q) (Queue.max_capacity q) None).

Lemma run_unfold fuel p q :
  Queue.run (S fuel) p q =
  match Queue.returned p with
  | Some r => Queue.Returns r q
  | None => match Queue.step p q with
            | None => Queue.Undefined
            | Some (p', q') => Queue.run fuel p' q'
            end
  end.
Proof. reflexivity. Qed.

Lemma run_returned fuel p q r :
  Queue.returned p = Some r -> Queue.run fuel p q = Queue.Returns r q.
Proof. intros H. destruct fuel; simpl; now rewrite H. Qed.

Lemma target_set_head q h i :
  Queue.target (Queue.set_head q h) i = Queue.target q i.
Proof. reflexivity. Qed.

Lemma target_set_tail q t i :
  Queue.target (Queue.set_tail q t) i = Queue.target q i.
Proof. reflexivity. Qed.

Lemma turn_of_set_head q h i k :
  Queue.turn_of (Queue.set_head q h) i k = Queue.turn_of q i k.
Proof. reflexivity. Qed.

Lemma turn_of_set_tail q t i k :
  Queue.turn_of (Queue.set_tail q t) i k = Queue.turn_of q i k.
Proof. reflexivity. Qed.

Lemma turn_of_set_slot q j s i k :
  Queue.turn_of (Queue.set_slot q j s) i k = Queue.turn_of q i k.
Proof. reflexivity. Qed.

Lemma turn_of_small q i k :
  0 < Queue.max_capacity q -> 0 <= i <= ticket_limit -> 0 <= k <= 2 ->
  Queue.turn_of q i k = Some (2 * (i / Queue.max_capacity q) + k).
Proof.
  intros Hc Hi Hk. unfold Queue.turn_of, Queue.get_current_turn.
  destruct (Queue.max_capacity q =? 0) eqn:E; [lia|]. simpl.
  now rewrite wrap_turn.
Qed.

Lemma target_lookup q i s :
  0 < Queue.max_capacity q ->
  Queue.slot_at q (i mod Queue.max_capacity q) = Some s ->
  Queue.target q i = Some (i mod Queue.max_capacity q, s).
Proof.
  intros Hc Hs. unfold Queue.target, Queue.get_idx.
  destruct (Queue.max_capacity q =? 0) eqn:E; [lia|]. simpl.
  now rewrite Hs.
Qed.

Lemma target_set_slot_same q i s s' :
  0 < Queue.max_capacity q ->
  Queue.slot_at q (i mod Queue.max_capacity q) = Some s ->
  Queue.target (Queue.set_slot q (i mod Queue.max_capacity q) s') i =
  Some (i mod Queue.max_capacity q, s').
Proof.
  intros Hc Hs.
  apply (target_lookup (Queue.set_slot q (i mod Queue.max_capacity q) s') i s' Hc).
  unfold Queue.slot_at, Queue.set_slot. simpl.
  apply list_lookup_insert_eq. unfold Queue.slot_at in Hs.
  apply lookup_lt_Some in Hs. exact Hs.
Qed.

Lemma set_slot_twice q j s s' :
  Queue.set_slot (Queue.set_slot q j s) j s' = Queue.set_slot q j s'.
Proof. unfold Queue.set_slot. simpl. now rewrite list_insert_insert_eq. Qed.

Lemma slot_at_set_slot_ne q i j s :
  0 <= i -> 0 <= j -> i <> j ->
  Queue.slot_at (Queue.set_slot q i s) j = Queue.slot_at q j.
Proof.
  intros Hi Hj Hne. unfold Queue.slot_at, Queue.set_slot. simpl.
  apply list_lookup_insert_ne. lia.
Qed.

Lemma slot_at_set_slot_eq q i s s0 :
  Queue.slot_at q i = Some s0 ->
  Queue.slot_at (Queue.set_slot q i s) i = Some s.
Proof.
  unfold Queue.slot_at, Queue.set_slot. simpl. intros H.
  apply list_lookup_insert_eq. now apply lookup_lt_Some in H.
Qed.

Lemma repr_target q l k :
  repr q l -> 0 <= k < Queue.max_capacity q ->
  Queue.target q (Queue.tail q + k) =
  Some ((Queue.tail q + k) mod Queue.max_capacity q,
        cell (Queue.tail q + k) (Queue.max_capacity q) (l !! Z.to_nat k)).
Proof.
  intros R Hk. apply target_lookup; [apply R|]. now apply (repr_ring q l R).
Qed.
End Sequential.

Section SequentialOps.
Context {T : Type}.
Implicit Types (q : Queue.queue T) (l : list T) (v x : T) (p : Queue.pc T).

Lemma repr_after_insert q l v :
  repr q l -> Z.of_nat (length l) < Queue.max_capacity q ->
  Queue.head q < ticket_limit ->
  repr (after_insert q v) (l ++ [v]).
Proof.
  intros R Hroom Hlim. destruct R as [Hc Hlen Ht Hh Hb Hl Hring Hspare].
  assert (Hidx : 0 <= Queue.head q mod Queue.max_capacity q < Queue.max_capacity q)
    by (apply Z.mod_pos_bound; lia).
  split; unfold after_insert; simpl.
  - exact Hc.
  - rewrite length_insert. exact Hlen.
  - exact Ht.
  - rewrite length_app. simpl. lia.
  - rewrite length_app. simpl. lia.
  - lia.
  - intros k Hk.
    destruct (Z.eq_dec k (Z.of_nat (length l))) as [->|Hne].
    + rewrite <- Hh.
      rewrite (slot_at_set_slot_eq _ _ _ (cell (Queue.head q) (Queue.max_capacity q) None)).
      * rewrite Nat2Z.id, list_lookup_middle by reflexivity. reflexivity.
      * specialize (Hring (Z.of_nat (length l)) ltac:(lia)).
        rewrite <- Hh, Nat2Z.id in Hring.
        rewrite (lookup_ge_None_2 l (length l)) in Hring by (apply Nat.le_refl).
        exact Hring.
    + rewrite slot_at_set_slot_ne.
      * change (Queue.slot_at (Queue.set_head q (Queue.head q + 1)) ?j)
          with (Queue.slot_at q j).
        rewrite Hring by lia. f_equal. f_equal.
        destruct (Z_lt_le_dec k (Z.of_nat (length l))) as [Hlt|Hge].
        -- rewrite lookup_app_l by lia. reflexivity.
        -- rewrite (lookup_ge_None_2 l) by lia.
           rewrite lookup_ge_None_2; [reflexivity|].
           rewrite length_app; simpl; lia.
      * lia.
      * apply Z.mod_pos_bound; lia.
      * rewrite Hh. intros E. apply mod_inj_window in E; lia.
  - rewrite slot_at_set_slot_ne; [exact Hspare|lia|lia|lia].
Qed.

Lemma repr_after_remove q x l :
  repr q (x :: l) -> repr (after_remove q) l.
Proof.
  intros R. destruct R as [Hc Hlen Ht Hh Hb Hl Hring Hspare].
  simpl length in *.
  assert (Hidx : 0 <= Queue.tail q mod Queue.max_capacity q < Queue.max_capacity q)
    by (apply Z.mod_pos_bound; lia).
  split; unfold after_remove; simpl.
  - exact Hc.
  - rewrite length_insert. exact Hlen.
  - lia.
  - lia.
  - lia.
  - exact Hl.
  - intros k Hk.
    destruct (Z.eq_dec k (Queue.max_capacity q - 1)) as [->|Hne].
    + replace (Queue.tail q + 1 + (Queue.max_capacity q - 1))
        with (Queue.tail q + Queue.max_capacity q) by lia.
      rewrite mod_add_cap by lia.
      rewrite (slot_at_set_slot_eq _ _ _ (cell (Queue.tail q) (Queue.max_capacity q) (Some x))).
      * rewrite (lookup_ge_None_2 l) by lia. reflexivity.
      * specialize (Hring 0 ltac:(lia)). rewrite Z.add_0_r in Hring.
        exact Hring.
    + rewrite slot_at_set_slot_ne.
      * change (Queue.slot_at (Queue.set_tail q (Queue.tail q + 1)) ?j)
          with (Queue.slot_at q j).
        replace (Queue.tail q + 1 + k) with (Queue.tail q + (k + 1)) by lia.
        rewrite Hring by lia. f_equal. f_equal.
        replace (Z.to_nat (k + 1)) with (S (Z.to_nat k)) by lia. reflexivity.
      * lia.
      * apply Z.mod_pos_bound; lia.
      * replace (Queue.tail q + 1 + k) with (Queue.tail q + (k + 1)) by lia.
        replace (Queue.tail q mod Queue.max_capacity q)
          with ((Queue.tail q + 0) mod Queue.max_capacity q) by (now rewrite Z.add_0_r).
        intros E. apply mod_inj_window in E; lia.
  - rewrite slot_at_set_slot_ne; [exact Hspare|lia|lia|lia].
Qed.
End SequentialOps.

(** Unfolds one step of a sequential run. *)
Ltac run_step := rewrite run_unfold; cbn [Queue.returned Queue.step].
(** Resolves the next lookup of the step with a known equation. *)
Ltac bind_with H := rewrite H; cbn [mbind option_bind].

(** ** One call run alone, from any state

    What each member function does when no other thread moves, read off
    the slot its ticket selects. The queue need not be reachable: only the
    capacity, the selected slot and the absence of wrap-around matter. *)

Section Alone.
Context {T : Type}.
Implicit Types (q : Queue.queue T) (v x : T) (p : Queue.pc T) (s : Slot.slot T).

(** The state after the ticket [head q] has been served with [v]. *)
Definition inserted_state q v : Queue.queue T :=
  Queue.set_slot (Queue.set_head q (Queue.head q + 1))
    (Queue.head q mod Queue.max_capacity q)
    {| Slot.turn := 2 * (Queue.head q / Queue.max_capacity q) + 1;
       Slot.storage := Some v |}.

(** The state after the ticket [tail q] has been served. *)
Definition removed_state q : Queue.queue T :=
  Queue.set_slot (Queue.set_tail q (Queue.tail q + 1))
    (Queue.tail q mod Queue.max_capacity q)
    {| Slot.turn := 2 * (Queue.tail q / Queue.max_capacity q) + 2;
       Slot.storage := None |}.

(** A program point that steps to itself without touching the queue never
    returns when it runs alone. *)
Lemma run_stuck p q :
  Queue.returned p = None -> Queue.step p q = Some (p, q) ->
  forall fuel, Queue.run fuel p q = Queue.Spinning.
Proof.
  intros Hr Hs fuel. induction fuel as [|fuel IH]; simpl; rewrite Hr; [reflexivity|].
  now rewrite Hs.
Qed.

Lemma wrap_succ i : 0 <= i <= ticket_limit -> wrap (i + 1) = i + 1.
Proof.
  intros Hi. apply wrap_small. rewrite size_modulus_eq.
  rewrite ticket_limit_eq in Hi. lia.
Qed.

(** *** The writer's side *)

Lemma emplace_spin_ready fuel q v h s :
  0 < Queue.max_capacity q -> 0 <= h <= ticket_limit ->
  Queue.slot_at q (h mod Queue.max_capacity q) = Some s ->
  Slot.turn s = 2 * (h / Queue.max_capacity q) ->
  Queue.run (3 + fuel) (Queue.EmSpin v h) q =
  Queue.Returns Queue.RVoid
    (Queue.set_slot q (h mod Queue.max_capacity q)
       {| Slot.turn := 2 * (h / Queue.max_capacity q) + 1;
          Slot.storage := Some v |}).
Proof.
  intros Hc Hh Hs Hturn.
  pose proof (target_lookup q h s Hc Hs) as Ht.
  pose proof (turn_of_small q h 0 Hc Hh ltac:(lia)) as Hto0.
  pose proof (turn_of_small q h 1 Hc Hh ltac:(lia)) as Hto1.
  cbn [Nat.add].
  run_step. bind_with Ht. bind_with Hto0. rewrite Hturn, Z.add_0_r, Z.eqb_refl.
  run_step. bind_with Ht.
  run_step. rewrite (target_set_slot_same q h s _ Hc Hs). cbn [mbind option_bind].
  rewrite turn_of_set_slot. bind_with Hto1.
  now rewrite set_slot_twice, run_returned with (r := Queue.RVoid).
Qed.

Lemma emplace_spin_waits q v h s :
  0 < Queue.max_capacity q -> 0 <= h <= ticket_limit ->
  Queue.slot_at q (h mod Queue.max_capacity q) = Some s ->
  Slot.turn s <> 2 * (h / Queue.max_capacity q) ->
  Queue.step (Queue.EmSpin v h) q = Some (Queue.EmSpin v h, q).
Proof.
  intros Hc Hh Hs Hturn. cbn [Queue.step].
  rewrite (target_lookup q h s Hc Hs). cbn [mbind option_bind].
  rewrite (turn_of_small q h 0 Hc Hh ltac:(lia)). cbn [mbind option_bind].
  destruct (Z.eqb_spec (2 * (h / Queue.max_capacity q) + 0) (Slot.turn s));
    [lia|reflexivity].
Qed.

Lemma emplace_alone_ready fuel q v s :
  0 < Queue.max_capacity q -> 0 <= Queue.head q < ticket_limit ->
  Queue.slot_at q (Queue.head q mod Queue.max_capacity q) = Some s ->
  Slot.turn s = 2 * (Queue.head q / Queue.max_capacity q) ->
  Queue.emplace (4 + fuel) q v = Queue.Returns Queue.RVoid (inserted_state q v).
Proof.
  intros Hc Hh Hs Hturn. unfold Queue.emplace.
  change (4 + fuel)%nat with (S (3 + fuel)). run_step.
  rewrite target_set_head, (target_lookup q _ s Hc Hs). cbn [mbind option_bind].
  rewrite wrap_succ by lia.
  exact (emplace_spin_ready fuel (Queue.set_head q (Queue.head q + 1)) v
           (Queue.head q) s Hc ltac:(lia) Hs Hturn).
Qed.

Lemma emplace_alone_waits q v s :
  0 < Queue.max_capacity q -> 0 <= Queue.head q < ticket_limit ->
  Queue.slot_at q (Queue.head q mod Queue.max_capacity q) = Some s ->
  Slot.turn s <> 2 * (Queue.head q / Queue.max_capacity q) ->
  forall fuel, Queue.emplace fuel q v = Queue.Spinning.
Proof.
  intros Hc Hh Hs Hturn fuel. unfold Queue.emplace.
  destruct fuel as [|fuel]; [reflexivity|]. run_step.
  rewrite target_set_head, (target_lookup q _ s Hc Hs). cbn [mbind option_bind].
  apply run_stuck; [reflexivity|].
  exact (emplace_spin_waits (Queue.set_head q (wrap (Queue.head q + 1))) v
           (Queue.head q) s Hc ltac:(lia) Hs Hturn).
Qed.

Lemma try_emplace_alone_ready fuel q v s :
  0 < Queue.max_capacity q -> 0 <= Queue.head q < ticket_limit ->
  Queue.slot_at q (Queue.head q mod Queue.max_capacity q) = Some s ->
  Slot.turn s = 2 * (Queue.head q / Queue.max_capacity q) ->
  Queue.try_emplace (5 + fuel) q v =
  Queue.Returns (Queue.RBool true) (inserted_state q v).
Proof.
  intros Hc Hh Hs Hturn.
  pose proof (target_lookup q _ s Hc Hs) as Ht.
  pose proof (turn_of_small q (Queue.head q) 0 Hc ltac:(lia) ltac:(lia)) as Hto.
  pose proof (div_le_self (Queue.head q) (Queue.max_capacity q) ltac:(lia) Hc) as Hd.
  unfold Queue.try_emplace. cbn [Nat.add].
  run_step. run_step. bind_with Ht. bind_with Hto.
  rewrite Hturn, Z.add_0_r, Z.eqb_refl.
  run_step. rewrite Z.eqb_refl, wrap_succ by lia.
  run_step. rewrite target_set_head. bind_with Ht.
  run_step.
  rewrite (target_set_slot_same (Queue.set_head q (Queue.head q + 1))
             (Queue.head q) s _ Hc Hs).
  cbn [mbind option_bind]. rewrite turn_of_set_slot, turn_of_set_head.
  bind_with Hto.
  rewrite set_slot_twice, run_returned with (r := Queue.RBool true) by reflexivity.
  unfold inserted_state, Slot.store_turn, Slot.construct. cbn [Slot.storage].
  rewrite Z.add_0_r, wrap_small
    by (rewrite size_modulus_eq; rewrite ticket_limit_eq in Hh; lia).
  reflexivity.
Qed.

Lemma try_emplace_alone_full fuel q v s :
  0 < Queue.max_capacity q -> 0 <= Queue.head q <= ticket_limit ->
  Queue.slot_at q (Queue.head q mod Queue.max_capacity q) = Some s ->
  Slot.turn s <> 2 * (Queue.head q / Queue.max_capacity q) ->
  Queue.try_emplace (3 + fuel) q v = Queue.Returns (Queue.RBool false) q.
Proof.
  intros Hc Hh Hs Hturn.
  unfold Queue.try_emplace. cbn [Nat.add].
  run_step. run_step.
  rewrite (target_lookup q _ s Hc Hs). cbn [mbind option_bind].
  rewrite (turn_of_small q (Queue.head q) 0 Hc Hh ltac:(lia)).
  cbn [mbind option_bind].
  destruct (Z.eqb_spec (2 * (Queue.head q / Queue.max_capacity q) + 0)
              (Slot.turn s)); [lia|].
  run_step. rewrite Z.eqb_refl.
  now rewrite run_returned with (r := Queue.RBool false).
Qed.

(** *** The reader's side *)

Lemma pop_spin_ready fuel q t s x :
  0 < Queue.max_capacity q -> 0 <= t <= ticket_limit ->
  Queue.slot_at q (t mod Queue.max_capacity q) = Some s ->
  Slot.turn s = 2 * (t / Queue.max_capacity q) + 1 ->
  Slot.storage s = Some x ->
  Queue.run (4 + fuel) (Queue.PopSpin t) q =
  Queue.Returns (Queue.RValue x)
    (Queue.set_slot q (t mod Queue.max_capacity q)
       {| Slot.turn := 2 * (t / Queue.max_capacity q) + 2;
          Slot.storage := None |}).
Proof.
  intros Hc Hh Hs Hturn Hx.
  pose proof (target_lookup q t s Hc Hs) as Ht.
  pose proof (turn_of_small q t 1 Hc Hh ltac:(lia)) as Hto1.
  pose proof (turn_of_small q t 2 Hc Hh ltac:(lia)) as Hto2.
  cbn [Nat.add].
  run_step. bind_with Ht. bind_with Hto1. rewrite Hturn, Z.eqb_refl.
  run_step. bind_with Ht. unfold Slot.move. bind_with Hx.
  run_step. bind_with Ht. unfold Slot.destroy. rewrite Hx.
  cbn [mbind option_bind].
  run_step. rewrite (target_set_slot_same q t s _ Hc Hs). cbn [mbind option_bind].
  rewrite turn_of_set_slot. bind_with Hto2.
  now rewrite set_slot_twice, run_returned with (r := Queue.RValue x).
Qed.

Lemma pop_spin_waits q t s :
  0 < Queue.max_capacity q -> 0 <= t <= ticket_limit ->
  Queue.slot_at q (t mod Queue.max_capacity q) = Some s ->
  Slot.turn s <> 2 * (t / Queue.max_capacity q) + 1 ->
  Queue.step (Queue.PopSpin t) q = Some (Queue.PopSpin t, q).
Proof.
  intros Hc Hh Hs Hturn. cbn [Queue.step].
  rewrite (target_lookup q t s Hc Hs). cbn [mbind option_bind].
  rewrite (turn_of_small q t 1 Hc Hh ltac:(lia)). cbn [mbind option_bind].
  destruct (Z.eqb_spec (2 * (t / Queue.max_capacity q) + 1) (Slot.turn s));
    [lia|reflexivity].
Qed.

Lemma pop_alone_ready fuel q s x :
  0 < Queue.max_capacity q -> 0 <= Queue.tail q < ticket_limit ->
  Queue.slot_at q (Queue.tail q mod Queue.max_capacity q) = Some s ->
  Slot.turn s = 2 * (Queue.tail q / Queue.max_capacity q) + 1 ->
  Slot.storage s = Some x ->
  Queue.pop (5 + fuel) q = Queue.Returns (Queue.RValue x) (removed_state q).
Proof.
  intros Hc Hh Hs Hturn Hx. unfold Queue.pop.
  change (5 + fuel)%nat with (S (4 + fuel)). run_step.
  rewrite target_set_tail, (target_lookup q _ s Hc Hs). cbn [mbind option_bind].
  rewrite wrap_succ by lia.
  exact (pop_spin_ready fuel (Queue.set_tail q (Queue.tail q + 1))
           (Queue.tail q) s x Hc ltac:(lia) Hs Hturn Hx).
Qed.

Lemma pop_alone_waits q s :
  0 < Queue.max_capacity q -> 0 <= Queue.tail q < ticket_limit ->
  Queue.slot_at q (Queue.tail q mod Queue.max_capacity q) = Some s ->
  Slot.turn s <> 2 * (Queue.tail q / Queue.max_capacity q) + 1 ->
  forall fuel, Queue.pop fuel q = Queue.Spinning.
Proof.
  intros Hc Hh Hs Hturn fuel. unfold Queue.pop.
  destruct fuel as [|fuel]; [reflexivity|]. run_step.
  rewrite target_set_tail, (target_lookup q _ s Hc Hs). cbn [mbind option_bind].
  apply run_stuck; [reflexivity|].
  exact (pop_spin_waits (Queue.set_tail q (wrap (Queue.tail q + 1)))
           (Queue.tail q) s Hc ltac:(lia) Hs Hturn).
Qed.

Lemma try_pop_alone_ready fuel q s x :
  0 < Queue.max_capacity q -> 0 <= Queue.tail q < ticket_limit ->
  Queue.slot_at q (Queue.tail q mod Queue.max_capacity q) = Some s ->
  Slot.turn s = 2 * (Queue.tail q / Queue.max_capacity q) + 1 ->
  Slot.storage s = Some x ->
  Queue.try_pop (6 + fuel) q =
  Queue.Returns (Queue.ROptional (Some x)) (removed_state q).
Proof.
  intros Hc Hh Hs Hturn Hx.
  pose proof (target_lookup q _ s Hc Hs) as Ht.
  pose proof (turn_of_small q (Queue.tail q) 1 Hc ltac:(lia) ltac:(lia)) as Hto1.
  pose proof (turn_of_small q (Queue.tail q) 2 Hc ltac:(lia) ltac:(lia)) as Hto2.
  unfold Queue.try_pop. cbn [Nat.add].
  run_step. run_step. bind_with Ht. bind_with Hto1. rewrite Hturn, Z.eqb_refl.
  run_step. rewrite Z.eqb_refl, wrap_succ by lia.
  run_step. rewrite target_set_tail. bind_with Ht. unfold Slot.move. bind_with Hx.
  run_step. rewrite target_set_tail. bind_with Ht. unfold Slot.destroy.
  rewrite Hx. cbn [mbind option_bind].
  run_step.
  rewrite (target_set_slot_same (Queue.set_tail q (Queue.tail q + 1))
             (Queue.tail q) s _ Hc Hs).
  cbn [mbind option_bind]. rewrite turn_of_set_slot, turn_of_set_tail.
  bind_with Hto2.
  now rewrite set_slot_twice, run_returned with (r := Queue.ROptional (Some x)).
Qed.

Lemma try_pop_alone_empty fuel q s :
  0 < Queue.max_capacity q -> 0 <= Queue.tail q <= ticket_limit ->
  Queue.slot_at q (Queue.tail q mod Queue.max_capacity q) = Some s ->
  Slot.turn s <> 2 * (Queue.tail q / Queue.max_capacity q) + 1 ->
  Queue.try_pop (3 + fuel) q = Queue.Returns (Queue.ROptional None) q.
Proof.
  intros Hc Hh Hs Hturn.
  unfold Queue.try_pop. cbn [Nat.add].
  run_step. run_step.
  rewrite (target_lookup q _ s Hc Hs). cbn [mbind option_bind].
  rewrite (turn_of_small q (Queue.tail q) 1 Hc Hh ltac:(lia)).
  cbn [mbind option_bind].
  destruct (Z.eqb_spec (2 * (Queue.tail q / Queue.max_capacity q) + 1)
              (Slot.turn s)); [lia|].
  run_step. rewrite Z.eqb_refl.
  now rewrite run_returned with (r := Queue.ROptional None).
Qed.

(** A matching turn over a dead object: the move reads it. *)
Lemma try_pop_alone_dead fuel q s :
  0 < Queue.max_capacity q -> 0 <= Queue.tail q < ticket_limit ->
  Queue.slot_at q (Queue.tail q mod Queue.max_capacity q) = Some s ->
  Slot.turn s = 2 * (Queue.tail q / Queue.max_capacity q) + 1 ->
  Slot.storage s = None ->
  Queue.try_pop (4 + fuel) q = Queue.Undefined.
Proof.
  intros Hc Hh Hs Hturn Hx.
  pose proof (target_lookup q _ s Hc Hs) as Ht.
  pose proof (turn_of_small q (Queue.tail q) 1 Hc ltac:(lia) ltac:(lia)) as Hto1.
  unfold Queue.try_pop. cbn [Nat.add].
  run_step. run_step. bind_with Ht. bind_with Hto1. rewrite Hturn, Z.eqb_refl.
  run_step. rewrite Z.eqb_refl.
  run_step. rewrite target_set_tail. bind_with Ht. unfold Slot.move.
  now rewrite Hx.
Qed.
End Alone.

(** ** Calls on a queue that represents a list *)

Section SequentialCalls.
Context {T : Type}.
Implicit Types (q : Queue.queue T) (l : list T) (v x : T) (p : Queue.pc T).

Lemma repr_head_slot q l :
  repr q l -> Z.of_nat (length l) < Queue.max_capacity q ->
  Queue.slot_at q (Queue.head q mod Queue.max_capacity q) =
  Some (cell (Queue.head q) (Queue.max_capacity q) None).
Proof.
  intros R Hroom. pose proof (repr_ring q l R (Z.of_nat (length l))) as Hring.
  rewrite <- (repr_head q l R), Nat2Z.id, (lookup_ge_None_2 l (length l)) in Hring
    by apply Nat.le_refl.
  apply Hring. pose proof (repr_cap q l R). lia.
Qed.

Lemma repr_tail_slot q x l :
  repr q (x :: l) ->
  Queue.slot_at q (Queue.tail q mod Queue.max_capacity q) =
  Some (cell (Queue.tail q) (Queue.max_capacity q) (Some x)).
Proof.
  intros R. pose proof (repr_ring q _ R 0) as Hring.
  rewrite Z.add_0_r in Hring. apply Hring.
  pose proof (repr_cap q _ R). lia.
Qed.

(** On a full ring the slot of the next writer ticket still holds the
    oldest element. *)
Lemma repr_full_slot q x l :
  repr q (x :: l) -> Z.of_nat (length (x :: l)) = Queue.max_capacity q ->
  Queue.slot_at q (Queue.head q mod Queue.max_capacity q) =
  Some (cell (Queue.tail q) (Queue.max_capacity q) (Some x)) /\
  Queue.head q / Queue.max_capacity q = Queue.tail q / Queue.max_capacity q + 1.
Proof.
  intros R Hfull. pose proof (repr_cap q _ R) as Hc.
  rewrite (repr_head q _ R), Hfull, mod_add_cap, div_add_cap by exact Hc.
  split; [now apply (repr_tail_slot q x l)|reflexivity].
Qed.

Lemma repr_range q l :
  repr q l -> 0 <= Queue.tail q <= Queue.head q /\ Queue.head q <= ticket_limit.
Proof.
  intros R. pose proof (repr_tail q l R). pose proof (repr_head q l R).
  pose proof (repr_limit q l R). lia.
Qed.

Lemma after_insert_state q v : after_insert q v = inserted_state q v.
Proof. reflexivity. Qed.

Lemma after_remove_state q :
  0 < Queue.max_capacity q -> after_remove q = removed_state q.
Proof.
  intros Hc. unfold after_remove, removed_state, cell.
  rewrite div_add_cap by exact Hc. do 2 f_equal. lia.
Qed.

Lemma try_emplace_room fuel q l v :
  repr q l -> Z.of_nat (length l) < Queue.max_capacity q ->
  Queue.head q < ticket_limit ->
  Queue.try_emplace (5 + fuel) q v =
  Queue.Returns (Queue.RBool true) (after_insert q v).
Proof.
  intros R Hroom Hlim. pose proof (repr_range q l R).
  rewrite after_insert_state.
  eapply try_emplace_alone_ready;
    [apply R|lia|exact (repr_head_slot q l R Hroom)|cbn; lia].
Qed.

Lemma emplace_room fuel q l v :
  repr q l -> Z.of_nat (length l) < Queue.max_capacity q ->
  Queue.head q < ticket_limit ->
  Queue.emplace (4 + fuel) q v =
  Queue.Returns Queue.RVoid (after_insert q v).
Proof.
  intros R Hroom Hlim. pose proof (repr_range q l R).
  rewrite after_insert_state.
  eapply emplace_alone_ready;
    [apply R|lia|exact (repr_head_slot q l R Hroom)|cbn; lia].
Qed.

Lemma try_emplace_full fuel q l v :
  repr q l -> Z.of_nat (length l) = Queue.max_capacity q ->
  Queue.try_emplace (3 + fuel) q v = Queue.Returns (Queue.RBool false) q.
Proof.
  intros R Hfull. pose proof (repr_range q l R). pose proof (repr_cap q l R).
  destruct l as [|x l']; [simpl in Hfull; lia|].
  destruct (repr_full_slot q x l' R Hfull) as [Hs Hg].
  eapply try_emplace_alone_full; [apply R|lia|exact Hs|cbn; lia].
Qed.

Lemma emplace_full q l v :
  repr q l -> Z.of_nat (length l) = Queue.max_capacity q ->
  Queue.head q < ticket_limit ->
  forall fuel, Queue.emplace fuel q v = Queue.Spinning.
Proof.
  intros R Hfull Hlim. pose proof (repr_range q l R). pose proof (repr_cap q l R).
  destruct l as [|x l']; [simpl in Hfull; lia|].
  destruct (repr_full_slot q x l' R Hfull) as [Hs Hg].
  eapply emplace_alone_waits; [apply R|lia|exact Hs|cbn; lia].
Qed.

Lemma try_pop_some fuel q x l :
  repr q (x :: l) ->
  Queue.try_pop (6 + fuel) q =
  Queue.Returns (Queue.ROptional (Some x)) (after_remove q).
Proof.
  intros R. pose proof (repr_range q _ R) as Hr. pose proof (repr_head q _ R) as Hh.
  simpl length in Hh. rewrite after_remove_state by apply R.
  eapply try_pop_alone_ready;
    [apply R|lia|exact (repr_tail_slot q x l R)|reflexivity|reflexivity].
Qed.

Lemma pop_some fuel q x l :
  repr q (x :: l) ->
  Queue.pop (5 + fuel) q = Queue.Returns (Queue.RValue x) (after_remove q).
Proof.
  intros R. pose proof (repr_range q _ R) as Hr. pose proof (repr_head q _ R) as Hh.
  simpl length in Hh. rewrite after_remove_state by apply R.
  eapply pop_alone_ready;
    [apply R|lia|exact (repr_tail_slot q x l R)|reflexivity|reflexivity].
Qed.

Lemma repr_empty_slot q :
  repr q [] ->
  Queue.slot_at q (Queue.tail q mod Queue.max_capacity q) =
  Some (cell (Queue.tail q) (Queue.max_capacity q) None).
Proof.
  intros R. pose proof (repr_head_slot q [] R) as H.
  pose proof (repr_cap q _ R) as Hc. pose proof (repr_head q _ R) as Hh.
  simpl in Hh, H. rewrite Z.add_0_r in Hh. rewrite Hh in H. apply H. lia.
Qed.

Lemma try_pop_empty fuel q :
  repr q [] ->
  Queue.try_pop (3 + fuel) q = Queue.Returns (Queue.ROptional None) q.
Proof.
  intros R. pose proof (repr_range q _ R).
  eapply try_pop_alone_empty; [apply R|lia|exact (repr_empty_slot q R)|cbn; lia].
Qed.

Lemma pop_empty q :
  repr q [] -> Queue.tail q < ticket_limit ->
  forall fuel, Queue.pop fuel q = Queue.Spinning.
Proof.
  intros R Hlim. pose proof (repr_range q _ R).
  eapply pop_alone_waits; [apply R|lia|exact (repr_empty_slot q R)|cbn; lia].
Qed.
End SequentialCalls.

(** ** Construction *)

Section Construction.
Context {T : Type}.

Lemma placement_loop_snoc n (l : list (Slot.slot T)) :
  Queue.placement_loop (S n) l =
  Queue.placement_loop n l ≫= fun l' =>
    if decide (n < length l')%nat then Some (<[n := Slot.fresh]> l') else None.
Proof.
  unfold Queue.placement_loop. rewrite seq_S, foldl_app. reflexivity.
Qed.

Lemma placement_loop_fresh (n m : nat) :
  (n <= m)%nat ->
  Queue.placement_loop n (replicate m (Slot.fresh (T:=T))) =
  Some (replicate m Slot.fresh).
Proof.
  induction n as [|n IH]; intros Hn; [reflexivity|].
  rewrite placement_loop_snoc, IH by lia. cbn [mbind option_bind].
  rewrite length_replicate. destruct (decide (n < m)%nat) as [_|]; [|lia].
  f_equal. apply list_insert_id. apply lookup_replicate_2. lia.
Qed.

Lemma placement_loop_length (n : nat) (l l' : list (Slot.slot T)) :
  Queue.placement_loop n l = Some l' ->
  length l' = length l /\ (n <= length l)%nat.
Proof.
  revert l'. induction n as [|n IH]; intros l' H.
  - inversion H. split; [reflexivity|lia].
  - rewrite placement_loop_snoc in H.
    destruct (Queue.placement_loop n l) as [l2|] eqn:E2; [|discriminate].
    cbn [mbind option_bind] in H. destruct (IH _ eq_refl) as [Hl Hk].
    destruct (decide (n < length l2)%nat); [|discriminate].
    inversion H. rewrite length_insert. split; [exact Hl|lia].
Qed.

(** A slot array too short for the placement loop makes the constructor
    write past its end. *)
Lemma placement_loop_short (n : nat) (l : list (Slot.slot T)) :
  (length l < n)%nat -> Queue.placement_loop n l = None.
Proof.
  intros Hn. destruct (Queue.placement_loop n l) as [l'|] eqn:E; [|reflexivity].
  apply placement_loop_length in E. lia.
Qed.

Definition initial (capacity : Z) : Queue.queue T :=
  {| Queue.max_capacity := capacity;
     Queue.slots := replicate (Z.to_nat (capacity + 1)) Slot.fresh;
     Queue.head := 0; Queue.tail := 0 |}.

Lemma make_initial capacity :
  0 <= capacity < size_modulus - 1 ->
  Queue.make capacity = Some (initial capacity).
Proof.
  intros Hc. unfold Queue.make.
  rewrite wrap_small by lia.
  rewrite placement_loop_fresh by lia. reflexivity.
Qed.

Lemma repr_initial capacity :
  0 < capacity -> repr (initial capacity) [].
Proof.
  intros Hc. split; cbn [initial Queue.max_capacity Queue.slots Queue.head Queue.tail length].
  - exact Hc.
  - rewrite length_replicate. lia.
  - lia.
  - lia.
  - lia.
  - rewrite ticket_limit_eq. lia.
  - intros k Hk. unfold Queue.slot_at. cbn [initial Queue.slots].
    rewrite Z.add_0_l, Z.mod_small by lia.
    rewrite lookup_replicate_2 by lia. unfold cell.
    rewrite lookup_nil, Z.div_small by lia. reflexivity.
  - unfold Queue.slot_at. cbn [initial Queue.slots].
    apply lookup_replicate_2. lia.
Qed.
End Construction.

(** ** Sequences of calls made by one thread *)

Section Programs.
Context {T : Type}.
Implicit Types (q : Queue.queue T) (l : list T) (v x : T).

(** The public member functions that take part in the protocol. *)
Inductive call : Type :=
| Emplace (v : T)
| TryEmplace (v : T)
| Push (v : T)
| TryPush (v : T)
| Pop
| TryPop.

Definition invoke (fuel : nat) q (c : call) : Queue.outcome T :=
  match c with
  | Emplace v => Queue.emplace fuel q v
  | TryEmplace v => Queue.try_emplace fuel q v
  | Push v => Queue.push fuel q v
  | TryPush v => Queue.try_push fuel q v
  | Pop => Queue.pop fuel q
  | TryPop => Queue.try_pop fuel q
  end.

(** Runs the calls one after the other; stops at the first call that does
    not return. The history pairs every completed call with its result. *)
Fixpoint execute (fuel : nat) q (cs : list call)
  : list (call * Queue.retval T) * option (Queue.queue T) :=
  match cs with
  | [] => ([], Some q)
  | c :: cs' =>
      match invoke fuel q c with
      | Queue.Returns r q' =>
          let '(h, e) := execute fuel q' cs' in ((c, r) :: h, e)
      | _ => ([], None)
      end
  end.

Definition inserted_by (e : call * Queue.retval T) : list T :=
  match e with
  | (Emplace v, Queue.RVoid) | (Push v, Queue.RVoid) => [v]
  | (TryEmplace v, Queue.RBool true) | (TryPush v, Queue.RBool true) => [v]
  | _ => []
  end.

Definition removed_by (e : call * Queue.retval T) : list T :=
  match e with
  | (Pop, Queue.RValue x) => [x]
  | (TryPop, Queue.ROptional (Some x)) => [x]
  | _ => []
  end.

(** The elements put in, and taken out, by the successful calls of a
    history, in call order. *)
Definition inserted (h : list (call * Queue.retval T)) : list T :=
  concat (map inserted_by h).
Definition removed (h : list (call * Queue.retval T)) : list T :=
  concat (map removed_by h).

(** The bounded first-in first-out queue of the specification: what a call
    answers on contents [l], and the contents it leaves; [None] when the
    call waits. *)
Definition fifo_call (capacity : Z) l (c : call) : option (Queue.retval T * list T) :=
  match c with
  | Emplace v | Push v =>
      if Z.of_nat (length l) <? capacity then Some (Queue.RVoid, l ++ [v]) else None
  | TryEmplace v | TryPush v =>
      if Z.of_nat (length l) <? capacity
      then Some (Queue.RBool true, l ++ [v]) else Some (Queue.RBool false, l)
  | Pop => match l with x :: l' => Some (Queue.RValue x, l') | [] => None end
  | TryPop =>
      match l with
      | x :: l' => Some (Queue.ROptional (Some x), l')
      | [] => Some (Queue.ROptional None, [])
      end
  end.

Lemma run_more fuel p q r q' :
  Queue.run fuel p q = Queue.Returns r q' ->
  forall extra, Queue.run (extra + fuel) p q = Queue.Returns r q'.
Proof.
  revert p q. induction fuel as [|fuel IH]; intros p q H extra.
  - simpl in H. destruct (Queue.returned p) eqn:E; [|discriminate].
    rewrite (run_returned _ _ _ _ E). exact H.
  - replace (extra + S fuel)%nat with (S (extra + fuel)) by lia.
    rewrite run_unfold in *. destruct (Queue.returned p); [exact H|].
    destruct (Queue.step p q) as [[p' q1]|]; [|discriminate].
    now apply IH.
Qed.

(** Every call that returns answers as the bounded FIFO does, and leaves a
    queue that represents the FIFO's new contents. *)
Lemma invoke_refines fuel q l c r q' :
  repr q l -> Queue.head q < ticket_limit ->
  invoke fuel q c = Queue.Returns r q' ->
  exists l', fifo_call (Queue.max_capacity q) l c = Some (r, l') /\ repr q' l'
             /\ Queue.max_capacity q' = Queue.max_capacity q
             /\ Queue.head q' <= Queue.head q + 1.
Proof.
  intros R Hlim H.
  pose proof (repr_bound q l R) as Hb.
  assert (Hins : forall v, Z.of_nat (length l) < Queue.max_capacity q ->
            repr (after_insert q v) (l ++ [v]) /\
            Queue.max_capacity (after_insert q v) = Queue.max_capacity q /\
            Queue.head (after_insert q v) <= Queue.head q + 1).
  { intros v Hroom. split; [now apply repr_after_insert|]. split; [reflexivity|].
    simpl. lia. }
  assert (Hrem : forall x l0, l = x :: l0 ->
            repr (after_remove q) l0 /\
            Queue.max_capacity (after_remove q) = Queue.max_capacity q /\
            Queue.head (after_remove q) <= Queue.head q + 1).
  { intros x l0 ->. split; [now apply (repr_after_remove q x)|].
    split; [reflexivity|]. simpl. lia. }
  destruct c as [v|v|v|v| |]; cbn [invoke fifo_call Queue.push Queue.try_push] in *;
    [destruct (Z.ltb_spec (Z.of_nat (length l)) (Queue.max_capacity q)) as [Hroom|Hfull]..
    | | ].
  - apply run_more with (extra := 4%nat) in H. fold (Queue.emplace (4 + fuel) q v) in H.
    rewrite (emplace_room _ _ l) in H by assumption. inversion H; subst.
    eexists; split; [reflexivity|]. now apply Hins.
  - fold (Queue.emplace fuel q v) in H.
    rewrite (emplace_full q l) in H by first [assumption | lia]. discriminate.
  - apply run_more with (extra := 5%nat) in H. fold (Queue.try_emplace (5 + fuel) q v) in H.
    rewrite (try_emplace_room _ _ l) in H by assumption. inversion H; subst.
    eexists; split; [reflexivity|]. now apply Hins.
  - apply run_more with (extra := 3%nat) in H. fold (Queue.try_emplace (3 + fuel) q v) in H.
    rewrite (try_emplace_full _ _ l) in H by first [assumption | lia]. inversion H; subst.
    eexists; split; [reflexivity|]. split; [exact R|]. split; [reflexivity|lia].
  - apply run_more with (extra := 4%nat) in H. fold (Queue.emplace (4 + fuel) q v) in H.
    rewrite (emplace_room _ _ l) in H by assumption. inversion H; subst.
    eexists; split; [reflexivity|]. now apply Hins.
  - fold (Queue.emplace fuel q v) in H.
    rewrite (emplace_full q l) in H by first [assumption | lia]. discriminate.
  - apply run_more with (extra := 5%nat) in H. fold (Queue.try_emplace (5 + fuel) q v) in H.
    rewrite (try_emplace_room _ _ l) in H by assumption. inversion H; subst.
    eexists; split; [reflexivity|]. now apply Hins.
  - apply run_more with (extra := 3%nat) in H. fold (Queue.try_emplace (3 + fuel) q v) in H.
    rewrite (try_emplace_full _ _ l) in H by first [assumption | lia]. inversion H; subst.
    eexists; split; [reflexivity|]. split; [exact R|]. split; [reflexivity|lia].
  - destruct l as [|x l0].
    + pose proof (repr_head q _ R) as Hh. simpl in Hh.
      rewrite (pop_empty q R) in H by lia. discriminate.
    + apply run_more with (extra := 5%nat) in H. fold (Queue.pop (5 + fuel) q) in H.
      rewrite (pop_some _ _ x l0 R) in H. inversion H; subst.
      eexists; split; [reflexivity|]. now apply (Hrem x).
  - destruct l as [|x l0].
    + apply run_more with (extra := 3%nat) in H. fold (Queue.try_pop (3 + fuel) q) in H.
      rewrite (try_pop_empty _ _ R) in H. inversion H; subst.
      eexists; split; [reflexivity|]. split; [exact R|]. split; [reflexivity|lia].
    + apply run_more with (extra := 6%nat) in H. fold (Queue.try_pop (6 + fuel) q) in H.
      rewrite (try_pop_some _ _ x l0 R) in H. inversion H; subst.
      eexists; split; [reflexivity|]. now apply (Hrem x).
Qed.

Lemma fifo_call_contents capacity l c r l' :
  fifo_call capacity l c = Some (r, l') ->
  l ++ inserted_by (c, r) = removed_by (c, r) ++ l'.
Proof.
  destruct c as [v|v|v|v| |]; cbn [fifo_call]; intros H;
    repeat match type of H with
           | context [if ?b then _ else _] => destruct b
           | context [match ?l with [] => _ | _ :: _ => _ end] => destruct l
           end;
    inversion H; subst; cbn [inserted_by removed_by];
    rewrite ?app_nil_r; reflexivity.
Qed.

(** Along any sequence of calls of one thread, what went in is what came
    out followed by what is still inside. *)
Lemma execute_contents fuel cs : forall q l h e,
  repr q l -> Queue.head q + Z.of_nat (length cs) <= ticket_limit ->
  execute fuel q cs = (h, e) ->
  exists l', l ++ inserted h = removed h ++ l' /\
             forall q', e = Some q' -> repr q' l'.
Proof.
  induction cs as [|c cs IH]; intros q l h e R Hlim H; cbn [execute] in H.
  - inversion H; subst. exists l. split; [now rewrite app_nil_r|].
    intros q' E. now inversion E; subst.
  - destruct (invoke fuel q c) as [r q1| |] eqn:E.
    + destruct (execute fuel q1 cs) as [h1 e1] eqn:E1. inversion H; subst.
      cbn [length] in Hlim.
      destruct (invoke_refines fuel q l c r q1 R ltac:(lia) E)
        as (l1 & Hf & R1 & _ & Hh).
      destruct (IH q1 l1 h1 e R1 ltac:(lia) E1) as (l2 & Hc & He).
      exists l2. split; [|exact He].
      unfold inserted, removed in *. cbn [map concat].
      apply fifo_call_contents in Hf.
      rewrite app_assoc, Hf, <- !app_assoc. f_equal. exact Hc.
    + inversion H; subst. exists l. split; [now rewrite app_nil_r|]. discriminate.
    + inversion H; subst. exists l. split; [now rewrite app_nil_r|]. discriminate.
Qed.
End Programs.

(** ** Concurrent executions

    Threads run calls step by step; a schedule says which thread moves next.
    In [perform] and [schedule] every access to [head], [tail], the turn
    counters and the storage takes effect at once, in schedule order and, for
    each thread, in program order. The store of the turn in [try_pop] is
    relaxed and may also take effect ahead of program order: the executions
    in which it does are added by [occur] and [play] (see the part on the
    relaxed store of [try_pop]). *)

Section Concurrent.
Context {T : Type}.
Implicit Types (q : Queue.queue T) (p : Queue.pc T) (c : call (T:=T)).

(** The first program point of a call. *)
Definition entry c : Queue.pc T :=
  match c with
  | Emplace v | Push v => Queue.EmFetchAdd v
  | TryEmplace v | TryPush v => Queue.TeLoadHead v
  | Pop => Queue.PopFetchAdd
  | TryPop => Queue.TpLoadTail
  end.

Lemma invoke_entry fuel q c : invoke fuel q c = Queue.run fuel (entry c) q.
Proof. destruct c; reflexivity. Qed.

(** The queue, the threads that are inside a call (with the call and the
    program point they are at), and the completed calls in order of
    completion. *)
Record system : Type := System {
  shared : Queue.queue T;
  pool : gmap nat (call (T:=T) * Queue.pc T);
  history : list (nat * (call (T:=T) * Queue.retval T))
}.

Inductive action : Type :=
| Call (i : nat) (c : call (T:=T))   (* thread [i] enters a call *)
| Run (i : nat)                      (* thread [i] executes one step *)
| Return (i : nat).                  (* thread [i] leaves its call *)

(** One action; the accesses of a call take effect in program order. *)
Definition perform (a : action) (σ : system) : option system :=
  match a with
  | Call i c =>
      match pool σ !! i with
      | None => Some (System (shared σ) (<[i := (c, entry c)]> (pool σ)) (history σ))
      | Some _ => None
      end
  | Run i =>
      '(c, p) ← pool σ !! i;
      match Queue.returned p with
      | Some _ => None
      | None =>
          '(p', q') ← Queue.step p (shared σ);
          Some (System q' (<[i := (c, p')]> (pool σ)) (history σ))
      end
  | Return i =>
      '(c, p) ← pool σ !! i;
      r ← Queue.returned p;
      Some (System (shared σ) (delete i (pool σ)) (history σ ++ [(i, (c, r))]))
  end.

Fixpoint schedule (acts : list action) (σ : system) : option system :=
  match acts with
  | [] => Some σ
  | a :: acts' => σ' ← perform a σ; schedule acts' σ'
  end.

(** A freshly constructed queue with no thread inside. *)
Definition boot (capacity : Z) : system :=
  System (initial capacity) ∅ [].

Definition quiescent (σ : system) : Prop := pool σ = ∅.

Definition inserted_in (σ : system) : list T := inserted (history σ).*2.
Definition removed_in (σ : system) : list T := removed (history σ).*2.

(** *** What a thread owns at a program point *)
Inductive phase : Type :=
| Outside
| AtHead (h : Z)
| AtTail (t : Z)
| SawEmpty (h : Z)
| SawFull (t : Z)
| WWait (h : Z) (v : T)
| WOwn (h : Z) (v : T)
| WBuilt (h : Z) (v : T)
| RWait (t : Z)
| ROwn (t : Z)
| RTook (t : Z) (x : T)
| RFreed (t : Z) (x : T).

Definition phase_of p : phase :=
  match p with
  | Queue.EmSpin v h => WWait h v
  | Queue.EmConstruct v h | Queue.TeConstruct v h => WOwn h v
  | Queue.EmStore v h | Queue.TeStore v h => WBuilt h v
  | Queue.TeLoadTurn v h => AtHead h
  | Queue.TpLoadTurn t => AtTail t
  | Queue.TeCas v h => SawEmpty h
  | Queue.TpCas t => SawFull t
  | Queue.PopSpin t => RWait t
  | Queue.PopMove t | Queue.TpMove t => ROwn t
  | Queue.PopDestroy t x | Queue.TpDestroy t x => RTook t x
  | Queue.PopStore t x | Queue.TpStore t x => RFreed t x
  | _ => Outside
  end.

Definition wticket (ph : phase) : option Z :=
  match ph with
  | WWait h _ | WOwn h _ | WBuilt h _ => Some h
  | _ => None
  end.

Definition rticket (ph : phase) : option Z :=
  match ph with
  | RWait t | ROwn t | RTook t _ | RFreed t _ => Some t
  | _ => None
  end.

(** The reader of ticket [t] has not yet moved the element out. *)
Definition unread (ph : phase) (t : Z) : Prop := ph = RWait t \/ ph = ROwn t.

(** The program points of a call. *)
Definition belongs c p : Prop :=
  match c, p with
  | (Emplace v | Push v),
    (Queue.EmFetchAdd v' | Queue.EmSpin v' _ | Queue.EmConstruct v' _ | Queue.EmStore v' _) => v' = v
  | (Emplace _ | Push _), Queue.EmDone => True
  | (TryEmplace v | TryPush v),
    (Queue.TeLoadHead v' | Queue.TeLoadTurn v' _ | Queue.TeCas v' _
     | Queue.TeConstruct v' _ | Queue.TeStore v' _ | Queue.TeReload v' _) => v' = v
  | (TryEmplace _ | TryPush _), Queue.TeDone _ => True
  | Pop, (Queue.PopFetchAdd | Queue.PopSpin _ | Queue.PopMove _ | Queue.PopDestroy _ _
          | Queue.PopStore _ _ | Queue.PopDone _) => True
  | TryPop, (Queue.TpLoadTail | Queue.TpLoadTurn _ | Queue.TpCas _ | Queue.TpMove _
             | Queue.TpDestroy _ _ | Queue.TpStore _ _ | Queue.TpReload _ | Queue.TpDone _) => True
  | _, _ => False
  end.

(** Elements a thread has taken a ticket for, or has inserted without
    having returned yet. *)
Definition pending_ins (e : call (T:=T) * Queue.pc T) : list T :=
  match Queue.returned e.2 with
  | Some r => inserted_by (e.1, r)
  | None => match phase_of e.2 with
            | WWait _ v | WOwn _ v | WBuilt _ v => [v]
            | _ => []
            end
  end.

(** Elements a thread has moved out of a slot without having returned. *)
Definition pending_rem (e : call (T:=T) * Queue.pc T) : list T :=
  match Queue.returned e.2 with
  | Some r => removed_by (e.1, r)
  | None => match phase_of e.2 with
            | RTook _ x | RFreed _ x => [x]
            | _ => []
            end
  end.

Definition in_flight (f : call (T:=T) * Queue.pc T -> list T)
    (m : gmap nat (call (T:=T) * Queue.pc T)) : list T :=
  concat (f <$> (map_to_list m).*2).
End Concurrent.

(** ** The protocol invariant *)

Section Invariant.
Context {T : Type}.
Variable C : Z.
Hypothesis C_pos : 0 < C.
Implicit Types (q : Queue.queue T) (p : Queue.pc T) (c : call (T:=T))
  (σ : system (T:=T)) (wv : list T) (ph : phase (T:=T))
  (m : gmap nat (call (T:=T) * Queue.pc T)).

(** The slot of ticket [k], its turn and its contents. *)
Definition slot_of q (k : Z) : Slot.slot T :=
  default Slot.fresh (Queue.slot_at q (k mod C)).
Definition turn_at q (k : Z) : Z := Slot.turn (slot_of q k).
Definition store_at q (k : Z) : option T := Slot.storage (slot_of q k).

(** Some thread inside a call is in a phase that satisfies [P]. *)
Definition busy m (P : phase (T:=T) -> Prop) : Prop :=
  exists i c p, m !! i = Some (c, p) /\ P (phase_of p).

Definition phase_ok wv q ph : Prop :=
  match ph with
  | Outside => True
  | AtHead h => 0 <= h <= Queue.head q
  | AtTail t => 0 <= t <= Queue.tail q
  | SawEmpty h => 0 <= h <= Queue.head q /\ 2 * (h / C) <= turn_at q h
  | SawFull t => 0 <= t <= Queue.tail q /\ 2 * (t / C) + 1 <= turn_at q t
  | WWait h v =>
      0 <= h < Queue.head q /\ wv !! Z.to_nat h = Some v /\
      turn_at q h <= 2 * (h / C)
  | WOwn h v =>
      0 <= h < Queue.head q /\ wv !! Z.to_nat h = Some v /\
      turn_at q h = 2 * (h / C) /\ store_at q h = None
  | WBuilt h v =>
      0 <= h < Queue.head q /\ wv !! Z.to_nat h = Some v /\
      turn_at q h = 2 * (h / C) /\ store_at q h = Some v
  | RWait t => 0 <= t < Queue.tail q /\ turn_at q t <= 2 * (t / C) + 1
  | ROwn t =>
      0 <= t < Queue.tail q /\ turn_at q t = 2 * (t / C) + 1 /\
      exists x, store_at q t = Some x /\ wv !! Z.to_nat t = Some x
  | RTook t x =>
      0 <= t < Queue.tail q /\ turn_at q t = 2 * (t / C) + 1 /\
      store_at q t = Some x /\ wv !! Z.to_nat t = Some x
  | RFreed t x =>
      0 <= t < Queue.tail q /\ turn_at q t = 2 * (t / C) + 1 /\
      store_at q t = None /\ wv !! Z.to_nat t = Some x
  end.

(** No two threads hold the same ticket of one kind. *)
Definition unique_tickets (tk : phase (T:=T) -> option Z) m : Prop :=
  forall i j ci pi cj pj k,
    m !! i = Some (ci, pi) -> m !! j = Some (cj, pj) ->
    tk (phase_of pi) = Some k -> tk (phase_of pj) = Some k -> i = j.

(** [wv] lists the element of every writer ticket issued so far; [done]
    lists the reader tickets whose element has been moved out, with that
    element; [n] bounds the number of steps taken. *)
Record inv (n : Z) σ wv (done : list (Z * T)) : Prop := {
  inv_cap : Queue.max_capacity (shared σ) = C;
  inv_len : Z.of_nat (length (Queue.slots (shared σ))) = C + 1;
  inv_head : Queue.head (shared σ) = Z.of_nat (length wv);
  inv_tail : 0 <= Queue.tail (shared σ);
  inv_count : Queue.head (shared σ) <= n /\ Queue.tail (shared σ) <= n /\
              n <= ticket_limit;
  inv_belongs : forall i c p, pool σ !! i = Some (c, p) -> belongs c p;
  inv_phase : forall i c p, pool σ !! i = Some (c, p) ->
    phase_ok wv (shared σ) (phase_of p);
  inv_wuniq : unique_tickets wticket (pool σ);
  inv_runiq : unique_tickets rticket (pool σ);
  inv_written : forall k, 0 <= k ->
    2 * (k / C) + 1 <= turn_at (shared σ) k -> k < Queue.head (shared σ);
  inv_read : forall k, 0 <= k ->
    2 * (k / C) + 2 <= turn_at (shared σ) k -> k < Queue.tail (shared σ);
  inv_even : forall k, 0 <= k -> turn_at (shared σ) k = 2 * (k / C) ->
    store_at (shared σ) k = None \/
    busy (pool σ) (fun ph => exists v, ph = WBuilt k v);
  inv_odd : forall k, 0 <= k -> turn_at (shared σ) k = 2 * (k / C) + 1 ->
    (exists x, store_at (shared σ) k = Some x /\ wv !! Z.to_nat k = Some x) \/
    busy (pool σ) (fun ph => exists x, ph = RFreed k x);
  inv_done_nodup : NoDup done.*1;
  inv_done_val : forall t x, (t, x) ∈ done ->
    0 <= t < Queue.tail (shared σ) /\ wv !! Z.to_nat t = Some x;
  inv_done_excl : forall i c p t, pool σ !! i = Some (c, p) ->
    unread (phase_of p) t -> t ∉ done.*1;
  inv_done_cover : forall t, 0 <= t < Queue.tail (shared σ) ->
    t ∈ done.*1 \/ busy (pool σ) (fun ph => unread ph t);
  inv_ins : wv ≡ₚ inserted_in σ ++ in_flight pending_ins (pool σ);
  inv_rem : done.*2 ≡ₚ removed_in σ ++ in_flight pending_rem (pool σ)
}.

(** *** Tickets and slots *)

Lemma ticket_split k : k = C * (k / C) + k mod C /\ 0 <= k mod C < C.
Proof.
  split; [apply Z.div_mod; lia | apply Z.mod_pos_bound; lia].
Qed.

Lemma same_slot_eq k h : k mod C = h mod C -> k / C = h / C -> k = h.
Proof.
  intros Hm Hd. destruct (ticket_split k) as [Ek _], (ticket_split h) as [Eh _].
  rewrite Ek, Eh, Hm, Hd. reflexivity.
Qed.

Lemma same_slot_le k h : k mod C = h mod C -> k / C <= h / C -> k <= h.
Proof.
  intros Hm Hd. destruct (ticket_split k) as [Ek _], (ticket_split h) as [Eh _].
  rewrite Ek, Eh, Hm. nia.
Qed.

Lemma gen_lt k h : k / C < h / C -> k < h.
Proof.
  intros Hd. destruct (Z_lt_le_dec k h) as [|Hge]; [assumption|].
  pose proof (Z.div_le_mono h k C C_pos Hge). lia.
Qed.

Lemma gen_le k h : k <= h -> k / C <= h / C.
Proof. intros. now apply Z.div_le_mono. Qed.

Lemma slot_of_set_head q h k : slot_of (Queue.set_head q h) k = slot_of q k.
Proof. reflexivity. Qed.

Lemma slot_of_set_tail q t k : slot_of (Queue.set_tail q t) k = slot_of q k.
Proof. reflexivity. Qed.

Lemma slot_of_set_slot_same q h k s :
  Z.of_nat (length (Queue.slots q)) = C + 1 ->
  k mod C = h mod C -> slot_of (Queue.set_slot q (h mod C) s) k = s.
Proof.
  intros Hlen E. unfold slot_of, Queue.slot_at, Queue.set_slot. simpl.
  rewrite E, list_lookup_insert_eq; [reflexivity|].
  destruct (ticket_split h). lia.
Qed.

Lemma slot_of_set_slot_other q h k s :
  k mod C <> h mod C -> slot_of (Queue.set_slot q (h mod C) s) k = slot_of q k.
Proof.
  intros E. unfold slot_of, Queue.slot_at, Queue.set_slot. simpl.
  rewrite list_lookup_insert_ne; [reflexivity|].
  destruct (ticket_split h), (ticket_split k). lia.
Qed.

Lemma slot_at_slot_of q k :
  Z.of_nat (length (Queue.slots q)) = C + 1 ->
  Queue.slot_at q (k mod C) = Some (slot_of q k).
Proof.
  intros Hlen. unfold slot_of, Queue.slot_at.
  destruct (lookup_lt_is_Some_2 (Queue.slots q) (Z.to_nat (k mod C))) as [s Hs].
  - destruct (ticket_split k). lia.
  - now rewrite Hs.
Qed.

Lemma target_slot_of q k :
  Queue.max_capacity q = C -> Z.of_nat (length (Queue.slots q)) = C + 1 ->
  Queue.target q k = Some (k mod C, slot_of q k).
Proof.
  intros Hc Hlen. rewrite <- Hc at 1.
  apply target_lookup; [lia|]. rewrite Hc. now apply slot_at_slot_of.
Qed.

Lemma turn_of_ticket q k j :
  Queue.max_capacity q = C -> 0 <= k <= ticket_limit -> 0 <= j <= 2 ->
  Queue.turn_of q k j = Some (2 * (k / C) + j).
Proof.
  intros Hc Hk Hj. rewrite <- Hc. apply turn_of_small; lia.
Qed.

(** *** Threads in a phase *)

Lemma busy_insert_other m i c p c' p' (P : phase (T:=T) -> Prop) :
  m !! i = Some (c, p) -> ~ P (phase_of p) ->
  busy m P -> busy (<[i := (c', p')]> m) P.
Proof.
  intros Hi Hn (j & cj & pj & Hj & HP).
  destruct (decide (i = j)) as [->|Hne].
  - rewrite Hi in Hj. inversion Hj; subst. contradiction.
  - exists j, cj, pj. split; [|exact HP]. now rewrite lookup_insert_ne.
Qed.

Lemma busy_insert_keep m i c p c' p' (P : phase (T:=T) -> Prop) :
  m !! i = Some (c, p) -> (P (phase_of p) -> P (phase_of p')) ->
  busy m P -> busy (<[i := (c', p')]> m) P.
Proof.
  intros Hi Hk (j & cj & pj & Hj & HP).
  destruct (decide (i = j)) as [->|Hne].
  - rewrite Hi in Hj. inversion Hj; subst.
    exists j, c', p'. split; [apply lookup_insert_eq | auto].
  - exists j, cj, pj. split; [|exact HP]. now rewrite lookup_insert_ne.
Qed.

Lemma busy_insert_self m i c p (P : phase (T:=T) -> Prop) :
  P (phase_of p) -> busy (<[i := (c, p)]> m) P.
Proof. intros HP. exists i, c, p. split; [apply lookup_insert_eq | exact HP]. Qed.

Lemma busy_insert_fresh m i c p (P : phase (T:=T) -> Prop) :
  m !! i = None -> busy m P -> busy (<[i := (c, p)]> m) P.
Proof.
  intros Hi (j & cj & pj & Hj & HP). exists j, cj, pj. split; [|exact HP].
  rewrite lookup_insert_ne; [exact Hj|]. intros ->. congruence.
Qed.

Lemma busy_delete m i c p (P : phase (T:=T) -> Prop) :
  m !! i = Some (c, p) -> ~ P (phase_of p) -> busy m P -> busy (delete i m) P.
Proof.
  intros Hi Hn (j & cj & pj & Hj & HP).
  destruct (decide (i = j)) as [->|Hne].
  - rewrite Hi in Hj. inversion Hj; subst. contradiction.
  - exists j, cj, pj. split; [|exact HP]. now rewrite lookup_delete_ne.
Qed.

(** *** Elements held by the threads *)

Lemma in_flight_insert f m i e :
  m !! i = None -> in_flight f (<[i := e]> m) ≡ₚ f e ++ in_flight f m.
Proof.
  intros Hi. unfold in_flight.
  rewrite (map_to_list_insert m i e Hi). reflexivity.
Qed.

Lemma in_flight_delete f m i e :
  m !! i = Some e -> in_flight f m ≡ₚ f e ++ in_flight f (delete i m).
Proof.
  intros Hi. unfold in_flight.
  rewrite <- (map_to_list_delete m i e Hi). reflexivity.
Qed.

Lemma in_flight_update f m i e e' :
  m !! i = Some e ->
  f e ++ in_flight f (<[i := e']> m) ≡ₚ f e' ++ in_flight f m.
Proof.
  intros Hi. rewrite (in_flight_delete f m i e Hi).
  rewrite <- (insert_delete_eq m i e').
  rewrite in_flight_insert by apply lookup_delete_eq.
  rewrite !app_assoc. apply Permutation_app_tail, Permutation_app_comm.
Qed.

Lemma in_flight_same f m i e e' :
  m !! i = Some e -> f e' = f e ->
  in_flight f (<[i := e']> m) ≡ₚ in_flight f m.
Proof.
  intros Hi E. pose proof (in_flight_update f m i e e' Hi) as H.
  rewrite E in H. now apply Permutation_app_inv_l in H.
Qed.

(** *** Tickets stay unique *)

Lemma unique_update tk m i c p c' p' :
  m !! i = Some (c, p) ->
  (forall k, tk (phase_of p') = Some k ->
     tk (phase_of p) = Some k \/
     forall j cj pj, m !! j = Some (cj, pj) -> tk (phase_of pj) <> Some k) ->
  unique_tickets tk m -> unique_tickets tk (<[i := (c', p')]> m).
Proof.
  intros Hi Hnew U a b ca pa cb pb k Ha Hb Ta Tb.
  apply lookup_insert_Some in Ha as [[<- Ea]|[Na Ha]];
    apply lookup_insert_Some in Hb as [[<- Eb]|[Nb Hb]]; try reflexivity.
  - inversion Ea; subst. destruct (Hnew k Ta) as [Hold|Hfresh].
    + exact (U _ _ _ _ _ _ k Hi Hb Hold Tb).
    + exfalso. exact (Hfresh _ _ _ Hb Tb).
  - inversion Eb; subst. destruct (Hnew k Tb) as [Hold|Hfresh].
    + exact (U _ _ _ _ _ _ k Ha Hi Ta Hold).
    + exfalso. exact (Hfresh _ _ _ Ha Ta).
  - exact (U _ _ _ _ _ _ k Ha Hb Ta Tb).
Qed.

Lemma unique_fresh tk m i c p :
  m !! i = None -> tk (phase_of p) = None ->
  unique_tickets tk m -> unique_tickets tk (<[i := (c, p)]> m).
Proof.
  intros Hi Hn U a b ca pa cb pb k Ha Hb Ta Tb.
  apply lookup_insert_Some in Ha as [[<- Ea]|[Na Ha]];
    apply lookup_insert_Some in Hb as [[<- Eb]|[Nb Hb]]; try reflexivity.
  - inversion Ea; subst. congruence.
  - inversion Eb; subst. congruence.
  - exact (U _ _ _ _ _ _ k Ha Hb Ta Tb).
Qed.

Lemma unique_delete tk m i :
  unique_tickets tk m -> unique_tickets tk (delete i m).
Proof.
  intros U a b ca pa cb pb k Ha Hb Ta Tb.
  apply lookup_delete_Some in Ha as [_ Ha].
  apply lookup_delete_Some in Hb as [_ Hb].
  exact (U _ _ _ _ _ _ k Ha Hb Ta Tb).
Qed.

(** *** Steps that only change what one thread knows *)

Lemma inv_silent n σ wv done i c p p' :
  inv n σ wv done -> pool σ !! i = Some (c, p) ->
  belongs c p' ->
  phase_ok wv (shared σ) (phase_of p') ->
  wticket (phase_of p') = wticket (phase_of p) ->
  rticket (phase_of p') = rticket (phase_of p) ->
  (forall t, unread (phase_of p') t <-> unread (phase_of p) t) ->
  (forall k v, phase_of p = WBuilt k v -> phase_of p' = WBuilt k v) ->
  (forall k x, phase_of p = RFreed k x -> phase_of p' = RFreed k x) ->
  pending_ins (c, p') = pending_ins (c, p) ->
  pending_rem (c, p') = pending_rem (c, p) ->
  n + 1 <= ticket_limit ->
  inv (n + 1) (System (shared σ) (<[i := (c, p')]> (pool σ)) (history σ)) wv done.
Proof.
  intros I Hi Hb Hok Hw Hr Hu HW HR Hpi Hpr Hn.
  destruct I as [Ic Il Ih It In Ibel Iph Iwu Iru Iwr Ird Iev Iod Idn Idv Idx Idc Iins Irem].
  split; cbn [shared pool history]; try assumption.
  - lia.
  - intros j cj pj Hj. apply lookup_insert_Some in Hj as [[<- E]|[Nj Hj]].
    + injection E as <- <-. assumption.
    + eauto.
  - intros j cj pj Hj. apply lookup_insert_Some in Hj as [[<- E]|[Nj Hj]].
    + injection E as <- <-. assumption.
    + eauto.
  - eapply unique_update; [exact Hi| |exact Iwu]. intros k Hk. left. congruence.
  - eapply unique_update; [exact Hi| |exact Iru]. intros k Hk. left. congruence.
  - intros k Hk E. destruct (Iev k Hk E) as [?|B]; [now left|right].
    eapply busy_insert_keep; [exact Hi| |exact B].
    intros [v Ev]. exists v. now apply HW.
  - intros k Hk E. destruct (Iod k Hk E) as [?|B]; [now left|right].
    eapply busy_insert_keep; [exact Hi| |exact B].
    intros [x Ex]. exists x. now apply HR.
  - intros j cj pj t Hj Ht. apply lookup_insert_Some in Hj as [[<- E]|[Nj Hj]].
    + injection E as <- <-. apply (Idx i c p t Hi). now apply Hu.
    + eauto.
  - intros t Ht. destruct (Idc t Ht) as [?|B]; [now left|right].
    eapply busy_insert_keep; [exact Hi| |exact B]. intros U. now apply Hu.
  - unfold inserted_in in *. cbn [history].
    rewrite (in_flight_same pending_ins _ i (c, p) (c, p') Hi Hpi). exact Iins.
  - unfold removed_in in *. cbn [history].
    rewrite (in_flight_same pending_rem _ i (c, p) (c, p') Hi Hpr). exact Irem.
Qed.

(** *** What the other threads know stays true *)

Lemma phase_ok_frame wv wv' q q' ph :
  (forall k, slot_of q' k = slot_of q k) ->
  Queue.head q <= Queue.head q' -> Queue.tail q <= Queue.tail q' ->
  (forall k x, wv !! k = Some x -> wv' !! k = Some x) ->
  phase_ok wv q ph -> phase_ok wv' q' ph.
Proof.
  intros Hs Hh Ht Hwv.
  destruct ph; cbn [phase_ok]; unfold turn_at, store_at; rewrite ?Hs;
    intros H; try exact I.
  - lia.
  - lia.
  - destruct H as (? & ?). split; [lia|assumption].
  - destruct H as (? & ?). split; [lia|assumption].
  - destruct H as (? & ? & ?). split; [lia|]. split; [auto|assumption].
  - destruct H as (? & ? & ?). split; [lia|]. split; [auto|assumption].
  - destruct H as (? & ? & ?). split; [lia|]. split; [auto|assumption].
  - destruct H as (? & ?). split; [lia|assumption].
  - destruct H as (? & ? & x & ? & ?). split; [lia|]. split; [assumption|].
    exists x. split; [assumption|auto].
  - destruct H as (? & ? & ? & ?). split; [lia|]. repeat split; auto.
  - destruct H as (? & ? & ? & ?). split; [lia|]. repeat split; auto.
Qed.

Lemma wticket_lt wv q ph k :
  phase_ok wv q ph -> wticket ph = Some k -> 0 <= k < Queue.head q.
Proof.
  destruct ph; cbn [phase_ok wticket]; intros H E; try discriminate;
    injection E as <-; tauto.
Qed.

Lemma rticket_lt wv q ph k :
  phase_ok wv q ph -> rticket ph = Some k -> 0 <= k < Queue.tail q.
Proof.
  destruct ph; cbn [phase_ok rticket]; intros H E; try discriminate;
    injection E as <-; tauto.
Qed.

Lemma unread_rticket ph t : unread ph t -> rticket ph = Some t.
Proof. intros [->| ->]; reflexivity. Qed.

(** *** A writer takes a ticket *)

Lemma inv_claim_write n σ wv done i c p p' v :
  inv n σ wv done -> pool σ !! i = Some (c, p) ->
  wticket (phase_of p) = None -> rticket (phase_of p) = None ->
  belongs c p' ->
  phase_ok (wv ++ [v])
    (Queue.set_head (shared σ) (Queue.head (shared σ) + 1)) (phase_of p') ->
  wticket (phase_of p') = Some (Queue.head (shared σ)) ->
  rticket (phase_of p') = None ->
  pending_ins (c, p) = [] -> pending_ins (c, p') = [v] ->
  pending_rem (c, p') = pending_rem (c, p) ->
  n + 1 <= ticket_limit ->
  inv (n + 1)
    (System (Queue.set_head (shared σ) (Queue.head (shared σ) + 1))
       (<[i := (c, p')]> (pool σ)) (history σ))
    (wv ++ [v]) done.
Proof.
  intros I Hi Hw Hr Hb Hok Hw' Hr' Hpi Hpi' Hpr Hn.
  destruct I as [Ic Il Ih It In Ibel Iph Iwu Iru Iwr Ird Iev Iod Idn Idv Idx Idc Iins Irem].
  assert (Hext : forall k x, wv !! k = Some x -> (wv ++ [v]) !! k = Some x)
    by (intros; now apply lookup_app_l_Some).
  split; cbn [shared pool history Queue.set_head Queue.max_capacity Queue.slots
                Queue.head Queue.tail]; try assumption.
  - rewrite length_app. simpl. lia.
  - lia.
  - intros j cj pj Hj. apply lookup_insert_Some in Hj as [[<- E]|[Nj Hj]].
    + injection E as <- <-. assumption.
    + eauto.
  - intros j cj pj Hj. apply lookup_insert_Some in Hj as [[<- E]|[Nj Hj]].
    + injection E as <- <-. assumption.
    + eapply phase_ok_frame; [| | | |eapply Iph; exact Hj]; simpl; auto; lia.
  - eapply unique_update; [exact Hi| |exact Iwu]. intros k Hk. right.
    intros j cj pj Hj Hkj. rewrite Hw' in Hk. injection Hk as <-.
    pose proof (wticket_lt _ _ _ _ (Iph _ _ _ Hj) Hkj). lia.
  - eapply unique_update; [exact Hi| |exact Iru]. intros k Hk. congruence.
  - intros k Hk E. specialize (Iwr k Hk E). lia.
  - intros k Hk E. destruct (Iev k Hk E) as [?|B]; [now left|right].
    eapply busy_insert_other; [exact Hi| |exact B].
    intros [u Eu]. rewrite Eu in Hw. discriminate.
  - intros k Hk E. destruct (Iod k Hk E) as [(x & ? & ?)|B].
    + left. exists x. auto.
    + right. eapply busy_insert_other; [exact Hi| |exact B].
      intros [u Eu]. rewrite Eu in Hr. discriminate.
  - intros t x Htx. destruct (Idv t x Htx). auto.
  - intros j cj pj t Hj Ht. apply lookup_insert_Some in Hj as [[<- E]|[Nj Hj]].
    + injection E as <- <-. apply unread_rticket in Ht. congruence.
    + eauto.
  - intros t Ht. destruct (Idc t Ht) as [?|B]; [now left|right].
    eapply busy_insert_other; [exact Hi| |exact B].
    intros U. apply unread_rticket in U. congruence.
  - unfold inserted_in in *. cbn [history].
    pose proof (in_flight_update pending_ins _ i (c, p) (c, p') Hi) as H.
    rewrite Hpi, Hpi' in H. cbn [app] in H. rewrite H, Iins.
    rewrite <- app_assoc. apply Permutation_app_head.
    change (v :: ?l) with ([v] ++ l). apply Permutation_app_comm.
  - unfold removed_in in *. cbn [history].
    rewrite (in_flight_same pending_rem _ i (c, p) (c, p') Hi Hpr). exact Irem.
Qed.

(** *** A reader takes a ticket *)

Lemma inv_claim_read n σ wv done i c p p' :
  inv n σ wv done -> pool σ !! i = Some (c, p) ->
  wticket (phase_of p) = None -> rticket (phase_of p) = None ->
  belongs c p' ->
  phase_ok wv (Queue.set_tail (shared σ) (Queue.tail (shared σ) + 1)) (phase_of p') ->
  wticket (phase_of p') = None ->
  unread (phase_of p') (Queue.tail (shared σ)) ->
  pending_ins (c, p') = pending_ins (c, p) ->
  pending_rem (c, p') = pending_rem (c, p) ->
  n + 1 <= ticket_limit ->
  inv (n + 1)
    (System (Queue.set_tail (shared σ) (Queue.tail (shared σ) + 1))
       (<[i := (c, p')]> (pool σ)) (history σ))
    wv done.
Proof.
  intros I Hi Hw Hr Hb Hok Hw' Hu Hpi Hpr Hn.
  destruct I as [Ic Il Ih It In Ibel Iph Iwu Iru Iwr Ird Iev Iod Idn Idv Idx Idc Iins Irem].
  pose proof (unread_rticket _ _ Hu) as Hr'.
  split; cbn [shared pool history Queue.set_tail Queue.max_capacity Queue.slots
                Queue.head Queue.tail]; try assumption.
  - lia.
  - lia.
  - intros j cj pj Hj. apply lookup_insert_Some in Hj as [[<- E]|[Nj Hj]].
    + injection E as <- <-. assumption.
    + eauto.
  - intros j cj pj Hj. apply lookup_insert_Some in Hj as [[<- E]|[Nj Hj]].
    + injection E as <- <-. assumption.
    + eapply phase_ok_frame; [| | | |eapply Iph; exact Hj]; simpl; auto; lia.
  - eapply unique_update; [exact Hi| |exact Iwu]. intros k Hk. congruence.
  - eapply unique_update; [exact Hi| |exact Iru]. intros k Hk. right.
    intros j cj pj Hj Hkj. rewrite Hr' in Hk. injection Hk as <-.
    pose proof (rticket_lt _ _ _ _ (Iph _ _ _ Hj) Hkj). lia.
  - intros k Hk E. specialize (Ird k Hk E). lia.
  - intros k Hk E. destruct (Iev k Hk E) as [?|B]; [now left|right].
    eapply busy_insert_other; [exact Hi| |exact B].
    intros [u Eu]. rewrite Eu in Hw. discriminate.
  - intros k Hk E. destruct (Iod k Hk E) as [?|B]; [now left|right].
    eapply busy_insert_other; [exact Hi| |exact B].
    intros [u Eu]. rewrite Eu in Hr. discriminate.
  - intros t x Htx. destruct (Idv t x Htx). split; [lia|assumption].
  - intros j cj pj t Hj Ht. apply lookup_insert_Some in Hj as [[<- E]|[Nj Hj]].
    + injection E as <- <-. apply unread_rticket in Ht.
      rewrite Hr' in Ht. injection Ht as <-.
      intros Hin. apply list_elem_of_fmap in Hin as ([t' x] & Et & Hin).
      simpl in Et. subst t'. destruct (Idv _ _ Hin). lia.
    + eauto.
  - intros t Ht. destruct (Z.eq_dec t (Queue.tail (shared σ))) as [->|Hne].
    + right. now apply busy_insert_self.
    + destruct (Idc t ltac:(lia)) as [?|B]; [now left|right].
      eapply busy_insert_other; [exact Hi| |exact B].
      intros U. apply unread_rticket in U. congruence.
  - unfold inserted_in in *. cbn [history].
    rewrite (in_flight_same pending_ins _ i (c, p) (c, p') Hi Hpi). exact Iins.
  - unfold removed_in in *. cbn [history].
    rewrite (in_flight_same pending_rem _ i (c, p) (c, p') Hi Hpr). exact Irem.
Qed.

(** *** Writing to the slot of a ticket *)

Lemma slot_of_congr q k h : k mod C = h mod C -> slot_of q k = slot_of q h.
Proof. intros E. unfold slot_of. now rewrite E. Qed.

Lemma turn_at_congr q k h : k mod C = h mod C -> turn_at q k = turn_at q h.
Proof. intros E. unfold turn_at. now rewrite (slot_of_congr q k h E). Qed.

Lemma store_at_congr q k h : k mod C = h mod C -> store_at q k = store_at q h.
Proof. intros E. unfold store_at. now rewrite (slot_of_congr q k h E). Qed.

Lemma turn_at_set_same q h k s :
  Z.of_nat (length (Queue.slots q)) = C + 1 -> k mod C = h mod C ->
  turn_at (Queue.set_slot q (h mod C) s) k = Slot.turn s.
Proof. intros. unfold turn_at. now rewrite slot_of_set_slot_same. Qed.

Lemma store_at_set_same q h k s :
  Z.of_nat (length (Queue.slots q)) = C + 1 -> k mod C = h mod C ->
  store_at (Queue.set_slot q (h mod C) s) k = Slot.storage s.
Proof. intros. unfold store_at. now rewrite slot_of_set_slot_same. Qed.

Lemma turn_at_set_other q h k s :
  k mod C <> h mod C -> turn_at (Queue.set_slot q (h mod C) s) k = turn_at q k.
Proof. intros. unfold turn_at. now rewrite slot_of_set_slot_other. Qed.

Lemma store_at_set_other q h k s :
  k mod C <> h mod C -> store_at (Queue.set_slot q (h mod C) s) k = store_at q k.
Proof. intros. unfold store_at. now rewrite slot_of_set_slot_other. Qed.
End Invariant.

(** Splits conjunctions and existentials among the hypotheses. *)
Ltac unpack :=
  repeat match goal with
         | H : _ /\ _ |- _ => destruct H
         | H : exists _, _ |- _ => destruct H
         end.

Section Preservation.
Context {T : Type}.
Variable C : Z.
Hypothesis C_pos : 0 < C.
Implicit Types (q : Queue.queue T) (p : Queue.pc T) (c : call (T:=T))
  (σ : system (T:=T)) (wv : list T) (ph : phase (T:=T))
  (m : gmap nat (call (T:=T) * Queue.pc T)).

(** Closes a goal about the slot of another thread's ticket [k] after a
    write to the slot of [h]: either the facts carry over, or the two
    threads would hold the same ticket. *)
Local Ltac settle Hne E k h :=
  first
    [ exact I
    | assumption
    | solve [repeat split; first [assumption | lia | eauto]]
    | solve [exfalso; lia]
    | solve [exfalso; apply Hne; f_equal;
             apply (same_slot_eq _ C_pos _ _ E); lia]
    | solve [destruct (Z.eq_dec (k / C) (h / C)) as [Eg|Eg];
             [ exfalso; apply Hne; f_equal;
               apply (same_slot_eq _ C_pos _ _ E); exact Eg
             | repeat split; first [assumption | lia | eauto] ]] ].

Local Ltac other_thread Il Hne q h s' :=
  match goal with
  | |- phase_ok _ _ _ ?ph -> phase_ok _ _ _ ?ph =>
      destruct ph as [|k|k|k|k|k u|k u|k u|k|k|k u|k u];
      cbn [phase_ok wticket rticket Queue.set_slot Queue.head Queue.tail] in *;
      intros H; try exact I;
      (destruct (decide (k mod C = h mod C)) as [E|E];
       [ rewrite ?(turn_at_set_same C C_pos q h k s' Il E),
                 ?(store_at_set_same C C_pos q h k s' Il E);
         rewrite ?(turn_at_congr C q k h E), ?(store_at_congr C q k h E) in H;
         cbn [Slot.construct Slot.store_turn Slot.turn Slot.storage];
         fold (turn_at C q h); fold (store_at C q h);
         unpack; settle Hne E k h
       | rewrite ?(turn_at_set_other C C_pos q h k s' E),
                 ?(store_at_set_other C C_pos q h k s' E);
         exact H ])
  end.

Lemma phase_ok_construct wv q h v ph :
  Z.of_nat (length (Queue.slots q)) = C + 1 ->
  turn_at C q h = 2 * (h / C) -> wticket ph <> Some h ->
  phase_ok C wv q ph ->
  phase_ok C wv (Queue.set_slot q (h mod C) (Slot.construct (slot_of C q h) v)) ph.
Proof.
  intros Il Hturn Hne.
  other_thread Il Hne q h (Slot.construct (slot_of C q h) v).
Qed.

Lemma phase_ok_publish_w wv q h ph :
  Z.of_nat (length (Queue.slots q)) = C + 1 ->
  turn_at C q h = 2 * (h / C) -> wticket ph <> Some h ->
  phase_ok C wv q ph ->
  phase_ok C wv
    (Queue.set_slot q (h mod C) (Slot.store_turn (slot_of C q h) (2 * (h / C) + 1))) ph.
Proof.
  intros Il Hturn Hne.
  other_thread Il Hne q h (Slot.store_turn (slot_of C q h) (2 * (h / C) + 1)).
Qed.

Lemma phase_ok_destroy wv q t ph :
  Z.of_nat (length (Queue.slots q)) = C + 1 ->
  turn_at C q t = 2 * (t / C) + 1 -> rticket ph <> Some t ->
  phase_ok C wv q ph ->
  phase_ok C wv
    (Queue.set_slot q (t mod C) (Slot.Build (T:=T) (turn_at C q t) None)) ph.
Proof.
  intros Il Hturn Hne.
  other_thread Il Hne q t (Slot.Build (T:=T) (turn_at C q t) None).
Qed.

Lemma phase_ok_publish_r wv q t ph :
  Z.of_nat (length (Queue.slots q)) = C + 1 ->
  turn_at C q t = 2 * (t / C) + 1 -> rticket ph <> Some t ->
  phase_ok C wv q ph ->
  phase_ok C wv
    (Queue.set_slot q (t mod C) (Slot.store_turn (slot_of C q t) (2 * (t / C) + 2))) ph.
Proof.
  intros Il Hturn Hne.
  other_thread Il Hne q t (Slot.store_turn (slot_of C q t) (2 * (t / C) + 2)).
Qed.

Lemma destroy_live q t x :
  store_at C q t = Some x ->
  Slot.destroy (slot_of C q t) = Some (Slot.Build (T:=T) (turn_at C q t) None).
Proof.
  unfold store_at, turn_at, Slot.destroy. intros ->. reflexivity.
Qed.

(** Rewrites the turn and contents of ticket [k]'s slot in the goal after
    a write of [s'] to the slot of [h]; in the first case the two tickets
    share the slot. *)
Local Ltac after_write Il q h s' k E :=
  destruct (decide (k mod C = h mod C)) as [E|E];
  [ rewrite ?(turn_at_set_same C C_pos q h k s' Il E),
            ?(store_at_set_same C C_pos q h k s' Il E);
    cbn [Slot.construct Slot.store_turn Slot.turn Slot.storage];
    fold (turn_at C q h); fold (store_at C q h)
  | rewrite ?(turn_at_set_other C C_pos q h k s' E),
            ?(store_at_set_other C C_pos q h k s' E) ].

Local Ltac pool_cases Hj E Nj :=
  apply lookup_insert_Some in Hj as [[<- E]|[Nj Hj]];
  [injection E as <- <-|].

(** *** The owner of a writer ticket constructs the element *)

Lemma inv_construct n σ wv done i c p p' h v :
  inv C n σ wv done -> pool σ !! i = Some (c, p) ->
  phase_of p = WOwn h v -> phase_of p' = WBuilt h v ->
  Queue.returned p = None -> Queue.returned p' = None ->
  belongs c p' -> n + 1 <= ticket_limit ->
  inv C (n + 1)
    (System
       (Queue.set_slot (shared σ) (h mod C)
          (Slot.construct (slot_of C (shared σ) h) v))
       (<[i := (c, p')]> (pool σ)) (history σ))
    wv done.
Proof.
  intros I Hi Hp Hp' Hret Hret' Hb Hn.
  destruct I as [Ic Il Ih It In Ibel Iph Iwu Iru Iwr Ird Iev Iod Idn Idv Idx Idc Iins Irem].
  pose proof (Iph _ _ _ Hi) as Hme. rewrite Hp in Hme. cbn [phase_ok] in Hme.
  destruct Hme as (Hh & Hwv & Hturn & Hstore).
  set (q := shared σ) in *.
  split; cbn [shared pool history Queue.set_slot Queue.max_capacity Queue.slots
                Queue.head Queue.tail]; try assumption.
  - rewrite length_insert. exact Il.
  - lia.
  - intros j cj pj Hj. pool_cases Hj E Nj; eauto.
  - intros j cj pj Hj. pool_cases Hj E Nj.
    + rewrite Hp'. cbn [phase_ok]. cbn [Queue.set_slot Queue.head].
      rewrite (turn_at_set_same C C_pos q h h (Slot.construct (slot_of C q h) v) Il eq_refl),
              (store_at_set_same C C_pos q h h (Slot.construct (slot_of C q h) v) Il eq_refl).
      cbn [Slot.construct Slot.turn Slot.storage]. fold (turn_at C q h).
      auto.
    + apply phase_ok_construct; [exact Il|exact Hturn| |eapply Iph; exact Hj].
      intros Hk. apply Nj. eapply (Iwu i j); [exact Hi|exact Hj| |exact Hk].
      now rewrite Hp.
  - eapply unique_update; [exact Hi| |exact Iwu]. intros k Hk. left.
    rewrite Hp' in Hk. now rewrite Hp.
  - eapply unique_update; [exact Hi| |exact Iru]. intros k Hk. left.
    rewrite Hp' in Hk. discriminate.
  - intros k Hk. after_write Il q h (Slot.construct (slot_of C q h) v) k E; [|apply Iwr; exact Hk].
    rewrite <- (turn_at_congr C q k h E). apply Iwr; exact Hk.
  - intros k Hk. after_write Il q h (Slot.construct (slot_of C q h) v) k E; [|apply Ird; exact Hk].
    rewrite <- (turn_at_congr C q k h E). apply Ird; exact Hk.
  - intros k Hk. after_write Il q h (Slot.construct (slot_of C q h) v) k E.
    + intros Ek. right. assert (k = h) as ->
        by (apply (same_slot_eq C C_pos _ _ E); lia).
      apply busy_insert_self. exists v. exact Hp'.
    + intros Ek. destruct (Iev k Hk Ek) as [?|B]; [now left|right].
      eapply busy_insert_other; [exact Hi| |exact B].
      intros [u Eu]. rewrite Hp in Eu. discriminate.
  - intros k Hk. after_write Il q h (Slot.construct (slot_of C q h) v) k E.
    + intros Ek. exfalso. lia.
    + intros Ek. destruct (Iod k Hk Ek) as [?|B]; [now left|right].
      eapply busy_insert_other; [exact Hi| |exact B].
      intros [u Eu]. rewrite Hp in Eu. discriminate.
  - intros j cj pj t Hj Ht. pool_cases Hj E Nj.
    + rewrite Hp' in Ht. destruct Ht; discriminate.
    + eauto.
  - intros t Ht. destruct (Idc t Ht) as [?|B]; [now left|right].
    eapply busy_insert_other; [exact Hi| |exact B].
    rewrite Hp. intros [?|?]; discriminate.
  - unfold inserted_in in *. cbn [history].
    rewrite (in_flight_same pending_ins _ i (c, p) (c, p') Hi); [exact Iins|].
    unfold pending_ins. cbn [snd]. now rewrite Hret, Hret', Hp, Hp'.
  - unfold removed_in in *. cbn [history].
    rewrite (in_flight_same pending_rem _ i (c, p) (c, p') Hi); [exact Irem|].
    unfold pending_rem. cbn [snd]. now rewrite Hret, Hret', Hp, Hp'.
Qed.

Lemma returned_outside p r : Queue.returned p = Some r -> phase_of p = Outside.
Proof. destruct p; cbn; intros H; try discriminate; reflexivity. Qed.

(** *** The writer publishes the element *)

Lemma inv_publish_w n σ wv done i c p p' h v r :
  inv C n σ wv done -> pool σ !! i = Some (c, p) ->
  phase_of p = WBuilt h v ->
  Queue.returned p = None -> Queue.returned p' = Some r ->
  inserted_by (c, r) = [v] -> removed_by (c, r) = [] ->
  belongs c p' -> n + 1 <= ticket_limit ->
  inv C (n + 1)
    (System
       (Queue.set_slot (shared σ) (h mod C)
          (Slot.store_turn (slot_of C (shared σ) h) (2 * (h / C) + 1)))
       (<[i := (c, p')]> (pool σ)) (history σ))
    wv done.
Proof.
  intros I Hi Hp Hret Hret' Hins Hrem Hb Hn.
  destruct I as [Ic Il Ih It In Ibel Iph Iwu Iru Iwr Ird Iev Iod Idn Idv Idx Idc Iins Irem].
  pose proof (Iph _ _ _ Hi) as Hme. rewrite Hp in Hme. cbn [phase_ok] in Hme.
  destruct Hme as (Hh & Hwv & Hturn & Hstore).
  pose proof (returned_outside _ _ Hret') as Hp'.
  set (q := shared σ) in *.
  split; cbn [shared pool history Queue.set_slot Queue.max_capacity Queue.slots
                Queue.head Queue.tail]; try assumption.
  - rewrite length_insert. exact Il.
  - lia.
  - intros j cj pj Hj. pool_cases Hj E Nj; eauto.
  - intros j cj pj Hj. pool_cases Hj E Nj.
    + rewrite Hp'. exact I.
    + apply phase_ok_publish_w; [exact Il|exact Hturn| |eapply Iph; exact Hj].
      intros Hk. apply Nj. eapply (Iwu i j); [exact Hi|exact Hj| |exact Hk].
      now rewrite Hp.
  - eapply unique_update; [exact Hi| |exact Iwu]. intros k Hk.
    rewrite Hp' in Hk. discriminate.
  - eapply unique_update; [exact Hi| |exact Iru]. intros k Hk.
    rewrite Hp' in Hk. discriminate.
  - intros k Hk.
    after_write Il q h (Slot.store_turn (slot_of C q h) (2 * (h / C) + 1)) k E;
      [|apply Iwr; exact Hk].
    intros Ek. assert (k <= h) by (apply (same_slot_le C C_pos _ _ E); lia). lia.
  - intros k Hk.
    after_write Il q h (Slot.store_turn (slot_of C q h) (2 * (h / C) + 1)) k E;
      [|apply Ird; exact Hk].
    intros Ek. apply Ird; [exact Hk|]. rewrite (turn_at_congr C q k h E). lia.
  - intros k Hk.
    after_write Il q h (Slot.store_turn (slot_of C q h) (2 * (h / C) + 1)) k E.
    + intros Ek. exfalso. lia.
    + intros Ek. destruct (Iev k Hk Ek) as [?|B]; [now left|right].
      eapply busy_insert_other; [exact Hi| |exact B].
      intros [u Eu]. rewrite Hp in Eu. injection Eu as -> _. contradiction.
  - intros k Hk.
    after_write Il q h (Slot.store_turn (slot_of C q h) (2 * (h / C) + 1)) k E.
    + intros Ek. left. assert (k = h) as ->
        by (apply (same_slot_eq C C_pos _ _ E); lia).
      exists v. split; assumption.
    + intros Ek. destruct (Iod k Hk Ek) as [?|B]; [now left|right].
      eapply busy_insert_other; [exact Hi| |exact B].
      intros [u Eu]. rewrite Hp in Eu. discriminate.
  - intros j cj pj t Hj Ht. pool_cases Hj E Nj.
    + rewrite Hp' in Ht. destruct Ht; discriminate.
    + eauto.
  - intros t Ht. destruct (Idc t Ht) as [?|B]; [now left|right].
    eapply busy_insert_other; [exact Hi| |exact B].
    rewrite Hp. intros [?|?]; discriminate.
  - unfold inserted_in in *. cbn [history].
    rewrite (in_flight_same pending_ins _ i (c, p) (c, p') Hi); [exact Iins|].
    unfold pending_ins. cbn [fst snd]. now rewrite Hret, Hret', Hp, Hins.
  - unfold removed_in in *. cbn [history].
    rewrite (in_flight_same pending_rem _ i (c, p) (c, p') Hi); [exact Irem|].
    unfold pending_rem. cbn [fst snd]. now rewrite Hret, Hret', Hp, Hrem.
Qed.

(** *** The owner of a reader ticket moves the element out *)

Lemma inv_move n σ wv done i c p p' t x :
  inv C n σ wv done -> pool σ !! i = Some (c, p) ->
  phase_of p = ROwn t -> phase_of p' = RTook t x ->
  store_at C (shared σ) t = Some x ->
  Queue.returned p = None -> Queue.returned p' = None ->
  belongs c p' -> n + 1 <= ticket_limit ->
  inv C (n + 1)
    (System (shared σ) (<[i := (c, p')]> (pool σ)) (history σ))
    wv (done ++ [(t, x)]).
Proof.
  intros I Hi Hp Hp' Hx Hret Hret' Hb Hn.
  destruct I as [Ic Il Ih It In Ibel Iph Iwu Iru Iwr Ird Iev Iod Idn Idv Idx Idc Iins Irem].
  pose proof (Iph _ _ _ Hi) as Hme. rewrite Hp in Hme. cbn [phase_ok] in Hme.
  destruct Hme as (Ht & Hturn & x' & Hstore & Hwv).
  assert (x' = x) as -> by congruence.
  assert (Hfresh : t ∉ done.*1).
  { apply (Idx i c p t Hi). rewrite Hp. now right. }
  split; cbn [shared pool history]; try assumption.
  - lia.
  - intros j cj pj Hj. pool_cases Hj E Nj; eauto.
  - intros j cj pj Hj. pool_cases Hj E Nj; [|eauto].
    rewrite Hp'. cbn [phase_ok]. auto.
  - eapply unique_update; [exact Hi| |exact Iwu]. intros k Hk.
    rewrite Hp' in Hk. discriminate.
  - eapply unique_update; [exact Hi| |exact Iru]. intros k Hk. left.
    rewrite Hp' in Hk. now rewrite Hp.
  - intros k Hk Ek. destruct (Iev k Hk Ek) as [?|B]; [now left|right].
    eapply busy_insert_other; [exact Hi| |exact B].
    intros [u Eu]. rewrite Hp in Eu. discriminate.
  - intros k Hk Ek. destruct (Iod k Hk Ek) as [?|B]; [now left|right].
    eapply busy_insert_other; [exact Hi| |exact B].
    intros [u Eu]. rewrite Hp in Eu. discriminate.
  - rewrite fmap_app. apply NoDup_app. split; [exact Idn|]. split.
    + intros y Hy Hy'. apply list_elem_of_singleton in Hy'. simpl in Hy'.
      subst y. contradiction.
    + apply NoDup_singleton.
  - intros t0 x0 Hin. apply elem_of_app in Hin as [Hin|Hin]; [eauto|].
    apply list_elem_of_singleton in Hin. injection Hin as -> ->. auto.
  - intros j cj pj t0 Hj Hu. pool_cases Hj E Nj.
    + rewrite Hp' in Hu. destruct Hu; discriminate.
    + rewrite fmap_app. intros Hin. apply elem_of_app in Hin as [Hin|Hin].
      * exact (Idx _ _ _ _ Hj Hu Hin).
      * apply list_elem_of_singleton in Hin. simpl in Hin. subst t0.
        apply Nj. eapply (Iru i j); [exact Hi|exact Hj| |].
        -- now rewrite Hp.
        -- now apply unread_rticket.
  - intros t0 Ht0. rewrite fmap_app.
    destruct (Z.eq_dec t0 t) as [->|Hne].
    + left. apply elem_of_app. right. now apply list_elem_of_singleton.
    + destruct (Idc t0 Ht0) as [?|B].
      * left. apply elem_of_app. now left.
      * right. eapply busy_insert_other; [exact Hi| |exact B].
        rewrite Hp. intros [Eu|Eu]; [discriminate|]. injection Eu as ->.
        contradiction.
  - unfold inserted_in in *. cbn [history].
    rewrite (in_flight_same pending_ins _ i (c, p) (c, p') Hi); [exact Iins|].
    unfold pending_ins. cbn [snd]. now rewrite Hret, Hret', Hp, Hp'.
  - unfold removed_in in *. cbn [history].
    pose proof (in_flight_update pending_rem _ i (c, p) (c, p') Hi) as H.
    unfold pending_rem at 1 3 in H. cbn [snd] in H.
    rewrite Hret, Hret', Hp, Hp' in H. cbn [app] in H.
    rewrite fmap_app, H, Irem. cbn [fmap list_fmap snd].
    rewrite <- app_assoc. apply Permutation_app_head.
    change (x :: ?l) with ([x] ++ l). apply Permutation_app_comm.
Qed.

(** *** The reader destroys what is left in the slot *)

Lemma inv_destroy n σ wv done i c p p' t x :
  inv C n σ wv done -> pool σ !! i = Some (c, p) ->
  phase_of p = RTook t x -> phase_of p' = RFreed t x ->
  Queue.returned p = None -> Queue.returned p' = None ->
  belongs c p' -> n + 1 <= ticket_limit ->
  inv C (n + 1)
    (System
       (Queue.set_slot (shared σ) (t mod C)
          (Slot.Build (T:=T) (turn_at C (shared σ) t) None))
       (<[i := (c, p')]> (pool σ)) (history σ))
    wv done.
Proof.
  intros I Hi Hp Hp' Hret Hret' Hb Hn.
  destruct I as [Ic Il Ih It In Ibel Iph Iwu Iru Iwr Ird Iev Iod Idn Idv Idx Idc Iins Irem].
  pose proof (Iph _ _ _ Hi) as Hme. rewrite Hp in Hme. cbn [phase_ok] in Hme.
  destruct Hme as (Ht & Hturn & Hstore & Hwv).
  set (q := shared σ) in *.
  split; cbn [shared pool history Queue.set_slot Queue.max_capacity Queue.slots
                Queue.head Queue.tail]; try assumption.
  - rewrite length_insert. exact Il.
  - lia.
  - intros j cj pj Hj. pool_cases Hj E Nj; eauto.
  - intros j cj pj Hj. pool_cases Hj E Nj.
    + rewrite Hp'. cbn [phase_ok]. cbn [Queue.set_slot Queue.tail].
      rewrite (turn_at_set_same C C_pos q t t _ Il eq_refl),
              (store_at_set_same C C_pos q t t _ Il eq_refl).
      cbn [Slot.turn Slot.storage]. auto.
    + apply phase_ok_destroy; [exact Il|exact Hturn| |eapply Iph; exact Hj].
      intros Hk. apply Nj. eapply (Iru i j); [exact Hi|exact Hj| |exact Hk].
      now rewrite Hp.
  - eapply unique_update; [exact Hi| |exact Iwu]. intros k Hk.
    rewrite Hp' in Hk. discriminate.
  - eapply unique_update; [exact Hi| |exact Iru]. intros k Hk. left.
    rewrite Hp' in Hk. now rewrite Hp.
  - intros k Hk.
    after_write Il q t (Slot.Build (T:=T) (turn_at C q t) None) k E;
      [|apply Iwr; exact Hk].
    rewrite <- (turn_at_congr C q k t E). apply Iwr; exact Hk.
  - intros k Hk.
    after_write Il q t (Slot.Build (T:=T) (turn_at C q t) None) k E;
      [|apply Ird; exact Hk].
    rewrite <- (turn_at_congr C q k t E). apply Ird; exact Hk.
  - intros k Hk.
    after_write Il q t (Slot.Build (T:=T) (turn_at C q t) None) k E.
    + intros Ek. now left.
    + intros Ek. destruct (Iev k Hk Ek) as [?|B]; [now left|right].
      eapply busy_insert_other; [exact Hi| |exact B].
      intros [u Eu]. rewrite Hp in Eu. discriminate.
  - intros k Hk.
    after_write Il q t (Slot.Build (T:=T) (turn_at C q t) None) k E.
    + intros Ek. right. assert (k = t) as ->
        by (apply (same_slot_eq C C_pos _ _ E); lia).
      apply busy_insert_self. exists x. exact Hp'.
    + intros Ek. destruct (Iod k Hk Ek) as [?|B]; [now left|right].
      eapply busy_insert_other; [exact Hi| |exact B].
      intros [u Eu]. rewrite Hp in Eu. discriminate.
  - intros j cj pj t0 Hj Hu. pool_cases Hj E Nj.
    + rewrite Hp' in Hu. destruct Hu; discriminate.
    + eauto.
  - intros t0 Ht0. destruct (Idc t0 Ht0) as [?|B]; [now left|right].
    eapply busy_insert_other; [exact Hi| |exact B].
    rewrite Hp. intros [?|?]; discriminate.
  - unfold inserted_in in *. cbn [history].
    rewrite (in_flight_same pending_ins _ i (c, p) (c, p') Hi); [exact Iins|].
    unfold pending_ins. cbn [snd]. now rewrite Hret, Hret', Hp, Hp'.
  - unfold removed_in in *. cbn [history].
    rewrite (in_flight_same pending_rem _ i (c, p) (c, p') Hi); [exact Irem|].
    unfold pending_rem. cbn [snd]. now rewrite Hret, Hret', Hp, Hp'.
Qed.

(** *** The reader hands the slot to the next writer *)

Lemma inv_publish_r n σ wv done i c p p' t x r :
  inv C n σ wv done -> pool σ !! i = Some (c, p) ->
  phase_of p = RFreed t x ->
  Queue.returned p = None -> Queue.returned p' = Some r ->
  inserted_by (c, r) = [] -> removed_by (c, r) = [x] ->
  belongs c p' -> n + 1 <= ticket_limit ->
  inv C (n + 1)
    (System
       (Queue.set_slot (shared σ) (t mod C)
          (Slot.store_turn (slot_of C (shared σ) t) (2 * (t / C) + 2)))
       (<[i := (c, p')]> (pool σ)) (history σ))
    wv done.
Proof.
  intros I Hi Hp Hret Hret' Hins Hrem Hb Hn.
  destruct I as [Ic Il Ih It In Ibel Iph Iwu Iru Iwr Ird Iev Iod Idn Idv Idx Idc Iins Irem].
  pose proof (Iph _ _ _ Hi) as Hme. rewrite Hp in Hme. cbn [phase_ok] in Hme.
  destruct Hme as (Ht & Hturn & Hstore & Hwv).
  pose proof (returned_outside _ _ Hret') as Hp'.
  set (q := shared σ) in *.
  split; cbn [shared pool history Queue.set_slot Queue.max_capacity Queue.slots
                Queue.head Queue.tail]; try assumption.
  - rewrite length_insert. exact Il.
  - lia.
  - intros j cj pj Hj. pool_cases Hj E Nj; eauto.
  - intros j cj pj Hj. pool_cases Hj E Nj.
    + rewrite Hp'. exact I.
    + apply phase_ok_publish_r; [exact Il|exact Hturn| |eapply Iph; exact Hj].
      intros Hk. apply Nj. eapply (Iru i j); [exact Hi|exact Hj| |exact Hk].
      now rewrite Hp.
  - eapply unique_update; [exact Hi| |exact Iwu]. intros k Hk.
    rewrite Hp' in Hk. discriminate.
  - eapply unique_update; [exact Hi| |exact Iru]. intros k Hk.
    rewrite Hp' in Hk. discriminate.
  - intros k Hk.
    after_write Il q t (Slot.store_turn (slot_of C q t) (2 * (t / C) + 2)) k E;
      [|apply Iwr; exact Hk].
    intros Ek. apply Iwr; [exact Hk|]. rewrite (turn_at_congr C q k t E). lia.
  - intros k Hk.
    after_write Il q t (Slot.store_turn (slot_of C q t) (2 * (t / C) + 2)) k E;
      [|apply Ird; exact Hk].
    intros Ek. assert (k <= t) by (apply (same_slot_le C C_pos _ _ E); lia). lia.
  - intros k Hk.
    after_write Il q t (Slot.store_turn (slot_of C q t) (2 * (t / C) + 2)) k E.
    + intros Ek. now left.
    + intros Ek. destruct (Iev k Hk Ek) as [?|B]; [now left|right].
      eapply busy_insert_other; [exact Hi| |exact B].
      intros [u Eu]. rewrite Hp in Eu. discriminate.
  - intros k Hk.
    after_write Il q t (Slot.store_turn (slot_of C q t) (2 * (t / C) + 2)) k E.
    + intros Ek. exfalso. lia.
    + intros Ek. destruct (Iod k Hk Ek) as [?|B]; [now left|right].
      eapply busy_insert_other; [exact Hi| |exact B].
      intros [u Eu]. rewrite Hp in Eu. injection Eu as -> _. contradiction.
  - intros j cj pj t0 Hj Hu. pool_cases Hj E Nj.
    + rewrite Hp' in Hu. destruct Hu; discriminate.
    + eauto.
  - intros t0 Ht0. destruct (Idc t0 Ht0) as [?|B]; [now left|right].
    eapply busy_insert_other; [exact Hi| |exact B].
    rewrite Hp. intros [?|?]; discriminate.
  - unfold inserted_in in *. cbn [history].
    rewrite (in_flight_same pending_ins _ i (c, p) (c, p') Hi); [exact Iins|].
    unfold pending_ins. cbn [fst snd]. now rewrite Hret, Hret', Hp, Hins.
  - unfold removed_in in *. cbn [history].
    rewrite (in_flight_same pending_rem _ i (c, p) (c, p') Hi); [exact Irem|].
    unfold pending_rem. cbn [fst snd]. now rewrite Hret, Hret', Hp, Hrem.
Qed.

(** *** Entering and leaving a call *)

Lemma entry_outside c : phase_of (entry c) = Outside.
Proof. destruct c; reflexivity. Qed.

Lemma entry_running c : Queue.returned (entry c) = None.
Proof. destruct c; reflexivity. Qed.

Lemma belongs_entry c : belongs c (entry c).
Proof. destruct c; reflexivity. Qed.

Lemma inv_call n σ wv done i c :
  inv C n σ wv done -> pool σ !! i = None -> n + 1 <= ticket_limit ->
  inv C (n + 1)
    (System (shared σ) (<[i := (c, entry c)]> (pool σ)) (history σ)) wv done.
Proof.
  intros I Hi Hn.
  destruct I as [Ic Il Ih It In Ibel Iph Iwu Iru Iwr Ird Iev Iod Idn Idv Idx Idc Iins Irem].
  assert (Hlk : forall j cj pj,
             <[i := (c, entry c)]> (pool σ) !! j = Some (cj, pj) ->
             (pj = entry c /\ cj = c) \/ pool σ !! j = Some (cj, pj)).
  { intros j cj pj Hj. apply lookup_insert_Some in Hj as [[_ E]|[_ Hj]];
      [left; injection E as <- <-; auto | now right]. }
  split; cbn [shared pool history]; try assumption.
  - lia.
  - intros j cj pj Hj. destruct (Hlk _ _ _ Hj) as [[-> ->]|Hj'];
      [apply belongs_entry | eauto].
  - intros j cj pj Hj. destruct (Hlk _ _ _ Hj) as [[-> ->]|Hj'];
      [rewrite entry_outside; exact I | eauto].
  - apply unique_fresh; [exact Hi|now rewrite entry_outside|exact Iwu].
  - apply unique_fresh; [exact Hi|now rewrite entry_outside|exact Iru].
  - intros k Hk Ek. destruct (Iev k Hk Ek) as [?|B]; [now left|right].
    now apply busy_insert_fresh.
  - intros k Hk Ek. destruct (Iod k Hk Ek) as [?|B]; [now left|right].
    now apply busy_insert_fresh.
  - intros j cj pj t Hj Hu. destruct (Hlk _ _ _ Hj) as [[-> ->]|Hj'].
    + rewrite entry_outside in Hu. destruct Hu; discriminate.
    + eauto.
  - intros t Ht. destruct (Idc t Ht) as [?|B]; [now left|right].
    now apply busy_insert_fresh.
  - unfold inserted_in in *. cbn [history].
    rewrite in_flight_insert by exact Hi. unfold pending_ins at 1. cbn [snd].
    rewrite entry_running, entry_outside. exact Iins.
  - unfold removed_in in *. cbn [history].
    rewrite in_flight_insert by exact Hi. unfold pending_rem at 1. cbn [snd].
    rewrite entry_running, entry_outside. exact Irem.
Qed.

Lemma inv_return n σ wv done i c p r :
  inv C n σ wv done -> pool σ !! i = Some (c, p) ->
  Queue.returned p = Some r -> n + 1 <= ticket_limit ->
  inv C (n + 1)
    (System (shared σ) (delete i (pool σ)) (history σ ++ [(i, (c, r))])) wv done.
Proof.
  intros I Hi Hret Hn.
  destruct I as [Ic Il Ih It In Ibel Iph Iwu Iru Iwr Ird Iev Iod Idn Idv Idx Idc Iins Irem].
  pose proof (returned_outside _ _ Hret) as Hp.
  assert (Hlk : forall j cj pj,
             delete i (pool σ) !! j = Some (cj, pj) -> pool σ !! j = Some (cj, pj)).
  { intros j cj pj Hj. now apply lookup_delete_Some in Hj as [_ Hj]. }
  split; cbn [shared pool history]; try assumption.
  - lia.
  - intros j cj pj Hj. eauto.
  - intros j cj pj Hj. eauto.
  - now apply unique_delete.
  - now apply unique_delete.
  - intros k Hk Ek. destruct (Iev k Hk Ek) as [?|B]; [now left|right].
    eapply busy_delete; [exact Hi| |exact B].
    intros [u Eu]. rewrite Hp in Eu. discriminate.
  - intros k Hk Ek. destruct (Iod k Hk Ek) as [?|B]; [now left|right].
    eapply busy_delete; [exact Hi| |exact B].
    intros [u Eu]. rewrite Hp in Eu. discriminate.
  - intros j cj pj t Hj Hu. eauto.
  - intros t Ht. destruct (Idc t Ht) as [?|B]; [now left|right].
    eapply busy_delete; [exact Hi| |exact B].
    rewrite Hp. intros [?|?]; discriminate.
  - unfold inserted_in, inserted in *. cbn [history].
    rewrite !fmap_app, concat_app. cbn [fmap list_fmap snd concat].
    rewrite app_nil_r, Iins, <- app_assoc. apply Permutation_app_head.
    rewrite (in_flight_delete pending_ins _ i (c, p) Hi).
    unfold pending_ins at 1. cbn [fst snd]. now rewrite Hret.
  - unfold removed_in, removed in *. cbn [history].
    rewrite !fmap_app, concat_app. cbn [fmap list_fmap snd concat].
    rewrite app_nil_r, Irem, <- app_assoc. apply Permutation_app_head.
    rewrite (in_flight_delete pending_rem _ i (c, p) Hi).
    unfold pending_rem at 1. cbn [fst snd]. now rewrite Hret.
Qed.

(** *** Facts a thread reads off the shared state *)

Lemma unclaimed_head_turn n σ wv done :
  inv C n σ wv done ->
  turn_at C (shared σ) (Queue.head (shared σ))
  <= 2 * (Queue.head (shared σ) / C).
Proof.
  intros I. pose proof (inv_head C _ _ _ _ I) as Ih.
  destruct (Z_le_gt_dec (turn_at C (shared σ) (Queue.head (shared σ)))
              (2 * (Queue.head (shared σ) / C))) as [|Hgt]; [assumption|].
  pose proof (inv_written C _ _ _ _ I (Queue.head (shared σ)) ltac:(lia) ltac:(lia)).
  lia.
Qed.

Lemma unclaimed_tail_turn n σ wv done :
  inv C n σ wv done ->
  turn_at C (shared σ) (Queue.tail (shared σ))
  <= 2 * (Queue.tail (shared σ) / C) + 1.
Proof.
  intros I. pose proof (inv_tail C _ _ _ _ I) as It.
  destruct (Z_le_gt_dec (turn_at C (shared σ) (Queue.tail (shared σ)))
              (2 * (Queue.tail (shared σ) / C) + 1)) as [|Hgt]; [assumption|].
  pose proof (inv_read C _ _ _ _ I (Queue.tail (shared σ)) ltac:(lia) ltac:(lia)).
  lia.
Qed.

(** A slot at the even turn of ticket [h] is empty unless a thread other
    than the one asking has built an element in it. *)
Lemma even_slot_empty n σ wv done h :
  inv C n σ wv done -> 0 <= h ->
  turn_at C (shared σ) h = 2 * (h / C) ->
  (forall j cj pj u, pool σ !! j = Some (cj, pj) -> phase_of pj <> WBuilt h u) ->
  store_at C (shared σ) h = None.
Proof.
  intros I Hh Hturn Hno.
  destruct (inv_even C _ _ _ _ I h Hh Hturn) as [?|(j & cj & pj & Hj & u & Eu)];
    [assumption|].
  exfalso. exact (Hno _ _ _ _ Hj Eu).
Qed.

Lemma odd_slot_full n σ wv done t :
  inv C n σ wv done -> 0 <= t ->
  turn_at C (shared σ) t = 2 * (t / C) + 1 ->
  (forall j cj pj u, pool σ !! j = Some (cj, pj) -> phase_of pj <> RFreed t u) ->
  exists x, store_at C (shared σ) t = Some x /\ wv !! Z.to_nat t = Some x.
Proof.
  intros I Ht Hturn Hno.
  destruct (inv_odd C _ _ _ _ I t Ht Hturn) as [?|(j & cj & pj & Hj & u & Eu)];
    [assumption|].
  exfalso. exact (Hno _ _ _ _ Hj Eu).
Qed.

Lemma sole_writer n σ wv done i c p h :
  inv C n σ wv done -> pool σ !! i = Some (c, p) ->
  wticket (phase_of p) = Some h ->
  (forall u, phase_of p <> WBuilt h u) ->
  forall j cj pj u, pool σ !! j = Some (cj, pj) -> phase_of pj <> WBuilt h u.
Proof.
  intros I Hi Hw Hno j cj pj u Hj Eu.
  assert (i = j) as <-.
  { eapply (inv_wuniq C _ _ _ _ I i j); [exact Hi|exact Hj|exact Hw|].
    now rewrite Eu. }
  rewrite Hi in Hj. injection Hj as <- <-. exact (Hno u Eu).
Qed.

Lemma sole_reader n σ wv done i c p t :
  inv C n σ wv done -> pool σ !! i = Some (c, p) ->
  rticket (phase_of p) = Some t ->
  (forall u, phase_of p <> RFreed t u) ->
  forall j cj pj u, pool σ !! j = Some (cj, pj) -> phase_of pj <> RFreed t u.
Proof.
  intros I Hi Hw Hno j cj pj u Hj Eu.
  assert (i = j) as <-.
  { eapply (inv_runiq C _ _ _ _ I i j); [exact Hi|exact Hj|exact Hw|].
    now rewrite Eu. }
  rewrite Hi in Hj. injection Hj as <- <-. exact (Hno u Eu).
Qed.

Lemma no_writer_at_head n σ wv done :
  inv C n σ wv done ->
  forall j cj pj u, pool σ !! j = Some (cj, pj) ->
                    phase_of pj <> WBuilt (Queue.head (shared σ)) u.
Proof.
  intros I j cj pj u Hj Eu.
  pose proof (inv_phase C _ _ _ _ I _ _ _ Hj) as Hok.
  rewrite Eu in Hok. cbn [phase_ok] in Hok. lia.
Qed.

Lemma no_reader_at_tail n σ wv done :
  inv C n σ wv done ->
  forall j cj pj u, pool σ !! j = Some (cj, pj) ->
                    phase_of pj <> RFreed (Queue.tail (shared σ)) u.
Proof.
  intros I j cj pj u Hj Eu.
  pose proof (inv_phase C _ _ _ _ I _ _ _ Hj) as Hok.
  rewrite Eu in Hok. cbn [phase_ok] in Hok. lia.
Qed.
End Preservation.

Section Dispatch.
Context {T : Type}.
Variable C : Z.
Hypothesis C_pos : 0 < C.
Implicit Types (q : Queue.queue T) (p : Queue.pc T) (c : call (T:=T))
  (σ : system (T:=T)) (wv : list T).

Lemma snoc_lookup wv (v : T) : (wv ++ [v]) !! Z.to_nat (Z.of_nat (length wv)) = Some v.
Proof. rewrite Nat2Z.id. now apply list_lookup_middle. Qed.

(** A call never leaves its own code. *)
Lemma belongs_step c p q p' q' :
  belongs c p -> Queue.step p q = Some (p', q') -> belongs c p'.
Proof.
  intros Hb Hs.
  destruct p; destruct c; cbn [belongs] in Hb; try contradiction;
    cbn [Queue.step] in Hs;
    repeat match type of Hs with
           | context [?m ≫= _] =>
               let E := fresh in destruct m as [[? ?]|] eqn:E;
               cbn [mbind option_bind] in Hs
           | context [?m ≫= _] =>
               let E := fresh in destruct m eqn:E;
               cbn [mbind option_bind] in Hs
           | context [if ?b then _ else _] => destruct b
           end;
    try discriminate; injection Hs as <- <-; cbn [belongs]; auto.
Qed.

Lemma inserted_by_void c v h :
  belongs c (Queue.EmStore v h) -> inserted_by (c, Queue.RVoid) = [v].
Proof. destruct c; cbn; intros H; try contradiction; now subst. Qed.

Lemma inserted_by_true c v h :
  belongs c (Queue.TeStore v h) -> inserted_by (c, Queue.RBool true) = [v].
Proof. destruct c; cbn; intros H; try contradiction; now subst. Qed.

Lemma inserted_by_false c : inserted_by (c, Queue.RBool false) = [].
Proof. destruct c; reflexivity. Qed.

Lemma inserted_by_value c x : inserted_by (c, Queue.RValue x) = [].
Proof. destruct c; reflexivity. Qed.

Lemma inserted_by_optional c o : inserted_by (c, Queue.ROptional o) = [].
Proof. destruct c; reflexivity. Qed.

Lemma removed_by_void c : removed_by (c, Queue.RVoid) = [].
Proof. destruct c; reflexivity. Qed.

Lemma removed_by_bool c b : removed_by (c, Queue.RBool b) = [].
Proof. destruct c; reflexivity. Qed.

Lemma removed_by_value c t x :
  belongs c (Queue.PopStore t x) -> removed_by (c, Queue.RValue x) = [x].
Proof. destruct c; cbn; intros H; try contradiction; reflexivity. Qed.

Lemma removed_by_some c t x :
  belongs c (Queue.TpStore t x) -> removed_by (c, Queue.ROptional (Some x)) = [x].
Proof. destruct c; cbn; intros H; try contradiction; reflexivity. Qed.

Lemma removed_by_none c : removed_by (c, Queue.ROptional None) = [].
Proof. destruct c; reflexivity. Qed.

(** Side conditions of [inv_silent] when neither phase holds a ticket. *)
Local Ltac no_ticket :=
  first
    [ solve [intros t; split; intros [H|H]; discriminate H]
    | solve [intros k u H; discriminate H] ].

(** The elements of the writer tickets, and the reader tickets served,
    after a step from program point [p]. *)
Definition next_wv p q wv : list T :=
  match p with
  | Queue.EmFetchAdd v => wv ++ [v]
  | Queue.TeCas v h => if Queue.head q =? h then wv ++ [v] else wv
  | _ => wv
  end.

Definition next_done p q (done : list (Z * T)) : list (Z * T) :=
  match p with
  | Queue.PopMove t | Queue.TpMove t =>
      match store_at C q t with
      | Some x => done ++ [(t, x)]
      | None => done
      end
  | _ => done
  end.

Lemma inv_run n σ wv done i c p p' q' :
  inv C n σ wv done -> pool σ !! i = Some (c, p) ->
  Queue.returned p = None ->
  Queue.step p (shared σ) = Some (p', q') ->
  n + 1 <= ticket_limit ->
  inv C (n + 1) (System q' (<[i := (c, p')]> (pool σ)) (history σ))
    (next_wv p (shared σ) wv) (next_done p (shared σ) done).
Proof.
  intros I Hi Hret Hstep Hn.
  pose proof (inv_cap C _ _ _ _ I) as Ic.
  pose proof (inv_len C _ _ _ _ I) as Il.
  pose proof (inv_head C _ _ _ _ I) as Ih.
  pose proof (inv_tail C _ _ _ _ I) as It.
  pose proof (inv_count C _ _ _ _ I) as (Inh & Int & Inl).
  pose proof (inv_belongs C _ _ _ _ I _ _ _ Hi) as Hbel.
  pose proof (belongs_step _ _ _ _ _ Hbel Hstep) as Hbel'.
  pose proof (inv_phase C _ _ _ _ I _ _ _ Hi) as Hok.
  assert (Hlim : 2 * ticket_limit + 2 < size_modulus)
    by (rewrite ticket_limit_eq, size_modulus_eq; lia).
  assert (Htgt : forall k, Queue.target (shared σ) k = Some (k mod C, slot_of C (shared σ) k))
    by (intros; now apply target_slot_of).
  assert (Hto : forall k j, 0 <= k <= ticket_limit -> 0 <= j <= 2 ->
                 Queue.turn_of (shared σ) k j = Some (2 * (k / C) + j))
    by (intros; now apply turn_of_ticket).
  assert (Hh0 : 0 <= Queue.head (shared σ)) by lia.
  destruct p; cbn [Queue.returned] in Hret; try discriminate;
    cbn [Queue.step] in Hstep; cbn [phase_of phase_ok] in Hok;
    cbn [next_wv next_done].
  - (* EmFetchAdd *)
    rewrite target_set_head, Htgt in Hstep. cbn [mbind option_bind] in Hstep.
    rewrite wrap_small in Hstep by lia. injection Hstep as <- <-.
    refine (inv_claim_write C n σ wv done i c (Queue.EmFetchAdd v) _ v I Hi
              eq_refl eq_refl Hbel' _ eq_refl eq_refl eq_refl eq_refl eq_refl Hn).
    cbn [phase_of phase_ok Queue.set_head Queue.head]. split; [lia|]. split.
    + rewrite Ih. apply snoc_lookup.
    + eapply unclaimed_head_turn; exact I.
  - (* EmSpin *)
    destruct Hok as (Hh & Hwv & Hturn).
    rewrite Htgt, Hto in Hstep by lia. cbn [mbind option_bind] in Hstep.
    fold (turn_at C (shared σ) current_head) in Hstep.
    destruct (Z.eqb_spec (2 * (current_head / C) + 0)
                (turn_at C (shared σ) current_head)) as [E|E];
      injection Hstep as <- <-.
    + refine (inv_silent C n σ wv done i c (Queue.EmSpin v current_head) _ I Hi
                Hbel' _ eq_refl eq_refl _ _ _ eq_refl eq_refl Hn); try no_ticket.
      cbn [phase_of phase_ok]. repeat split; try assumption; try lia.
      eapply even_slot_empty; [exact I|lia|lia|].
      eapply sole_writer with (p := Queue.EmSpin v current_head);
        [exact I|exact Hi|reflexivity|intros u Hu; discriminate Hu].
    + refine (inv_silent C n σ wv done i c (Queue.EmSpin v current_head) _ I Hi
                Hbel' _ eq_refl eq_refl _ _ _ eq_refl eq_refl Hn);
        try tauto.
      cbn [phase_of phase_ok]. auto.
  - (* EmConstruct *)
    rewrite Htgt in Hstep. cbn [mbind option_bind] in Hstep.
    injection Hstep as <- <-.
    exact (inv_construct C C_pos n σ wv done i c (Queue.EmConstruct v current_head)
             (Queue.EmStore v current_head) current_head v I Hi eq_refl eq_refl eq_refl eq_refl Hbel' Hn).
  - (* EmStore *)
    destruct Hok as (Hh & _).
    rewrite Htgt, Hto in Hstep by lia. cbn [mbind option_bind] in Hstep.
    injection Hstep as <- <-.
    exact (inv_publish_w C C_pos n σ wv done i c (Queue.EmStore v current_head)
             Queue.EmDone current_head v Queue.RVoid I Hi eq_refl eq_refl eq_refl
             (inserted_by_void c v current_head Hbel) (removed_by_void c) Hbel' Hn).
  - (* TeLoadHead *)
    injection Hstep as <- <-.
    refine (inv_silent C n σ wv done i c (Queue.TeLoadHead v) _ I Hi
              Hbel' _ eq_refl eq_refl _ _ _ eq_refl eq_refl Hn); try no_ticket.
    cbn [phase_of phase_ok]. lia.
  - (* TeLoadTurn *)
    rewrite Htgt, Hto in Hstep by lia. cbn [mbind option_bind] in Hstep.
    fold (turn_at C (shared σ) current_head) in Hstep.
    destruct (Z.eqb_spec (2 * (current_head / C) + 0)
                (turn_at C (shared σ) current_head)) as [E|E];
      injection Hstep as <- <-;
      refine (inv_silent C n σ wv done i c (Queue.TeLoadTurn v current_head) _ I Hi
                Hbel' _ eq_refl eq_refl _ _ _ eq_refl eq_refl Hn); try no_ticket;
      cbn [phase_of phase_ok]; [lia|exact Logic.I].
  - (* TeCas *)
    destruct Hok as (Hh & Hturn).
    destruct (Z.eqb_spec (Queue.head (shared σ)) current_head) as [E|E];
      injection Hstep as <- <-.
    + subst current_head. rewrite wrap_small by lia.
      refine (inv_claim_write C n σ wv done i c (Queue.TeCas v _) _ v I Hi
                eq_refl eq_refl Hbel' _ eq_refl eq_refl eq_refl eq_refl eq_refl Hn).
      pose proof (unclaimed_head_turn C n σ wv done I) as Hle.
      cbn [phase_of phase_ok Queue.set_head Queue.head].
      split; [lia|]. split; [rewrite Ih; apply snoc_lookup|].
      split; [change (turn_at C (shared σ) (Queue.head (shared σ)) =
                      2 * (Queue.head (shared σ) / C)); lia|].
      eapply even_slot_empty; [exact I|lia|lia|].
      eapply no_writer_at_head; exact I.
    + refine (inv_silent C n σ wv done i c (Queue.TeCas v current_head) _ I Hi
                Hbel' _ eq_refl eq_refl _ _ _ eq_refl eq_refl Hn); try no_ticket.
      cbn [phase_of phase_ok]. lia.
  - (* TeConstruct *)
    rewrite Htgt in Hstep. cbn [mbind option_bind] in Hstep.
    injection Hstep as <- <-.
    exact (inv_construct C C_pos n σ wv done i c (Queue.TeConstruct v current_head)
             (Queue.TeStore v current_head) current_head v I Hi eq_refl eq_refl eq_refl eq_refl Hbel' Hn).
  - (* TeStore *)
    destruct Hok as (Hh & _).
    rewrite Htgt, Hto in Hstep by lia. cbn [mbind option_bind] in Hstep.
    pose proof (div_le_self current_head C ltac:(lia) C_pos) as Hd.
    rewrite wrap_small in Hstep by lia.
    replace (2 * (current_head / C) + 0 + 1) with (2 * (current_head / C) + 1)
      in Hstep by lia.
    injection Hstep as <- <-.
    exact (inv_publish_w C C_pos n σ wv done i c (Queue.TeStore v current_head)
             (Queue.TeDone true) current_head v (Queue.RBool true) I Hi eq_refl eq_refl eq_refl
             (inserted_by_true c v current_head Hbel) (removed_by_bool c true) Hbel' Hn).
  - (* TeReload *)
    destruct (Z.eqb_spec (Queue.head (shared σ)) prev_head) as [E|E];
      injection Hstep as <- <-.
    + refine (inv_silent C n σ wv done i c (Queue.TeReload v prev_head) _ I Hi
                Hbel' Logic.I eq_refl eq_refl _ _ _ _ _ Hn); try no_ticket.
      * apply inserted_by_false.
      * apply removed_by_bool.
    + refine (inv_silent C n σ wv done i c (Queue.TeReload v prev_head) _ I Hi
                Hbel' _ eq_refl eq_refl _ _ _ eq_refl eq_refl Hn); try no_ticket.
      cbn [phase_of phase_ok]. lia.
  - (* PopFetchAdd *)
    rewrite target_set_tail, Htgt in Hstep. cbn [mbind option_bind] in Hstep.
    rewrite wrap_small in Hstep by lia. injection Hstep as <- <-.
    refine (inv_claim_read C n σ wv done i c Queue.PopFetchAdd _ I Hi
              eq_refl eq_refl Hbel' _ eq_refl (or_introl eq_refl) eq_refl eq_refl Hn).
    cbn [phase_of phase_ok Queue.set_tail Queue.tail]. split; [lia|].
    eapply unclaimed_tail_turn; exact I.
  - (* PopSpin *)
    destruct Hok as (Ht & Hturn).
    rewrite Htgt, Hto in Hstep by lia. cbn [mbind option_bind] in Hstep.
    fold (turn_at C (shared σ) current_tail) in Hstep.
    destruct (Z.eqb_spec (2 * (current_tail / C) + 1)
                (turn_at C (shared σ) current_tail)) as [E|E];
      injection Hstep as <- <-.
    + refine (inv_silent C n σ wv done i c (Queue.PopSpin current_tail) _ I Hi
                Hbel' _ eq_refl eq_refl _ _ _ eq_refl eq_refl Hn); try no_ticket.
      * cbn [phase_of phase_ok]. split; [lia|]. split; [lia|].
        eapply odd_slot_full; [exact I|lia|lia|].
        eapply sole_reader with (p := Queue.PopSpin current_tail);
          [exact I|exact Hi|reflexivity|intros u Hu; discriminate Hu].
      * intros t. cbn [phase_of]. unfold unread.
        split; intros [H|H]; try discriminate H; injection H as <-; auto.
    + refine (inv_silent C n σ wv done i c (Queue.PopSpin current_tail) _ I Hi
                Hbel' _ eq_refl eq_refl _ _ _ eq_refl eq_refl Hn); try tauto.
      cbn [phase_of phase_ok]. auto.
  - (* PopMove *)
    destruct Hok as (Ht & Hturn & x & Hx & Hwv).
    rewrite Htgt in Hstep. cbn [mbind option_bind] in Hstep.
    unfold Slot.move in Hstep. fold (store_at C (shared σ) current_tail) in Hstep.
    rewrite Hx in Hstep. cbn [mbind option_bind] in Hstep.
    injection Hstep as <- <-. rewrite Hx.
    exact (inv_move C n σ wv done i c (Queue.PopMove current_tail)
             (Queue.PopDestroy current_tail x) current_tail x I Hi
             eq_refl eq_refl Hx eq_refl eq_refl Hbel' Hn).
  - (* PopDestroy *)
    destruct Hok as (Ht & Hturn & Hx & Hwv).
    rewrite Htgt in Hstep. cbn [mbind option_bind] in Hstep.
    rewrite (destroy_live C _ _ _ Hx) in Hstep. cbn [mbind option_bind] in Hstep.
    injection Hstep as <- <-.
    exact (inv_destroy C C_pos n σ wv done i c (Queue.PopDestroy current_tail rv)
             (Queue.PopStore current_tail rv) current_tail rv I Hi
             eq_refl eq_refl eq_refl eq_refl Hbel' Hn).
  - (* PopStore *)
    destruct Hok as (Ht & _).
    rewrite Htgt, Hto in Hstep by lia. cbn [mbind option_bind] in Hstep.
    injection Hstep as <- <-.
    exact (inv_publish_r C C_pos n σ wv done i c (Queue.PopStore current_tail rv)
             (Queue.PopDone rv) current_tail rv (Queue.RValue rv) I Hi
             eq_refl eq_refl eq_refl (inserted_by_value c rv)
             (removed_by_value c current_tail rv Hbel) Hbel' Hn).
  - (* TpLoadTail *)
    injection Hstep as <- <-.
    refine (inv_silent C n σ wv done i c Queue.TpLoadTail _ I Hi
              Hbel' _ eq_refl eq_refl _ _ _ eq_refl eq_refl Hn); try no_ticket.
    cbn [phase_of phase_ok]. lia.
  - (* TpLoadTurn *)
    rewrite Htgt, Hto in Hstep by lia. cbn [mbind option_bind] in Hstep.
    fold (turn_at C (shared σ) current_tail) in Hstep.
    destruct (Z.eqb_spec (2 * (current_tail / C) + 1)
                (turn_at C (shared σ) current_tail)) as [E|E];
      injection Hstep as <- <-;
      refine (inv_silent C n σ wv done i c (Queue.TpLoadTurn current_tail) _ I Hi
                Hbel' _ eq_refl eq_refl _ _ _ eq_refl eq_refl Hn); try no_ticket;
      cbn [phase_of phase_ok]; [lia|exact Logic.I].
  - (* TpCas *)
    destruct Hok as (Ht & Hturn).
    destruct (Z.eqb_spec (Queue.tail (shared σ)) current_tail) as [E|E];
      injection Hstep as <- <-.
    + subst current_tail. rewrite wrap_small by lia.
      refine (inv_claim_read C n σ wv done i c (Queue.TpCas _) _ I Hi
                eq_refl eq_refl Hbel' _ eq_refl (or_intror eq_refl) eq_refl eq_refl Hn).
      pose proof (unclaimed_tail_turn C n σ wv done I) as Hle.
      cbn [phase_of phase_ok Queue.set_tail Queue.tail].
      split; [lia|].
      split; [change (turn_at C (shared σ) (Queue.tail (shared σ)) =
                      2 * (Queue.tail (shared σ) / C) + 1); lia|].
      eapply odd_slot_full; [exact I|lia|lia|].
      eapply no_reader_at_tail; exact I.
    + refine (inv_silent C n σ wv done i c (Queue.TpCas current_tail) _ I Hi
                Hbel' _ eq_refl eq_refl _ _ _ eq_refl eq_refl Hn); try no_ticket.
      cbn [phase_of phase_ok]. lia.
  - (* TpMove *)
    destruct Hok as (Ht & Hturn & x & Hx & Hwv).
    rewrite Htgt in Hstep. cbn [mbind option_bind] in Hstep.
    unfold Slot.move in Hstep. fold (store_at C (shared σ) current_tail) in Hstep.
    rewrite Hx in Hstep. cbn [mbind option_bind] in Hstep.
    injection Hstep as <- <-. rewrite Hx.
    exact (inv_move C n σ wv done i c (Queue.TpMove current_tail)
             (Queue.TpDestroy current_tail x) current_tail x I Hi
             eq_refl eq_refl Hx eq_refl eq_refl Hbel' Hn).
  - (* TpDestroy *)
    destruct Hok as (Ht & Hturn & Hx & Hwv).
    rewrite Htgt in Hstep. cbn [mbind option_bind] in Hstep.
    rewrite (destroy_live C _ _ _ Hx) in Hstep. cbn [mbind option_bind] in Hstep.
    injection Hstep as <- <-.
    exact (inv_destroy C C_pos n σ wv done i c (Queue.TpDestroy current_tail rv)
             (Queue.TpStore current_tail rv) current_tail rv I Hi
             eq_refl eq_refl eq_refl eq_refl Hbel' Hn).
  - (* TpStore *)
    destruct Hok as (Ht & _).
    rewrite Htgt, Hto in Hstep by lia. cbn [mbind option_bind] in Hstep.
    injection Hstep as <- <-.
    exact (inv_publish_r C C_pos n σ wv done i c (Queue.TpStore current_tail rv)
             (Queue.TpDone (Some rv)) current_tail rv (Queue.ROptional (Some rv)) I Hi
             eq_refl eq_refl eq_refl (inserted_by_optional c (Some rv))
             (removed_by_some c current_tail rv Hbel) Hbel' Hn).
  - (* TpReload *)
    destruct (Z.eqb_spec (Queue.tail (shared σ)) prev_tail) as [E|E];
      injection Hstep as <- <-.
    + refine (inv_silent C n σ wv done i c (Queue.TpReload prev_tail) _ I Hi
                Hbel' Logic.I eq_refl eq_refl _ _ _ _ _ Hn); try no_ticket.
      * apply inserted_by_optional.
      * apply removed_by_none.
    + refine (inv_silent C n σ wv done i c (Queue.TpReload prev_tail) _ I Hi
                Hbel' _ eq_refl eq_refl _ _ _ eq_refl eq_refl Hn); try no_ticket.
      cbn [phase_of phase_ok]. lia.
Qed.
End Dispatch.

(** ** Every schedule keeps the invariant *)

Section Executions.
Context {T : Type}.
Variable C : Z.
Hypothesis C_pos : 0 < C.
Implicit Types (σ : system (T:=T)) (wv : list T).

Lemma slot_of_initial k : slot_of C (initial (T:=T) C) k = Slot.fresh.
Proof.
  unfold slot_of, Queue.slot_at. cbn [initial Queue.slots].
  rewrite lookup_replicate_2; [reflexivity|].
  pose proof (Z.mod_pos_bound k C C_pos). lia.
Qed.

Lemma inv_boot : inv C 0 (boot (T:=T) C) [] [].
Proof.
  assert (Hturn : forall k, turn_at C (initial (T:=T) C) k = 0)
    by (intros k; unfold turn_at; now rewrite slot_of_initial).
  assert (Hstore : forall k, store_at C (initial (T:=T) C) k = None)
    by (intros k; unfold store_at; now rewrite slot_of_initial).
  assert (Hdiv : forall k, 0 <= k -> 0 <= k / C)
    by (intros; apply Z.div_pos; lia).
  split; cbn [boot shared pool history initial Queue.max_capacity Queue.slots
                Queue.head Queue.tail length].
  - reflexivity.
  - rewrite length_replicate. lia.
  - reflexivity.
  - lia.
  - rewrite ticket_limit_eq. lia.
  - intros i c p H. rewrite lookup_empty in H. discriminate.
  - intros i c p H. rewrite lookup_empty in H. discriminate.
  - intros i j ci pi cj pj k H. rewrite lookup_empty in H. discriminate.
  - intros i j ci pi cj pj k H. rewrite lookup_empty in H. discriminate.
  - intros k Hk. fold (initial (T:=T) C). rewrite Hturn.
    specialize (Hdiv k Hk). lia.
  - intros k Hk. fold (initial (T:=T) C). rewrite Hturn.
    specialize (Hdiv k Hk). lia.
  - intros k Hk _. left. fold (initial (T:=T) C). apply Hstore.
  - intros k Hk. fold (initial (T:=T) C). rewrite Hturn.
    specialize (Hdiv k Hk). lia.
  - apply NoDup_nil_2.
  - intros t x H. apply elem_of_nil in H. contradiction.
  - intros i c p t H. rewrite lookup_empty in H. discriminate.
  - intros t Ht. lia.
  - unfold inserted_in, in_flight. cbn [history]. rewrite map_to_list_empty.
    reflexivity.
  - unfold removed_in, in_flight. cbn [history]. rewrite map_to_list_empty.
    reflexivity.
Qed.

(** The bookkeeping lists after an action. *)
Definition wv_after (a : action (T:=T)) σ wv : list T :=
  match a with
  | Run i =>
      match pool σ !! i with
      | Some (_, p) => next_wv p (shared σ) wv
      | None => wv
      end
  | _ => wv
  end.

Definition done_after (a : action (T:=T)) σ (done : list (Z * T)) : list (Z * T) :=
  match a with
  | Run i =>
      match pool σ !! i with
      | Some (_, p) => next_done C p (shared σ) done
      | None => done
      end
  | _ => done
  end.

Lemma inv_perform n σ wv done a σ' :
  inv C n σ wv done -> perform a σ = Some σ' -> n + 1 <= ticket_limit ->
  inv C (n + 1) σ' (wv_after a σ wv) (done_after a σ done).
Proof.
  intros I Hp Hn. destruct a as [i c|i|i]; cbn [perform wv_after done_after] in *.
  - destruct (pool σ !! i) eqn:Hi; [discriminate|]. injection Hp as <-.
    now apply inv_call.
  - destruct (pool σ !! i) as [[c p]|] eqn:Hi; [|discriminate].
    cbn [mbind option_bind] in Hp.
    destruct (Queue.returned p) eqn:Hret; [discriminate|].
    destruct (Queue.step p (shared σ)) as [[p' q']|] eqn:Hs; [|discriminate].
    cbn [mbind option_bind] in Hp. injection Hp as <-.
    eapply inv_run; eassumption.
  - destruct (pool σ !! i) as [[c p]|] eqn:Hi; [|discriminate].
    cbn [mbind option_bind] in Hp.
    destruct (Queue.returned p) as [r|] eqn:Hret; [|discriminate].
    cbn [mbind option_bind] in Hp. injection Hp as <-.
    now apply inv_return with (p := p).
Qed.

Lemma inv_schedule acts : forall n σ wv done σ',
  inv C n σ wv done -> schedule acts σ = Some σ' ->
  n + Z.of_nat (length acts) <= ticket_limit ->
  exists wv' done', inv C (n + Z.of_nat (length acts)) σ' wv' done'.
Proof.
  induction acts as [|a acts IH]; intros n σ wv done σ' I Hs Hn;
    cbn [schedule length] in *.
  - injection Hs as <-. rewrite Z.add_0_r. eauto.
  - destruct (perform a σ) as [σ1|] eqn:Hp; [|discriminate].
    cbn [mbind option_bind] in Hs.
    pose proof (inv_perform n σ wv done a σ1 I Hp ltac:(lia)) as I1.
    destruct (IH (n + 1) σ1 _ _ σ' I1 Hs ltac:(lia)) as (wv2 & done2 & I2).
    exists wv2, done2.
    replace (n + Z.of_nat (S (length acts))) with (n + 1 + Z.of_nat (length acts))
      by lia.
    exact I2.
Qed.

(** Every state a schedule of at most [ticket_limit] steps reaches from a
    fresh queue satisfies the invariant. *)
Lemma inv_reachable acts σ :
  schedule acts (boot C) = Some σ ->
  Z.of_nat (length acts) <= ticket_limit ->
  exists n wv done, inv C n σ wv done.
Proof.
  intros Hs Hn.
  destruct (inv_schedule acts 0 (boot C) [] [] σ inv_boot Hs ltac:(lia))
    as (wv & done & I).
  eauto.
Qed.
End Executions.

(** ** Conservation of elements *)

Section Conservation.
Context {T : Type}.
Variable C : Z.
Hypothesis C_pos : 0 < C.
Implicit Types (σ : system (T:=T)) (wv : list T).

Lemma in_flight_empty (f : call (T:=T) * Queue.pc T -> list T) :
  in_flight f ∅ = [].
Proof. unfold in_flight. now rewrite map_to_list_empty. Qed.

(** The elements of the reader tickets in [done] are those [wv] records. *)
Lemma done_values wv (done : list (Z * T)) :
  (forall t x, (t, x) ∈ done -> wv !! Z.to_nat t = Some x) ->
  done.*2 = omap (fun t => wv !! Z.to_nat t) done.*1.
Proof.
  induction done as [|[t x] done IH]; intros H; [reflexivity|].
  cbn [fmap list_fmap omap list_omap fst snd].
  rewrite (H t x) by apply list_elem_of_here. f_equal.
  apply IH. intros t' x' Hin. apply H. now apply list_elem_of_further.
Qed.

Lemma omap_tickets wv (n : nat) :
  omap (fun t => wv !! Z.to_nat t) (seqZ 0 (Z.of_nat n)) = take n wv.
Proof.
  induction n as [|n IH]; [reflexivity|].
  rewrite seqZ_S, omap_app, IH. cbn [omap list_omap].
  rewrite Z.add_0_l, Nat2Z.id.
  destruct (wv !! n) as [x|] eqn:E.
  - symmetry. now apply take_S_r.
  - rewrite app_nil_r. apply lookup_ge_None in E.
    now rewrite !take_ge by lia.
Qed.

(** With no call in progress, the readers have emptied exactly the first
    [tail] tickets. *)
Lemma quiescent_done n σ wv done :
  inv C n σ wv done -> quiescent σ ->
  done.*1 ≡ₚ seqZ 0 (Queue.tail (shared σ)).
Proof.
  intros I Hq. apply NoDup_Permutation.
  - apply (inv_done_nodup C _ _ _ _ I).
  - apply NoDup_seqZ.
  - intros t. rewrite elem_of_seqZ. split.
    + intros Hin. apply list_elem_of_fmap in Hin as ([t' x] & -> & Hin).
      destruct (inv_done_val C _ _ _ _ I _ _ Hin). simpl. lia.
    + intros Ht. destruct (inv_done_cover C _ _ _ _ I t ltac:(lia))
        as [?|(j & cj & pj & Hj & _)]; [assumption|].
      rewrite Hq, lookup_empty in Hj. discriminate.
Qed.

Lemma quiescent_removed n σ wv done :
  inv C n σ wv done -> quiescent σ ->
  removed_in σ ≡ₚ take (Z.to_nat (Queue.tail (shared σ))) wv.
Proof.
  intros I Hq. pose proof (inv_rem C _ _ _ _ I) as Hrem.
  rewrite Hq, in_flight_empty, app_nil_r in Hrem. rewrite <- Hrem.
  rewrite (done_values wv done)
    by (intros t x Hin; now destruct (inv_done_val C _ _ _ _ I _ _ Hin)).
  rewrite (quiescent_done n σ wv done I Hq).
  pose proof (inv_tail C _ _ _ _ I) as Ht.
  rewrite <- (Z2Nat.id (Queue.tail (shared σ))) at 1 by exact Ht.
  now rewrite omap_tickets.
Qed.

Lemma quiescent_inserted n σ wv done :
  inv C n σ wv done -> quiescent σ -> inserted_in σ ≡ₚ wv.
Proof.
  intros I Hq. pose proof (inv_ins C _ _ _ _ I) as Hins.
  now rewrite Hq, in_flight_empty, app_nil_r in Hins.
Qed.

(** Whenever no call is in progress, the elements inserted so far are the
    elements removed so far together with those still to be removed. *)
Lemma conservation acts σ :
  schedule acts (boot C) = Some σ ->
  Z.of_nat (length acts) <= ticket_limit ->
  quiescent σ ->
  exists rest, inserted_in σ ≡ₚ removed_in σ ++ rest.
Proof.
  intros Hs Hn Hq.
  destruct (inv_reachable C C_pos acts σ Hs Hn) as (n & wv & done & I).
  exists (drop (Z.to_nat (Queue.tail (shared σ))) wv).
  rewrite (quiescent_inserted n σ wv done I Hq),
          (quiescent_removed n σ wv done I Hq).
  now rewrite take_drop.
Qed.
End Conservation.

(** ** One producer and one consumer *)

Section Spsc.
Context {T : Type}.
Variable C : Z.
Hypothesis C_pos : 0 < C.
Variables P K : nat.
Implicit Types (q : Queue.queue T) (p : Queue.pc T) (c : call (T:=T))
  (σ : system (T:=T)) (wv : list T).

Definition is_insert c : bool :=
  match c with
  | Emplace _ | TryEmplace _ | Push _ | TryPush _ => true
  | Pop | TryPop => false
  end.

(** Thread [P] makes every inserting call and thread [K] every removing
    call; they may be the same thread. *)
Definition allowed (a : action (T:=T)) : Prop :=
  match a with
  | Call i c => i = if is_insert c then P else K
  | _ => True
  end.

(** What thread [i] contributes to the elements in flight. *)
Definition held (f : call (T:=T) * Queue.pc T -> list T) σ (i : nat) : list T :=
  match pool σ !! i with
  | Some e => f e
  | None => []
  end.

Record ordered σ wv (done : list (Z * T)) : Prop := {
  ord_roles : forall j c p, pool σ !! j = Some (c, p) ->
    j = if is_insert c then P else K;
  ord_ins : wv = inserted_in σ ++ held pending_ins σ P;
  ord_rem : done.*2 = removed_in σ ++ held pending_rem σ K;
  ord_done : done.*1 = seqZ 0 (Z.of_nat (length done))
}.

Lemma pending_ins_remove c p :
  belongs c p -> is_insert c = false -> pending_ins (c, p) = [].
Proof.
  destruct c; cbn [is_insert]; intros Hb Hi; try discriminate;
    destruct p; cbn [belongs] in Hb; try contradiction; reflexivity.
Qed.

Lemma pending_rem_insert c p :
  belongs c p -> is_insert c = true -> pending_rem (c, p) = [].
Proof.
  destruct c; cbn [is_insert]; intros Hb Hi; try discriminate;
    destruct p; cbn [belongs] in Hb; try contradiction; reflexivity.
Qed.

Lemma inserted_by_remove c r : is_insert c = false -> inserted_by (c, r) = [].
Proof. destruct c; cbn; intros H; try discriminate; reflexivity. Qed.

Lemma removed_by_insert c r : is_insert c = true -> removed_by (c, r) = [].
Proof. destruct c; cbn; intros H; try discriminate; reflexivity. Qed.

(** A step either leaves the writer tickets alone or issues one for the
    element of the stepping call. *)
Lemma step_ins c p q p' q' wv :
  belongs c p -> Queue.returned p = None -> Queue.step p q = Some (p', q') ->
  (next_wv p q wv = wv /\ pending_ins (c, p') = pending_ins (c, p)) \/
  (exists v, next_wv p q wv = wv ++ [v] /\ pending_ins (c, p) = [] /\
             pending_ins (c, p') = [v]).
Proof.
  intros Hb Hr Hs.
  destruct p; cbn [Queue.returned] in Hr; try discriminate;
    destruct c; cbn [belongs] in Hb; try contradiction; subst;
    cbn [Queue.step] in Hs; cbn [next_wv];
    repeat match type of Hs with
           | context [?m ≫= _] =>
               let E := fresh in destruct m as [[? ?]|] eqn:E;
               cbn [mbind option_bind] in Hs
           | context [?m ≫= _] =>
               let E := fresh in destruct m eqn:E;
               cbn [mbind option_bind] in Hs
           | context [if ?b then _ else _] => destruct b eqn:?
           end;
    try discriminate; injection Hs as <- <-;
    first [ left; split; reflexivity
          | right; eexists; repeat split; reflexivity ].
Qed.

(** A step either leaves the served reader tickets alone or serves the
    ticket the stepping thread owns. *)
Lemma step_rem c p q p' q' (done : list (Z * T)) :
  Queue.max_capacity q = C -> Z.of_nat (length (Queue.slots q)) = C + 1 ->
  belongs c p -> Queue.returned p = None -> Queue.step p q = Some (p', q') ->
  (next_done C p q done = done /\ pending_rem (c, p') = pending_rem (c, p)) \/
  (exists t x, next_done C p q done = done ++ [(t, x)] /\ phase_of p = ROwn t /\
               pending_rem (c, p) = [] /\ pending_rem (c, p') = [x]).
Proof.
  intros Hc Hl Hb Hr Hs.
  assert (Htgt : forall k, Queue.target q k = Some (k mod C, slot_of C q k))
    by (intros; now apply target_slot_of).
  destruct p; cbn [Queue.returned] in Hr; try discriminate;
    destruct c; cbn [belongs] in Hb; try contradiction; subst;
    cbn [Queue.step] in Hs; cbn [next_done];
    rewrite ?target_set_head, ?target_set_tail, ?Htgt in Hs;
    cbn [mbind option_bind] in Hs;
    try (unfold Slot.move in Hs; fold (store_at (Queue.max_capacity q) q current_tail) in Hs);
    repeat match type of Hs with
           | context [?m ≫= _] =>
               let E := fresh in destruct m eqn:E;
               cbn [mbind option_bind] in Hs
           | context [if ?b then _ else _] => destruct b eqn:?
           end;
    try discriminate; injection Hs as <- <-;
    first [ left; split; reflexivity
          | right; eexists _, _; repeat split; reflexivity ].
Qed.

(** With a single consumer, the ticket it owns is the next one to serve. *)
Lemma next_ticket n σ wv done i c p t :
  inv C n σ wv done -> ordered σ wv done ->
  pool σ !! i = Some (c, p) -> phase_of p = ROwn t ->
  t = Z.of_nat (length done).
Proof.
  intros I O Hi Hp.
  pose proof (inv_phase C _ _ _ _ I _ _ _ Hi) as Hok. rewrite Hp in Hok.
  cbn [phase_ok] in Hok. destruct Hok as (Ht & _).
  pose proof (inv_belongs C _ _ _ _ I _ _ _ Hi) as Hb.
  assert (Hout : t ∉ done.*1).
  { apply (inv_done_excl C _ _ _ _ I i c p t Hi). rewrite Hp. now right. }
  rewrite (ord_done _ _ _ O), elem_of_seqZ in Hout.
  assert (Hrole : forall j cj pj t', pool σ !! j = Some (cj, pj) ->
                     unread (phase_of pj) t' -> j = K).
  { intros j cj pj t' Hj Hu. rewrite (ord_roles _ _ _ O j cj pj Hj).
    pose proof (inv_belongs C _ _ _ _ I _ _ _ Hj) as Hbj.
    destruct cj; cbn [is_insert]; try reflexivity; exfalso;
      destruct pj; cbn [belongs] in Hbj; try contradiction;
      destruct Hu as [Hu|Hu]; discriminate Hu. }
  assert (Hi_K : i = K).
  { apply (Hrole i c p t Hi). rewrite Hp. now right. }
  destruct (Z_lt_le_dec (Z.of_nat (length done)) t) as [Hlt|Hle]; [exfalso|lia].
  destruct (inv_done_cover C _ _ _ _ I (Z.of_nat (length done)) ltac:(lia))
    as [Hin|(j & cj & pj & Hj & Hu)].
  - rewrite (ord_done _ _ _ O), elem_of_seqZ in Hin. lia.
  - pose proof (Hrole j cj pj _ Hj Hu) as Hj_K. subst j i.
    rewrite Hi in Hj. injection Hj as <- <-. rewrite Hp in Hu.
    destruct Hu as [Hu|Hu]; [discriminate|]. injection Hu as Hu. lia.
Qed.

Lemma held_insert_eq f σ q' i e h :
  held f (System q' (<[i := e]> (pool σ)) h) i = f e.
Proof. unfold held. cbn [pool]. now rewrite lookup_insert_eq. Qed.

Lemma held_insert_ne f σ q' i j e h :
  i <> j -> held f (System q' (<[i := e]> (pool σ)) h) j = held f σ j.
Proof. intros Hne. unfold held. cbn [pool]. now rewrite lookup_insert_ne. Qed.

Lemma held_delete_eq f σ q' i h :
  held f (System q' (delete i (pool σ)) h) i = [].
Proof. unfold held. cbn [pool]. now rewrite lookup_delete_eq. Qed.

Lemma held_delete_ne f σ q' i j h :
  i <> j -> held f (System q' (delete i (pool σ)) h) j = held f σ j.
Proof. intros Hne. unfold held. cbn [pool]. now rewrite lookup_delete_ne. Qed.

Lemma held_lookup f σ i e : pool σ !! i = Some e -> held f σ i = f e.
Proof. intros H. unfold held. now rewrite H. Qed.

Lemma held_none f σ i : pool σ !! i = None -> held f σ i = [].
Proof. intros H. unfold held. now rewrite H. Qed.

Lemma ordered_perform n σ wv done a σ' :
  inv C n σ wv done -> ordered σ wv done -> allowed a ->
  perform a σ = Some σ' ->
  ordered σ' (wv_after a σ wv) (done_after C a σ done).
Proof.
  intros I O Ha Hp. destruct O as [Oro Oins Orem Odone].
  destruct a as [i c|i|i]; cbn [perform wv_after done_after allowed] in *.
  - (* Call *)
    destruct (pool σ !! i) eqn:Hi; [discriminate|]. injection Hp as <-.
    split; cbn [pool]; try assumption.
    + intros j cj pj Hj. apply lookup_insert_Some in Hj as [[<- E]|[_ Hj]];
        [injection E as <- <-; exact Ha | eauto].
    + unfold inserted_in. cbn [history]. fold (inserted_in σ).
      destruct (decide (i = P)) as [->|Hne].
      * rewrite held_insert_eq. unfold pending_ins. cbn [snd].
        rewrite entry_running, entry_outside.
        now rewrite Oins, (held_none _ _ _ Hi).
      * now rewrite held_insert_ne.
    + unfold removed_in. cbn [history]. fold (removed_in σ).
      destruct (decide (i = K)) as [->|Hne].
      * rewrite held_insert_eq. unfold pending_rem. cbn [snd].
        rewrite entry_running, entry_outside.
        now rewrite Orem, (held_none _ _ _ Hi).
      * now rewrite held_insert_ne.
  - (* Run *)
    destruct (pool σ !! i) as [[c p]|] eqn:Hi; [|discriminate].
    cbn [mbind option_bind] in Hp.
    destruct (Queue.returned p) eqn:Hret; [discriminate|].
    destruct (Queue.step p (shared σ)) as [[p' q']|] eqn:Hs; [|discriminate].
    cbn [mbind option_bind] in Hp. injection Hp as <-.
    pose proof (inv_belongs C _ _ _ _ I _ _ _ Hi) as Hb.
    pose proof (belongs_step _ _ _ _ _ Hb Hs) as Hb'.
    pose proof (Oro _ _ _ Hi) as Hrole.
    split; cbn [pool].
    + intros j cj pj Hj. apply lookup_insert_Some in Hj as [[<- E]|[_ Hj]];
        [injection E as <- <-; exact Hrole | eauto].
    + unfold inserted_in. cbn [history]. fold (inserted_in σ).
      destruct (step_ins c p (shared σ) p' q' wv Hb Hret Hs)
        as [[-> Hsame]|(v & -> & Hnil & Hone)].
      * destruct (decide (i = P)) as [->|Hne].
        -- rewrite held_insert_eq, Hsame, Oins. now rewrite (held_lookup _ _ _ _ Hi).
        -- now rewrite held_insert_ne.
      * destruct (decide (i = P)) as [->|Hne].
        -- rewrite held_insert_eq, Hone, Oins, (held_lookup _ _ _ _ Hi), Hnil.
           now rewrite app_nil_r.
        -- exfalso. destruct (is_insert c) eqn:Eins; [now subst i|].
           rewrite (pending_ins_remove c p' Hb' Eins) in Hone. discriminate.
    + unfold removed_in. cbn [history]. fold (removed_in σ).
      destruct (step_rem c p (shared σ) p' q' done
                  (inv_cap C _ _ _ _ I) (inv_len C _ _ _ _ I) Hb Hret Hs)
        as [[-> Hsame]|(t & x & -> & Hown & Hnil & Hone)].
      * destruct (decide (i = K)) as [->|Hne].
        -- rewrite held_insert_eq, Hsame, Orem. now rewrite (held_lookup _ _ _ _ Hi).
        -- now rewrite held_insert_ne.
      * destruct (decide (i = K)) as [->|Hne].
        -- rewrite held_insert_eq, Hone, fmap_app, Orem, (held_lookup _ _ _ _ Hi), Hnil.
           now rewrite app_nil_r.
        -- exfalso. destruct (is_insert c) eqn:Eins; [|now subst i].
           rewrite (pending_rem_insert c p' Hb' Eins) in Hone. discriminate.
    + destruct (step_rem c p (shared σ) p' q' done
                  (inv_cap C _ _ _ _ I) (inv_len C _ _ _ _ I) Hb Hret Hs)
        as [[-> Hsame]|(t & x & -> & Hown & Hnil & Hone)]; [exact Odone|].
      assert (O : ordered σ wv done) by (split; assumption).
      rewrite (next_ticket n σ wv done i c p t I O Hi Hown).
      rewrite fmap_app, length_app, Odone. cbn [length fmap list_fmap fst].
      replace (length done + 1)%nat with (S (length done)) by lia.
      now rewrite seqZ_S, Z.add_0_l.
  - (* Return *)
    destruct (pool σ !! i) as [[c p]|] eqn:Hi; [|discriminate].
    cbn [mbind option_bind] in Hp.
    destruct (Queue.returned p) as [r|] eqn:Hret; [|discriminate].
    cbn [mbind option_bind] in Hp. injection Hp as <-.
    pose proof (Oro _ _ _ Hi) as Hrole.
    split; cbn [pool]; try assumption.
    + intros j cj pj Hj. apply lookup_delete_Some in Hj as [_ Hj]. eauto.
    + unfold inserted_in, inserted. cbn [history].
      rewrite !fmap_app, concat_app. cbn [fmap list_fmap snd concat].
      fold (inserted (history σ).*2). fold (inserted_in σ). rewrite app_nil_r.
      destruct (decide (i = P)) as [->|Hne].
      * rewrite held_delete_eq, app_nil_r, Oins, (held_lookup _ _ _ _ Hi).
        unfold pending_ins. cbn [fst snd]. now rewrite Hret.
      * rewrite held_delete_ne by exact Hne.
        destruct (is_insert c) eqn:Eins; [now subst i|].
        now rewrite (inserted_by_remove c r Eins), app_nil_r.
    + unfold removed_in, removed. cbn [history].
      rewrite !fmap_app, concat_app. cbn [fmap list_fmap snd concat].
      fold (removed (history σ).*2). fold (removed_in σ). rewrite app_nil_r.
      destruct (decide (i = K)) as [->|Hne].
      * rewrite held_delete_eq, app_nil_r, Orem, (held_lookup _ _ _ _ Hi).
        unfold pending_rem. cbn [fst snd]. now rewrite Hret.
      * rewrite held_delete_ne by exact Hne.
        destruct (is_insert c) eqn:Eins; [|now subst i].
        now rewrite (removed_by_insert c r Eins), app_nil_r.
Qed.

Lemma ordered_boot : ordered (boot C) [] [].
Proof.
  split; cbn [boot pool history].
  - intros j c p H. rewrite lookup_empty in H. discriminate.
  - reflexivity.
  - reflexivity.
  - reflexivity.
Qed.

Lemma ordered_schedule acts : forall n σ wv done σ',
  inv C n σ wv done -> ordered σ wv done -> Forall allowed acts ->
  schedule acts σ = Some σ' ->
  n + Z.of_nat (length acts) <= ticket_limit ->
  exists n' wv' done', inv C n' σ' wv' done' /\ ordered σ' wv' done'.
Proof.
  induction acts as [|a acts IH]; intros n σ wv done σ' I O Hall Hs Hn;
    cbn [schedule length] in *.
  - injection Hs as <-. eauto.
  - destruct (perform a σ) as [σ1|] eqn:Hp; [|discriminate].
    cbn [mbind option_bind] in Hs.
    apply Forall_cons in Hall as [Ha Hall].
    pose proof (inv_perform C C_pos n σ wv done a σ1 I Hp ltac:(lia)) as I1.
    pose proof (ordered_perform n σ wv done a σ1 I O Ha Hp) as O1.
    exact (IH (n + 1) σ1 _ _ σ' I1 O1 Hall Hs ltac:(lia)).
Qed.

(** With one producer and one consumer, the elements removed so far
    (including the one the consumer holds) are an initial segment of the
    elements inserted so far (including the one the producer holds). *)
Lemma spsc_prefix acts σ :
  schedule acts (boot C) = Some σ -> Forall allowed acts ->
  Z.of_nat (length acts) <= ticket_limit ->
  exists rest,
    inserted_in σ ++ held pending_ins σ P =
    (removed_in σ ++ held pending_rem σ K) ++ rest.
Proof.
  intros Hs Hall Hn.
  destruct (ordered_schedule acts 0 (boot C) [] [] σ (inv_boot C C_pos)
              ordered_boot Hall Hs ltac:(lia)) as (n & wv & done & I & O).
  exists (drop (length done) wv).
  rewrite <- (ord_ins _ _ _ O), <- (ord_rem _ _ _ O).
  rewrite (done_values wv done)
    by (intros t x Hin; now destruct (inv_done_val C _ _ _ _ I _ _ Hin)).
  rewrite (ord_done _ _ _ O), omap_tickets. now rewrite take_drop.
Qed.
End Spsc.

(** ** A slot holds a live object exactly when its turn is odd *)

Section Parity.
Context {T : Type}.
Implicit Types (q : Queue.queue T) (p : Queue.pc T) (s : Slot.slot T).

Definition live s : bool :=
  match Slot.storage s with Some _ => true | None => false end.

(** The storage holds a [T] exactly when the turn is odd. *)
Definition live_iff_odd s : bool := Bool.eqb (live s) (Z.odd (Slot.turn s)).

Definition consistent q : Prop :=
  Forall (fun s => live_iff_odd s = true) (Queue.slots q).

(** Inside the two critical sections the slot of the ticket is the only one
    that may disagree: its object is already built, or already destroyed,
    and its turn is not published yet. *)
Definition mid q (i : Z) (alive : bool) : Prop :=
  match Queue.target q i with
  | Some (idx, s) =>
      consistent (Queue.set_slot q idx Slot.fresh) /\ live s = alive
  | None => True
  end.

Definition between p q : Prop :=
  match p with
  | Queue.EmStore _ h | Queue.TeStore _ h => mid q h true
  | Queue.PopStore t _ | Queue.TpStore t _ => mid q t false
  | _ => consistent q
  end.

Lemma odd_wrap z : Z.odd (wrap z) = Z.odd z.
Proof.
  unfold wrap, size_modulus, size_bits.
  rewrite <- !Z.bit0_odd. apply Z.mod_pow2_bits_low. lia.
Qed.

Lemma odd_turn_of q i k t :
  Queue.turn_of q i k = Some t -> Z.odd t = Z.odd k.
Proof.
  unfold Queue.turn_of. destruct (Queue.get_current_turn q i) as [g|]; [|discriminate].
  cbn. intros [= <-]. rewrite odd_wrap, Z.odd_add, odd_wrap, Z.odd_mul.
  cbn. now rewrite andb_false_r.
Qed.

Lemma target_slot q i idx s :
  Queue.target q i = Some (idx, s) -> Queue.slot_at q idx = Some s.
Proof.
  unfold Queue.target. destruct (Queue.get_idx q i) as [j|]; [|discriminate].
  cbn. destruct (Queue.slot_at q j) as [s0|] eqn:E; [|discriminate].
  cbn. now intros [= <- <-].
Qed.

Lemma target_set_slot q i idx s s' :
  Queue.target q i = Some (idx, s) ->
  Queue.target (Queue.set_slot q idx s') i = Some (idx, s').
Proof.
  intros H. pose proof (target_slot q i idx s H) as Hs. revert H.
  unfold Queue.target, Queue.get_idx. cbn.
  destruct (Queue.max_capacity q =? 0); [discriminate|]. cbn.
  destruct (Queue.slot_at q (i mod Queue.max_capacity q)) as [s0|]; [|discriminate].
  cbn. intros [= <- <-].
  now rewrite (slot_at_set_slot_eq q _ s' s0 Hs).
Qed.

Lemma consistent_publish q idx s' :
  consistent (Queue.set_slot q idx Slot.fresh) -> live_iff_odd s' = true ->
  consistent (Queue.set_slot q idx s').
Proof.
  intros H Hs. rewrite <- (set_slot_twice q idx Slot.fresh s').
  unfold consistent in *. cbn [Queue.set_slot Queue.slots] in *.
  now apply Forall_insert.
Qed.

Lemma consistent_claim q idx :
  consistent q -> consistent (Queue.set_slot q idx Slot.fresh).
Proof. intros H. now apply Forall_insert. Qed.

Lemma consistent_slot q idx s :
  consistent q -> Queue.slot_at q idx = Some s -> live_iff_odd s = true.
Proof.
  unfold consistent, Queue.slot_at. rewrite Forall_lookup. intros H Hs.
  exact (H _ _ Hs).
Qed.

(** Every step of every call keeps all slots it does not own consistent,
    and hands its own slot back consistent. *)
Lemma step_between p q p' q' :
  Queue.step p q = Some (p', q') -> between p q -> between p' q'.
Proof.
  destruct p; cbn [Queue.step between]; intros H Hb;
    repeat match type of H with
    | context [Queue.target ?a ?b] =>
        let E := fresh "E" in
        destruct (Queue.target a b) as [[? ?]|] eqn:E; cbn in H; [|discriminate]
    | context [Queue.turn_of ?a ?b ?c] =>
        let E := fresh "Et" in
        destruct (Queue.turn_of a b c) as [?|] eqn:E; cbn in H; [|discriminate]
    | context [Slot.move ?a] =>
        let E := fresh "Em" in
        destruct (Slot.move a) as [?|] eqn:E; cbn in H; [|discriminate]
    | context [Slot.destroy ?a] =>
        let E := fresh "Ed" in
        destruct (Slot.destroy a) as [?|] eqn:E; cbn in H; [|discriminate]
    | context [if ?b then _ else _] => destruct b
    end;
    injection H as <- <-; cbn [between]; try exact Hb.
  - (* EmConstruct *)
    unfold mid. rewrite (target_set_slot _ _ _ _ _ E).
    rewrite set_slot_twice. split; [now apply consistent_claim|reflexivity].
  - (* EmStore *)
    unfold mid in Hb. rewrite E in Hb. destruct Hb as [Hc Hl].
    apply consistent_publish; [exact Hc|].
    unfold live_iff_odd, Slot.store_turn, live in *. cbn.
    rewrite (odd_turn_of _ _ _ _ Et). cbn. now rewrite Hl.
  - (* TeConstruct *)
    unfold mid. rewrite (target_set_slot _ _ _ _ _ E).
    rewrite set_slot_twice. split; [now apply consistent_claim|reflexivity].
  - (* TeStore *)
    unfold mid in Hb. rewrite E in Hb. destruct Hb as [Hc Hl].
    apply consistent_publish; [exact Hc|].
    unfold live_iff_odd, Slot.store_turn, live in *. cbn.
    rewrite odd_wrap, Z.odd_add, (odd_turn_of _ _ _ _ Et). cbn. now rewrite Hl.
  - (* PopDestroy *)
    unfold mid. rewrite (target_set_slot _ _ _ _ _ E).
    rewrite set_slot_twice. split; [now apply consistent_claim|].
    unfold Slot.destroy in Ed. destruct (Slot.storage s); [|discriminate].
    now injection Ed as <-.
  - (* PopStore *)
    unfold mid in Hb. rewrite E in Hb. destruct Hb as [Hc Hl].
    apply consistent_publish; [exact Hc|].
    unfold live_iff_odd, Slot.store_turn, live in *. cbn.
    rewrite (odd_turn_of _ _ _ _ Et). cbn. now rewrite Hl.
  - (* TpDestroy *)
    unfold mid. rewrite (target_set_slot _ _ _ _ _ E).
    rewrite set_slot_twice. split; [now apply consistent_claim|].
    unfold Slot.destroy in Ed. destruct (Slot.storage s); [|discriminate].
    now injection Ed as <-.
  - (* TpStore *)
    unfold mid in Hb. rewrite E in Hb. destruct Hb as [Hc Hl].
    apply consistent_publish; [exact Hc|].
    unfold live_iff_odd, Slot.store_turn, live in *. cbn.
    rewrite (odd_turn_of _ _ _ _ Et). cbn. now rewrite Hl.
Qed.

Lemma returned_between p q r :
  Queue.returned p = Some r -> between p q -> consistent q.
Proof. destruct p; cbn; try discriminate; auto. Qed.

Lemma run_between fuel : forall p q r q',
  Queue.run fuel p q = Queue.Returns r q' -> between p q -> consistent q'.
Proof.
  induction fuel as [|fuel IH]; intros p q r q' H Hb.
  - cbn in H. destruct (Queue.returned p) as [r0|] eqn:E; [|discriminate].
    injection H as <- <-. exact (returned_between p q r0 E Hb).
  - rewrite run_unfold in H. destruct (Queue.returned p) as [r0|] eqn:E.
    + injection H as <- <-. exact (returned_between p q r0 E Hb).
    + destruct (Queue.step p q) as [[p1 q1]|] eqn:Es; [|discriminate].
      exact (IH p1 q1 r q' H (step_between p q p1 q1 Es Hb)).
Qed.

Lemma invoke_consistent fuel q c r q' :
  consistent q -> invoke fuel q c = Queue.Returns r q' -> consistent q'.
Proof.
  intros Hc H. rewrite invoke_entry in H.
  apply (run_between fuel _ q r q' H). destruct c; exact Hc.
Qed.

Lemma consistent_initial capacity : consistent (initial (T:=T) capacity).
Proof.
  unfold consistent, initial. cbn. apply Forall_replicate. reflexivity.
Qed.

(** [~slot] on a consistent slot: the object is destroyed when the turn is
    odd, nothing is touched when it is even, and no object is left. *)
Lemma dtor_odd s :
  Z.odd (Slot.turn s) = true -> Slot.dtor s = Slot.destroy s.
Proof.
  intros H. unfold Slot.dtor. rewrite Zmod_odd, H. reflexivity.
Qed.

Lemma dtor_even s :
  Z.odd (Slot.turn s) = false -> Slot.dtor s = Some s.
Proof.
  intros H. unfold Slot.dtor. rewrite Zmod_odd, H. reflexivity.
Qed.

Lemma dtor_consistent s :
  live_iff_odd s = true ->
  Slot.dtor s = Some {| Slot.turn := Slot.turn s; Slot.storage := None |}.
Proof.
  unfold live_iff_odd, live. destruct s as [t [x|]]; cbn [Slot.storage Slot.turn];
    intros H; apply Bool.eqb_prop in H; symmetry in H.
  - rewrite dtor_odd by exact H. reflexivity.
  - rewrite dtor_even by exact H. reflexivity.
Qed.
End Parity.

(** ** Failure without effect *)

Section Failure.
Context {T : Type}.
Implicit Types (q : Queue.queue T) (p : Queue.pc T) (r : Queue.retval T)
  (c : call (T:=T)).

(** The answers that report failure: [false] and [std::nullopt]. *)
Definition failed r : bool :=
  match r with
  | Queue.RBool false | Queue.ROptional None => true
  | _ => false
  end.

(** The program points of the two [try_] functions from which the failing
    [return] can still be reached. *)
Definition probing p : bool :=
  match p with
  | Queue.TeLoadHead _ | Queue.TeLoadTurn _ _ | Queue.TeCas _ _
  | Queue.TeReload _ _ | Queue.TeDone false
  | Queue.TpLoadTail | Queue.TpLoadTurn _ | Queue.TpCas _
  | Queue.TpReload _ | Queue.TpDone None => true
  | _ => false
  end.

(** The steps one call takes while other threads run in between:
    [seen] lists the queue as the call finds it at each of its steps; the
    result is the program point reached and the queue as each step leaves
    it. *)
Fixpoint own_steps p (seen : list (Queue.queue T))
  : option (Queue.pc T * list (Queue.queue T)) :=
  match seen with
  | [] => Some (p, [])
  | q :: seen' =>
      '(p1, q1) ← Queue.step p q;
      '(p', out) ← own_steps p1 seen';
      Some (p', q1 :: out)
  end.

Lemma step_probing p q p' q' :
  Queue.step p q = Some (p', q') -> probing p' = true ->
  probing p = true /\ q' = q.
Proof.
  destruct p; cbn [Queue.step]; intros H Hp;
    repeat match type of H with
    | context [Queue.target ?a ?b] =>
        destruct (Queue.target a b) as [[? ?]|]; cbn in H; [|discriminate]
    | context [Queue.turn_of ?a ?b ?c] =>
        destruct (Queue.turn_of a b c) as [?|]; cbn in H; [|discriminate]
    | context [Slot.move ?a] =>
        destruct (Slot.move a) as [?|]; cbn in H; [|discriminate]
    | context [Slot.destroy ?a] =>
        destruct (Slot.destroy a) as [?|]; cbn in H; [|discriminate]
    | context [if ?b then _ else _] => destruct b
    end;
    injection H as <- <-; cbn in Hp; try discriminate; auto.
Qed.

Lemma returned_failed p r :
  Queue.returned p = Some r -> failed r = true -> probing p = true.
Proof.
  destruct p; cbn; try discriminate; intros [= <-]; cbn; auto.
Qed.

Lemma run_failed fuel : forall p q r q',
  Queue.run fuel p q = Queue.Returns r q' -> failed r = true ->
  probing p = true /\ q' = q.
Proof.
  induction fuel as [|fuel IH]; intros p q r q' H Hf.
  - cbn in H. destruct (Queue.returned p) as [r0|] eqn:E; [|discriminate].
    injection H as <- <-. split; [exact (returned_failed p r0 E Hf)|reflexivity].
  - rewrite run_unfold in H. destruct (Queue.returned p) as [r0|] eqn:E.
    + injection H as <- <-. split; [exact (returned_failed p r0 E Hf)|reflexivity].
    + destruct (Queue.step p q) as [[p1 q1]|] eqn:Es; [|discriminate].
      destruct (IH p1 q1 r q' H Hf) as [Hp ->].
      exact (step_probing p q p1 q1 Es Hp).
Qed.

Lemma own_steps_failed seen : forall p p' out r,
  own_steps p seen = Some (p', out) ->
  Queue.returned p' = Some r -> failed r = true ->
  probing p = true /\ out = seen.
Proof.
  induction seen as [|q seen IH]; intros p p' out r H Hr Hf.
  - injection H as <- <-. split; [exact (returned_failed p r Hr Hf)|reflexivity].
  - cbn [own_steps] in H.
    destruct (Queue.step p q) as [[p1 q1]|] eqn:Es; [|discriminate].
    cbn in H. destruct (own_steps p1 seen) as [[p2 out2]|] eqn:Eo; [|discriminate].
    cbn in H. injection H as <- <-.
    destruct (IH p1 p2 out2 r Eo Hr Hf) as [Hp ->].
    destruct (step_probing p q p1 q1 Es Hp) as [Hp' ->]. auto.
Qed.

(** *** Which steps lead to the failing return of [try_pop] *)

Lemma step_to_nullopt p q p' q' :
  Queue.step p q = Some (p', q') ->
  (p' = Queue.TpDone None <->
   p = Queue.TpDone None \/ p = Queue.TpReload (Queue.tail q)).
Proof.
  destruct p; cbn [Queue.step]; intros H;
    repeat match type of H with
    | context [Queue.target ?a ?b] =>
        destruct (Queue.target a b) as [[? ?]|]; cbn in H; [|discriminate]
    | context [Queue.turn_of ?a ?b ?c] =>
        destruct (Queue.turn_of a b c) as [?|]; cbn in H; [|discriminate]
    | context [Slot.move ?a] =>
        destruct (Slot.move a) as [?|]; cbn in H; [|discriminate]
    | context [Slot.destroy ?a] =>
        destruct (Slot.destroy a) as [?|]; cbn in H; [|discriminate]
    | context [if ?a =? ?b then _ else _] => destruct (Z.eqb_spec a b)
    end;
    injection H as <- <-;
    (split; [intros [=]; subst; auto | intros [[=]|[=]]; subst; auto; congruence]).
Qed.

Lemma step_to_reload p q p' q' t :
  Queue.step p q = Some (p', q') ->
  (p' = Queue.TpReload t <->
   p = Queue.TpLoadTurn t /\
   exists idx s e, Queue.target q t = Some (idx, s) /\
                   Queue.turn_of q t 1 = Some e /\ e <> Slot.turn s).
Proof.
  destruct p; cbn [Queue.step]; intros H;
    repeat match type of H with
    | context [Queue.target ?a ?b] =>
        let E := fresh "E" in
        destruct (Queue.target a b) as [[? ?]|] eqn:E; cbn in H; [|discriminate]
    | context [Queue.turn_of ?a ?b ?c] =>
        let E := fresh "Et" in
        destruct (Queue.turn_of a b c) as [?|] eqn:E; cbn in H; [|discriminate]
    | context [Slot.move ?a] =>
        destruct (Slot.move a) as [?|]; cbn in H; [|discriminate]
    | context [Slot.destroy ?a] =>
        destruct (Slot.destroy a) as [?|]; cbn in H; [|discriminate]
    | context [if ?a =? ?b then _ else _] => destruct (Z.eqb_spec a b)
    end;
    injection H as <- <-;
    (split; [intros [=]; subst | intros [[=] (idx' & s' & e' & H1 & H2 & H3)]; subst]);
    try congruence.
  split; [reflexivity|]. eauto 6.
Qed.

(** *** Only the two blocking loops can stay where they are *)

Definition spins p : bool :=
  match p with
  | Queue.EmSpin _ _ | Queue.PopSpin _ => true
  | _ => false
  end.

Lemma step_repeats p q q' :
  Queue.returned p = None -> Queue.step p q = Some (p, q') -> spins p = true.
Proof.
  destruct p; cbn [Queue.step Queue.returned spins]; intros Hr H;
    try discriminate; try reflexivity;
    repeat match type of H with
    | context [Queue.target ?a ?b] =>
        destruct (Queue.target a b) as [[? ?]|]; cbn in H; [|discriminate]
    | context [Queue.turn_of ?a ?b ?c] =>
        destruct (Queue.turn_of a b c) as [?|]; cbn in H; [|discriminate]
    | context [Slot.move ?a] =>
        destruct (Slot.move a) as [?|]; cbn in H; [|discriminate]
    | context [Slot.destroy ?a] =>
        destruct (Slot.destroy a) as [?|]; cbn in H; [|discriminate]
    | context [if ?a =? ?b then _ else _] => destruct (Z.eqb_spec a b)
    end;
    try discriminate; injection H as H1; try discriminate; congruence.
Qed.

(** *** A call answers in the type of its function *)

Lemma run_belongs fuel : forall c p q r q',
  belongs c p -> Queue.run fuel p q = Queue.Returns r q' ->
  exists p', belongs c p' /\ Queue.returned p' = Some r.
Proof.
  induction fuel as [|fuel IH]; intros c p q r q' Hb H.
  - cbn in H. destruct (Queue.returned p) as [r0|] eqn:E; [|discriminate].
    injection H as <- <-. eauto.
  - rewrite run_unfold in H. destruct (Queue.returned p) as [r0|] eqn:E.
    + injection H as <- <-. eauto.
    + destruct (Queue.step p q) as [[p1 q1]|] eqn:Es; [|discriminate].
      exact (IH c p1 q1 r q' (belongs_step c p q p1 q1 Hb Es) H).
Qed.

Lemma emplace_void fuel q v r q' :
  Queue.emplace fuel q v = Queue.Returns r q' -> r = Queue.RVoid.
Proof.
  intros H.
  destruct (run_belongs fuel (Emplace v) (Queue.EmFetchAdd v) q r q' eq_refl H)
    as (p' & Hb & Hr).
  destruct p'; cbn in Hb, Hr; try contradiction; try discriminate; congruence.
Qed.
End Failure.

(** ** The non-blocking calls always answer *)

Section Answers.
Context {T : Type}.
Implicit Types (q : Queue.queue T) (p : Queue.pc T) (s : Slot.slot T) (v : T).

Lemma try_emplace_answers fuel q v s :
  0 < Queue.max_capacity q -> 0 <= Queue.head q < ticket_limit ->
  Queue.slot_at q (Queue.head q mod Queue.max_capacity q) = Some s ->
  exists b q', Queue.try_emplace (5 + fuel) q v = Queue.Returns (Queue.RBool b) q'.
Proof.
  intros Hc Hh Hs.
  destruct (Z.eq_dec (Slot.turn s) (2 * (Queue.head q / Queue.max_capacity q)))
    as [E|E].
  - exists true, (inserted_state q v). now apply (try_emplace_alone_ready fuel q v s).
  - exists false, q.
    apply (try_emplace_alone_full (2 + fuel) q v s); [exact Hc|lia|exact Hs|exact E].
Qed.

Lemma try_pop_answers fuel q s :
  0 < Queue.max_capacity q -> 0 <= Queue.tail q < ticket_limit ->
  Queue.slot_at q (Queue.tail q mod Queue.max_capacity q) = Some s ->
  live_iff_odd s = true ->
  exists o q', Queue.try_pop (6 + fuel) q = Queue.Returns (Queue.ROptional o) q'.
Proof.
  intros Hc Hh Hs Hl.
  destruct (Z.eq_dec (Slot.turn s) (2 * (Queue.tail q / Queue.max_capacity q) + 1))
    as [E|E].
  - unfold live_iff_odd, live in Hl. rewrite E in Hl.
    rewrite Z.odd_add, Z.odd_mul in Hl. cbn in Hl.
    destruct (Slot.storage s) as [x|] eqn:Ex; [|discriminate].
    exists (Some x), (removed_state q). now apply (try_pop_alone_ready fuel q s x).
  - exists None, q.
    apply (try_pop_alone_empty (3 + fuel) q s); [exact Hc|lia|exact Hs|exact E].
Qed.
End Answers.

(** ** Indexing *)

Section Indexing.
Context {T : Type}.
Implicit Types (q : Queue.queue T) (p : Queue.pc T) (s : Slot.slot T).

Lemma get_idx_pos q i :
  0 < Queue.max_capacity q ->
  Queue.get_idx q i = Some (i mod Queue.max_capacity q).
Proof.
  intros Hc. unfold Queue.get_idx.
  destruct (Z.eqb_spec (Queue.max_capacity q) 0); [lia|reflexivity].
Qed.

Lemma get_current_turn_pos q i :
  0 < Queue.max_capacity q ->
  Queue.get_current_turn q i = Some (i / Queue.max_capacity q).
Proof.
  intros Hc. unfold Queue.get_current_turn.
  destruct (Z.eqb_spec (Queue.max_capacity q) 0); [lia|reflexivity].
Qed.

Lemma get_idx_below q i idx :
  0 < Queue.max_capacity q -> Queue.get_idx q i = Some idx ->
  0 <= idx < Queue.max_capacity q.
Proof.
  intros Hc. rewrite get_idx_pos by exact Hc. intros [= <-].
  now apply Z.mod_pos_bound.
Qed.

Lemma target_below q i idx s :
  0 < Queue.max_capacity q -> Queue.target q i = Some (idx, s) ->
  0 <= idx < Queue.max_capacity q.
Proof.
  intros Hc. unfold Queue.target.
  destruct (Queue.get_idx q i) as [j|] eqn:E; [|discriminate]. cbn.
  destruct (Queue.slot_at q j); [|discriminate]. cbn. intros [= <- _].
  exact (get_idx_below q i j Hc E).
Qed.

(** No step of any call writes the slot behind the last indexed one, nor
    changes the capacity. *)
Lemma step_spare p q p' q' :
  0 < Queue.max_capacity q -> Queue.step p q = Some (p', q') ->
  Queue.max_capacity q' = Queue.max_capacity q /\
  Queue.slot_at q' (Queue.max_capacity q) = Queue.slot_at q (Queue.max_capacity q).
Proof.
  intros Hc.
  destruct p; cbn [Queue.step]; intros H;
    repeat match type of H with
    | context [Queue.target ?a ?b] =>
        let E := fresh "E" in
        destruct (Queue.target a b) as [[? ?]|] eqn:E; cbn in H; [|discriminate]
    | context [Queue.turn_of ?a ?b ?c] =>
        destruct (Queue.turn_of a b c) as [?|]; cbn in H; [|discriminate]
    | context [Slot.move ?a] =>
        destruct (Slot.move a) as [?|]; cbn in H; [|discriminate]
    | context [Slot.destroy ?a] =>
        destruct (Slot.destroy a) as [?|]; cbn in H; [|discriminate]
    | context [if ?b then _ else _] => destruct b
    end;
    injection H as <- <-; (split; [reflexivity|]); try reflexivity;
    apply target_below in E; try exact Hc;
    apply slot_at_set_slot_ne; lia.
Qed.

(** *** Capacity zero *)

Lemma get_idx_zero q i :
  Queue.max_capacity q = 0 ->
  Queue.get_idx q i = None /\ Queue.get_current_turn q i = None.
Proof.
  intros Hc. unfold Queue.get_idx, Queue.get_current_turn. now rewrite Hc.
Qed.

Lemma target_zero q i : Queue.max_capacity q = 0 -> Queue.target q i = None.
Proof.
  intros Hc. unfold Queue.target. now rewrite (proj1 (get_idx_zero q i Hc)).
Qed.

Lemma invoke_zero fuel q (c : call (T:=T)) :
  Queue.max_capacity q = 0 -> invoke (2 + fuel) q c = Queue.Undefined.
Proof.
  intros Hc. rewrite invoke_entry. cbn [Nat.add].
  destruct c; cbn [entry]; run_step;
    rewrite ?target_set_head, ?target_set_tail, ?(target_zero q _ Hc);
    try reflexivity;
    run_step; now rewrite (target_zero q _ Hc).
Qed.

Lemma size_initial capacity :
  Queue.size (initial (T:=T) capacity) = 0 /\
  Queue.empty (initial (T:=T) capacity) = true.
Proof. split; reflexivity. Qed.
End Indexing.

(** ** Construction and exceptions *)

Section Exceptions.
Context {T : Type}.

(** How the constructor ends: by throwing [std::bad_alloc], with a queue,
    or by writing outside the array it allocated. *)
Inductive construction : Type :=
| BadAlloc
| Constructed (q : Queue.queue T)
| Overrun.

(** [queue::queue], queue.hpp:23-36. [allocate n] is the address
    [std::make_unique<slot<T>[]>(n)] obtains, [None] when the allocation
    throws; [alignment] is [alignof(slot<T>)]. *)
Definition construct (allocate : Z -> option Z) (alignment : Z) (capacity : Z)
  : construction :=
  match allocate (wrap (capacity + 1)) with
  | None => BadAlloc
  | Some address =>
      if negb (address mod alignment =? 0) then BadAlloc
      else match Queue.make capacity with
           | Some q => Constructed q
           | None => Overrun
           end
  end.

Lemma construct_throws allocate alignment capacity :
  construct allocate alignment capacity = BadAlloc <->
  allocate (wrap (capacity + 1)) = None \/
  exists address, allocate (wrap (capacity + 1)) = Some address /\
                  address mod alignment <> 0.
Proof.
  unfold construct. destruct (allocate (wrap (capacity + 1))) as [a|].
  - destruct (Z.eqb_spec (a mod alignment) 0) as [E|E]; cbn.
    + split.
      * destruct (Queue.make capacity); discriminate.
      * intros [[=]|(a' & [= <-] & Ha)]. contradiction.
    + split; [eauto|reflexivity].
  - split; [auto|reflexivity].
Qed.

Lemma construct_succeeds allocate alignment capacity address :
  0 <= capacity < size_modulus - 1 ->
  allocate (capacity + 1) = Some address -> address mod alignment = 0 ->
  construct allocate alignment capacity = Constructed (initial capacity).
Proof.
  intros Hc Ha Hal. unfold construct.
  rewrite wrap_small, Ha, Hal, make_initial by lia. reflexivity.
Qed.
End Exceptions.

(** *** The constraints on the element type

    The values of the [<type_traits>] predicates the two headers consult,
    for one element type. *)
Module Traits.
Record traits : Type := Build {
  nothrow_default_constructible : bool;
  nothrow_copy_constructible : bool;
  nothrow_move_constructible : bool;
  nothrow_copy_assignable : bool;
  nothrow_move_assignable : bool;
  nothrow_destructible : bool
}.

(** [concept regular_type], queue.hpp:13-16. *)
Definition regular_type (t : traits) : bool :=
  (nothrow_copy_assignable t || nothrow_move_assignable t) &&
  nothrow_destructible t.

(** [concept arg_regular_type] as [slot] uses it, with no constructor
    arguments: slot.hpp:14-16, 20. *)
Definition arg_regular_type (t : traits) : bool :=
  nothrow_default_constructible t && nothrow_destructible t.

(** The member functions; the ones that forward their arguments carry the
    value of [is_nothrow_constructible<T, A&&...>] for the arguments of
    the call. *)
Inductive member : Type :=
| emplace (nothrow_from_arguments : bool)
| try_emplace (nothrow_from_arguments : bool)
| push_forward (nothrow_from_argument : bool)
| push_copy
| try_push
| pop
| try_pop.

(** The [requires] clause of each member: queue.hpp:50, 68, 100, 107,
    116, 124; [try_pop] has none. *)
Definition requires (m : member) (t : traits) : bool :=
  match m with
  | emplace b | try_emplace b | push_forward b => b
  | push_copy | try_push | pop => nothrow_copy_constructible t
  | try_pop => true
  end.

(** A call of [m] on a [queue<T>] compiles. *)
Definition accepted (m : member) (t : traits) : bool :=
  regular_type t && arg_regular_type t && requires m t.

(** The operations of the element type a member runs. *)
Inductive operation : Type :=
| FromArguments (nothrow : bool)   (* new (&storage) T(arguments...) *)
| FromConstReference               (* new (&storage) T(value) *)
| FromRvalue                       (* T rv(slot.move()) *)
| Destroy.                         (* ~T() *)

Definition performs (m : member) : list operation :=
  match m with
  | emplace b | try_emplace b | push_forward b => [FromArguments b]
  | push_copy | try_push => [FromConstReference]
  | pop | try_pop => [FromRvalue; Destroy]
  end.

Definition may_throw (t : traits) (o : operation) : bool :=
  match o with
  | FromArguments b => negb b
  | FromConstReference => negb (nothrow_copy_constructible t)
  | FromRvalue => negb (nothrow_move_constructible t)
  | Destroy => negb (nothrow_destructible t)
  end.

(** No operation the member runs can throw. *)
Definition excluded (m : member) (t : traits) : bool :=
  forallb (fun o => negb (may_throw t o)) (performs m).

Definition removes (m : member) : bool :=
  match m with pop | try_pop => true | _ => false end.

(** An element type whose copy constructor is [noexcept] and whose move
    constructor is not. *)
Definition throwing_move : traits :=
  {| nothrow_default_constructible := true;
     nothrow_copy_constructible := true;
     nothrow_move_constructible := false;
     nothrow_copy_assignable := true;
     nothrow_move_assignable := true;
     nothrow_destructible := true |}.

Lemma inserts_excluded m t :
  removes m = false -> accepted m t = true -> excluded m t = true.
Proof.
  unfold accepted, excluded, regular_type, arg_regular_type.
  destruct m as [b|b|b| | | |], t as [d cc mc ca ma ds];
    cbn; try discriminate; intros _; try destruct b;
    destruct d, cc, ca, ma, ds; cbn; intros H; try discriminate H; reflexivity.
Qed.

Lemma removes_excluded m t :
  removes m = true -> accepted m t = true ->
  nothrow_move_constructible t = true -> excluded m t = true.
Proof.
  unfold accepted, excluded, regular_type, arg_regular_type.
  destruct m, t as [d cc mc ca ma ds]; cbn; try discriminate; intros _;
    destruct d, cc, mc, ca, ma, ds; cbn; intros H H'; 
    try discriminate H; try discriminate H'; reflexivity.
Qed.

Lemma removes_not_excluded m :
  removes m = true ->
  accepted m throwing_move = true /\ excluded m throwing_move = false.
Proof. destruct m; cbn; try discriminate; auto. Qed.
End Traits.

(** ** Every slot is consistent whenever no call is in progress *)

Section Quiescence.
Context {T : Type}.
Variable C : Z.
Hypothesis C_pos : 0 < C.
Implicit Types (q : Queue.queue T) (p : Queue.pc T) (s : Slot.slot T)
  (σ : system (T:=T)).

(** Turns are never negative, the capacity is [C], and the slot behind the
    ring is as the allocation left it. *)
Definition settled q : Prop :=
  Queue.max_capacity q = C /\
  Forall (fun s => 0 <= Slot.turn s) (Queue.slots q) /\
  Queue.slot_at q C = Some Slot.fresh.

Lemma turn_of_nonneg q i k t : Queue.turn_of q i k = Some t -> 0 <= t.
Proof.
  unfold Queue.turn_of. destruct (Queue.get_current_turn q i); [|discriminate].
  cbn. intros [= <-]. apply wrap_range.
Qed.

Lemma settled_initial : settled (initial C).
Proof.
  split; [reflexivity|]. split.
  - cbn. apply Forall_replicate. cbn. lia.
  - unfold Queue.slot_at. cbn. apply lookup_replicate_2. lia.
Qed.

Lemma turns_step p q p' q' :
  Queue.step p q = Some (p', q') ->
  Forall (fun s => 0 <= Slot.turn s) (Queue.slots q) ->
  Forall (fun s => 0 <= Slot.turn s) (Queue.slots q').
Proof.
  intros H Ht. revert H.
  destruct p; cbn [Queue.step]; intros H;
    repeat match type of H with
    | context [Queue.target ?a ?b] =>
        let E := fresh "E" in
        destruct (Queue.target a b) as [[? ?]|] eqn:E; cbn in H; [|discriminate]
    | context [Queue.turn_of ?a ?b ?c] =>
        let E := fresh "Et" in
        destruct (Queue.turn_of a b c) as [?|] eqn:E; cbn in H; [|discriminate]
    | context [Slot.move ?a] =>
        destruct (Slot.move a) as [?|]; cbn in H; [|discriminate]
    | context [Slot.destroy ?a] =>
        let E := fresh "Ed" in
        destruct (Slot.destroy a) as [?|] eqn:E; cbn in H; [|discriminate]
    | context [if ?a =? ?b then _ else _] => destruct (a =? b)
    end;
    injection H as <- <-; try exact Ht;
    cbn [Queue.set_slot Queue.slots]; apply Forall_insert; try exact Ht;
    try (apply target_slot in E; unfold Queue.slot_at in E;
         rewrite Forall_lookup in Ht; specialize (Ht _ _ E));
    cbn [Slot.construct Slot.store_turn Slot.turn];
    try exact Ht; try (eapply turn_of_nonneg; eassumption);
    try apply wrap_range;
    unfold Slot.destroy in Ed; (destruct (Slot.storage s); [|discriminate]);
    injection Ed as <-; exact Ht.
Qed.

Lemma step_settled p q p' q' :
  Queue.step p q = Some (p', q') -> settled q -> settled q'.
Proof.
  intros H (Hc & Ht & Hs).
  assert (Hcap : 0 < Queue.max_capacity q) by lia.
  destruct (step_spare p q p' q' Hcap H) as [Hc' Hs'].
  split; [congruence|]. split; [exact (turns_step p q p' q' H Ht)|].
  rewrite <- Hs, <- Hc. exact Hs'.
Qed.

Lemma perform_settled a σ σ' :
  perform a σ = Some σ' -> settled (shared σ) -> settled (shared σ').
Proof.
  destruct a as [i c|i|i]; cbn [perform]; intros H Hs.
  - destruct (pool σ !! i); [discriminate|]. now injection H as <-.
  - destruct (pool σ !! i) as [[c p]|]; [|discriminate]. cbn in H.
    destruct (Queue.returned p); [discriminate|].
    destruct (Queue.step p (shared σ)) as [[p' q']|] eqn:E; [|discriminate].
    cbn in H. injection H as <-. exact (step_settled p _ p' q' E Hs).
  - destruct (pool σ !! i) as [[c p]|]; [|discriminate]. cbn in H.
    destruct (Queue.returned p); [|discriminate]. cbn in H.
    now injection H as <-.
Qed.

Lemma schedule_settled acts : forall σ σ',
  schedule acts σ = Some σ' -> settled (shared σ) -> settled (shared σ').
Proof.
  induction acts as [|a acts IH]; intros σ σ' H Hs; cbn [schedule] in H.
  - now injection H as <-.
  - destruct (perform a σ) as [σ1|] eqn:E; [|discriminate]. cbn in H.
    exact (IH σ1 σ' H (perform_settled a σ σ1 E Hs)).
Qed.

Lemma parity_split t : t = 2 * (t / 2) + (if Z.odd t then 1 else 0).
Proof. rewrite <- Zmod_odd. apply Z.div_mod. lia. Qed.

Lemma quiescent_consistent n σ wv done :
  inv C n σ wv done -> settled (shared σ) -> quiescent σ ->
  consistent (shared σ).
Proof.
  intros I (Hc & Ht & Hs) Hq. unfold consistent. rewrite Forall_lookup.
  intros j s Hj.
  pose proof (inv_len C _ _ _ _ I) as Hlen.
  pose proof (lookup_lt_Some _ _ _ Hj) as Hlt.
  destruct (decide (Z.of_nat j = C)) as [E|E].
  - unfold Queue.slot_at in Hs. rewrite <- E, Nat2Z.id, Hj in Hs.
    now injection Hs as ->.
  - rewrite Forall_lookup in Ht. pose proof (Ht _ _ Hj) as Hpos.
    set (k := Z.of_nat j + (Slot.turn s / 2) * C).
    assert (Hk : 0 <= k) by (unfold k; pose proof (Z.div_pos (Slot.turn s) 2); nia).
    assert (Hmod : k mod C = Z.of_nat j)
      by (unfold k; rewrite Z.mod_add, Z.mod_small; lia).
    assert (Hdiv : k / C = Slot.turn s / 2)
      by (unfold k; rewrite Z.div_add, Z.div_small; lia).
    assert (Hslot : slot_of C (shared σ) k = s)
      by (unfold slot_of, Queue.slot_at; now rewrite Hmod, Nat2Z.id, Hj).
    pose proof (parity_split (Slot.turn s)) as Hp.
    unfold live_iff_odd, live.
    destruct (Z.odd (Slot.turn s)) eqn:Eo.
    + destruct (inv_odd C _ _ _ _ I k Hk) as [(x & Hx & _)|(i & c & p & Hi & _)].
      * unfold turn_at. rewrite Hslot, Hdiv. lia.
      * unfold store_at in Hx. rewrite Hslot in Hx. now rewrite Hx.
      * rewrite Hq, lookup_empty in Hi. discriminate.
    + destruct (inv_even C _ _ _ _ I k Hk) as [Hx|(i & c & p & Hi & _)].
      * unfold turn_at. rewrite Hslot, Hdiv. lia.
      * unfold store_at in Hx. rewrite Hslot in Hx. now rewrite Hx.
      * rewrite Hq, lookup_empty in Hi. discriminate.
Qed.

Lemma reachable_consistent acts σ :
  schedule acts (boot C) = Some σ ->
  Z.of_nat (length acts) <= ticket_limit ->
  quiescent σ -> consistent (shared σ).
Proof.
  intros H Hn Hq.
  destruct (inv_reachable C C_pos acts σ H Hn) as (n & wv & done & I).
  apply (quiescent_consistent n σ wv done I); [|exact Hq].
  exact (schedule_settled acts (boot C) σ H settled_initial).
Qed.
End Quiescence.

Section Made.
Context {T : Type}.

(** A constructor that completes builds [initial]. *)
Lemma make_inv capacity (q : Queue.queue T) :
  0 <= capacity -> Queue.make capacity = Some q ->
  q = initial capacity /\ capacity < size_modulus - 1.
Proof.
  intros Hc H.
  assert (Hlt : capacity < size_modulus - 1).
  { unfold Queue.make in H.
    destruct (Queue.placement_loop _ _) as [l|] eqn:E; [|discriminate].
    apply placement_loop_length in E. rewrite length_replicate in E.
    destruct E as [_ E]. pose proof (wrap_range (capacity + 1)) as Hw.
    destruct (Z_lt_le_dec capacity (size_modulus - 1)) as [|Hge]; [assumption|].
    exfalso. destruct (Z.eq_dec capacity (size_modulus - 1)) as [->|Hne].
    - replace (size_modulus - 1 + 1) with size_modulus in E by lia.
      unfold wrap in E. rewrite Z.mod_same in E by (rewrite size_modulus_eq; lia).
      rewrite size_modulus_eq in E. lia.
    - lia. }
  rewrite make_initial in H by lia. injection H as <-. auto.
Qed.
End Made.

(** * Properties stated by the specification *)

(** A queue of capacity one that holds the element [7]. *)
Definition full_one : Queue.queue Z :=
  {| Queue.max_capacity := 1;
     Queue.slots := [ {| Slot.turn := 1; Slot.storage := Some 7 |}; Slot.fresh ];
     Queue.head := 1; Queue.tail := 0 |}.

(** C6: for every ticket [i] and every capacity [C > 0], [get_idx] selects
    slot [i mod C] and [get_current_turn] gives generation [i div C], both
    with the nominal capacity as modulus and divisor; the selected index is
    below [C], so the extra slot at index [C] is never selected, and no step
    of any call changes it. *)
Theorem index_and_generation {T : Type} (q : Queue.queue T) (i : Z) :
  0 < Queue.max_capacity q ->
  Queue.get_idx q i = Some (i mod Queue.max_capacity q) /\
  Queue.get_current_turn q i = Some (i / Queue.max_capacity q) /\
  0 <= i mod Queue.max_capacity q < Queue.max_capacity q /\
  Queue.get_idx q i <> Some (Queue.max_capacity q) /\
  (forall p p' q', Queue.step p q = Some (p', q') ->
     Queue.slot_at q' (Queue.max_capacity q) =
     Queue.slot_at q (Queue.max_capacity q)).
Proof.
  intros Hc. pose proof (Z.mod_pos_bound i _ Hc) as Hb.
  split; [now apply get_idx_pos|]. split; [now apply get_current_turn_pos|].
  split; [exact Hb|]. split.
  - rewrite get_idx_pos by exact Hc. intros [= E]. lia.
  - intros p p' q' H. exact (proj2 (step_spare p q p' q' Hc H)).
Qed.

Lemma index_and_generation_witness :
  Queue.get_idx full_one 7 = Some (7 mod 1) /\
  Queue.get_current_turn full_one 7 = Some (7 / 1) /\
  0 <= 7 mod 1 < 1 /\
  Queue.get_idx full_one 7 <> Some 1 /\
  (forall p p' q', Queue.step p full_one = Some (p', q') ->
     Queue.slot_at q' 1 = Queue.slot_at full_one 1).
Proof. exact (index_and_generation full_one 7 eq_refl). Defined.

(** C10: the constructor accepts capacity 0 and builds a queue whose [size]
    and [empty] answer; on a queue of capacity 0 the index and the
    generation of every ticket divide by zero, so every enqueue and dequeue
    is undefined, while with a capacity other than 0 both are defined. *)
Theorem zero_capacity {T : Type} (q : Queue.queue T) :
  Queue.make (T:=T) 0 = Some (initial 0) /\
  Queue.size (initial (T:=T) 0) = 0 /\
  Queue.empty (initial (T:=T) 0) = true /\
  (Queue.max_capacity q = 0 ->
   (forall i, Queue.get_idx q i = None /\ Queue.get_current_turn q i = None) /\
   (forall c fuel, invoke (2 + fuel) q c = Queue.Undefined)) /\
  (Queue.max_capacity q <> 0 ->
   forall i, is_Some (Queue.get_idx q i) /\ is_Some (Queue.get_current_turn q i)).
Proof.
  split; [apply make_initial; rewrite size_modulus_eq; lia|].
  split; [reflexivity|]. split; [reflexivity|]. split.
  - intros Hc. split; [intros i; now apply get_idx_zero|].
    intros c fuel. now apply invoke_zero.
  - intros Hc i. unfold Queue.get_idx, Queue.get_current_turn.
    destruct (Z.eqb_spec (Queue.max_capacity q) 0); [contradiction|]. eauto.
Qed.

Lemma zero_capacity_witness :
  (forall i, Queue.get_idx (initial (T:=Z) 0) i = None /\
             Queue.get_current_turn (initial (T:=Z) 0) i = None) /\
  (forall c fuel, invoke (2 + fuel) (initial (T:=Z) 0) c = Queue.Undefined).
Proof.
  exact (proj1 (proj2 (proj2 (proj2 (zero_capacity (initial (T:=Z) 0))))) eq_refl).
Defined.

(** C9: a [try_emplace] or [try_push] that returns [false], and a [try_pop]
    that returns an empty optional, leave the whole queue as it was: head,
    tail and every slot. This holds for a call that runs alone, and for each
    of the call's own steps when other threads run in between. *)
Theorem failed_attempt_changes_nothing {T : Type} (c : call (T:=T)) :
  (forall fuel q r q',
     invoke fuel q c = Queue.Returns r q' -> failed r = true -> q' = q) /\
  (forall seen p out r,
     own_steps (entry c) seen = Some (p, out) ->
     Queue.returned p = Some r -> failed r = true -> out = seen).
Proof.
  split.
  - intros fuel q r q' H Hf. rewrite invoke_entry in H.
    exact (proj2 (run_failed fuel _ q r q' H Hf)).
  - intros seen p out r H Hr Hf.
    exact (proj2 (own_steps_failed seen _ p out r H Hr Hf)).
Qed.

Lemma failed_attempt_changes_nothing_witness :
  invoke 3 full_one (TryEmplace 8) = Queue.Returns (Queue.RBool false) full_one /\
  own_steps (entry (TryPop (T:=Z)))
    [initial 1; Queue.set_head (initial 1) 1; initial 1] =
  Some (Queue.TpDone None, [initial 1; Queue.set_head (initial 1) 1; initial 1]) /\
  full_one = full_one /\
  [initial 1; Queue.set_head (initial (T:=Z) 1) 1; initial 1] =
  [initial 1; Queue.set_head (initial 1) 1; initial 1].
Proof.
  split; [reflexivity|]. split; [reflexivity|]. split.
  - exact (proj1 (failed_attempt_changes_nothing (TryEmplace 8))
             3%nat full_one (Queue.RBool false) full_one eq_refl eq_refl).
  - exact (proj2 (failed_attempt_changes_nothing (TryPop (T:=Z)))
             [initial 1; Queue.set_head (initial 1) 1; initial 1]
             (Queue.TpDone None)
             [initial 1; Queue.set_head (initial 1) 1; initial 1]
             (Queue.ROptional None) eq_refl eq_refl eq_refl).
Defined.


(** C5: a dequeue that finds its slot at turn [2g + 1] returns the element
    (wrapped in an optional by [try_pop]) and leaves the slot [t mod C]
    without an object and at turn [2g + 2], with [tail] advanced; [try_pop]
    returns an empty optional exactly when the turn of its slot differs from
    [2g + 1], and its empty [return] is reached only from the re-read of
    [tail] that finds it unchanged, which is reached only from a turn that
    differs from the expected one. *)
Theorem dequeue_effect {T : Type} (q : Queue.queue T) (s : Slot.slot T) :
  0 < Queue.max_capacity q -> 0 <= Queue.tail q < ticket_limit ->
  Queue.slot_at q (Queue.tail q mod Queue.max_capacity q) = Some s ->
  (forall x fuel,
     Slot.turn s = 2 * (Queue.tail q / Queue.max_capacity q) + 1 ->
     Slot.storage s = Some x ->
     Queue.pop (5 + fuel) q = Queue.Returns (Queue.RValue x) (removed_state q) /\
     Queue.try_pop (6 + fuel) q =
       Queue.Returns (Queue.ROptional (Some x)) (removed_state q) /\
     Queue.slot_at (removed_state q) (Queue.tail q mod Queue.max_capacity q) =
       Some {| Slot.turn := 2 * (Queue.tail q / Queue.max_capacity q) + 2;
               Slot.storage := @None T |} /\
     Queue.tail (removed_state q) = Queue.tail q + 1 /\
     Queue.head (removed_state q) = Queue.head q) /\
  (forall fuel,
     (exists q', Queue.try_pop (3 + fuel) q =
                 Queue.Returns (Queue.ROptional None) q') <->
     Slot.turn s <> 2 * (Queue.tail q / Queue.max_capacity q) + 1) /\
  (forall (p : Queue.pc T) (q0 : Queue.queue T) p' q1,
     Queue.step p q0 = Some (p', q1) ->
     (p' = Queue.TpDone None <->
      p = Queue.TpDone None \/ p = Queue.TpReload (Queue.tail q0)) /\
     (forall t, p' = Queue.TpReload t <->
        p = Queue.TpLoadTurn t /\
        exists idx s0 e, Queue.target q0 t = Some (idx, s0) /\
                         Queue.turn_of q0 t 1 = Some e /\ e <> Slot.turn s0)).
Proof.
  intros Hc Ht Hs. split; [|split].
  - intros x fuel Hturn Hx.
    split; [now apply (pop_alone_ready fuel q s x)|].
    split; [now apply (try_pop_alone_ready fuel q s x)|].
    split; [|split; reflexivity].
    unfold removed_state.
    apply (slot_at_set_slot_eq (Queue.set_tail q (Queue.tail q + 1)) _ _ s). exact Hs.
  - intros fuel. split.
    + intros [q' H] Hturn.
      pose proof (target_lookup q _ s Hc Hs) as Htg.
      pose proof (turn_of_small q (Queue.tail q) 1 Hc ltac:(lia) ltac:(lia)) as Hto.
      unfold Queue.try_pop in H. cbn [Nat.add] in H.
      rewrite run_unfold in H. cbn [Queue.returned Queue.step] in H.
      rewrite run_unfold in H. cbn [Queue.returned Queue.step] in H.
      rewrite Htg in H. cbn [mbind option_bind] in H.
      rewrite Hto in H. cbn [mbind option_bind] in H.
      rewrite Hturn, Z.eqb_refl in H.
      rewrite run_unfold in H. cbn [Queue.returned Queue.step] in H.
      rewrite Z.eqb_refl in H.
      destruct (run_failed fuel _ _ _ _ H eq_refl) as [Hp _]. discriminate Hp.
    + intros Hturn. exists q.
      apply (try_pop_alone_empty fuel q s); [exact Hc|lia|exact Hs|exact Hturn].
  - intros p q0 p' q1 H. split; [now apply (step_to_nullopt p q0 p' q1)|].
    intros t. now apply (step_to_reload p q0 p' q1 t).
Qed.

Lemma dequeue_effect_witness :
  Queue.pop 5 full_one = Queue.Returns (Queue.RValue 7) (removed_state full_one) /\
  Queue.try_pop 6 full_one =
    Queue.Returns (Queue.ROptional (Some 7)) (removed_state full_one) /\
  Queue.slot_at (removed_state full_one) (0 mod 1) =
    Some {| Slot.turn := 2 * (0 / 1) + 2; Slot.storage := None |} /\
  Queue.tail (removed_state full_one) = 0 + 1 /\
  Queue.head (removed_state full_one) = 1.
Proof.
  refine (proj1 (dequeue_effect full_one {| Slot.turn := 1; Slot.storage := Some 7 |}
                   eq_refl _ eq_refl) 7 0%nat eq_refl eq_refl).
  split; [discriminate|reflexivity].
Defined.




(** The scenario of the capacity test: eleven [try_emplace], one [pop], one
    more [try_emplace], on elements [e 0], [e 1], ... *)
Definition scenario {T : Type} (e : nat -> T) : list (call (T:=T)) :=
  map (fun i => TryEmplace (e i)) (seq 0 11) ++ [Pop; TryEmplace (e 11%nat)].

Definition scenario_answers {T : Type} (e : nat -> T)
  : list (call (T:=T) * Queue.retval T) :=
  map (fun i => (TryEmplace (e i), Queue.RBool true)) (seq 0 10) ++
  [ (TryEmplace (e 10%nat), Queue.RBool false);
    (Pop, Queue.RValue (e 0%nat));
    (TryEmplace (e 11%nat), Queue.RBool true) ].

(** C2: on a queue that holds [C] elements with no call in progress,
    [try_emplace] and [try_push] return [false]; after a [pop] or a
    [try_pop] has removed an element, the next [try_emplace] returns [true].
    On a queue constructed with capacity 10, ten [try_emplace] return
    [true], the eleventh returns [false], [pop] returns the first element
    and a further [try_emplace] returns [true]. *)
Theorem capacity_bound {T : Type} (q : Queue.queue T) (l : list T) (v : T) :
  repr q l -> Queue.head q < ticket_limit ->
  (Z.of_nat (length l) = Queue.max_capacity q ->
   forall fuel,
     Queue.try_emplace (3 + fuel) q v = Queue.Returns (Queue.RBool false) q /\
     Queue.try_push (3 + fuel) q v = Queue.Returns (Queue.RBool false) q) /\
  (forall x l' fuel, l = x :: l' ->
     Queue.pop (5 + fuel) q = Queue.Returns (Queue.RValue x) (after_remove q) /\
     Queue.try_pop (6 + fuel) q =
       Queue.Returns (Queue.ROptional (Some x)) (after_remove q) /\
     Queue.try_emplace (5 + fuel) (after_remove q) v =
       Queue.Returns (Queue.RBool true) (after_insert (after_remove q) v)) /\
  (forall e : nat -> T,
     exists q0 q1, Queue.make 10 = Some q0 /\
                   execute 6 q0 (scenario e) = (scenario_answers e, Some q1)).
Proof.
  intros R Hlim. split; [|split].
  - intros Hfull fuel. split; now apply (try_emplace_full fuel q l v).
  - intros x l' fuel ->.
    split; [now apply (pop_some fuel q x l')|].
    split; [now apply (try_pop_some fuel q x l')|].
    pose proof (repr_after_remove q x l' R) as R'.
    apply (try_emplace_room fuel (after_remove q) l' v R').
    + pose proof (repr_bound q _ R) as Hb. cbn [length] in Hb.
      change (Queue.max_capacity (after_remove q)) with (Queue.max_capacity q). lia.
    + exact Hlim.
  - intros e. eexists; eexists. split; [vm_compute; reflexivity|].
    vm_compute. reflexivity.
Qed.

Lemma capacity_bound_witness :
  Queue.try_emplace 3 full_one 8 = Queue.Returns (Queue.RBool false) full_one /\
  Queue.pop 5 full_one = Queue.Returns (Queue.RValue 7) (after_remove full_one) /\
  Queue.try_emplace 5 (after_remove full_one) 8 =
    Queue.Returns (Queue.RBool true) (after_insert (after_remove full_one) 8).
Proof.
  assert (R : repr full_one [7]).
  { split; cbn; try lia; try reflexivity.
    - rewrite ticket_limit_eq. lia.
    - intros k Hk. assert (k = 0) as -> by lia. reflexivity. }
  pose proof (capacity_bound full_one [7] 8 R eq_refl) as (Hfull & Hrem & _).
  split; [exact (proj1 (Hfull eq_refl 0%nat))|].
  destruct (Hrem 7 [] 0%nat eq_refl) as (Hpop & _ & Hte).
  split; [exact Hpop|exact Hte].
Defined.


(** Two producers and one consumer on a queue of capacity two: the second
    producer overtakes the first, and the consumer waits for the first. *)
Definition mpmc_run : list (action (T:=Z)) :=
  [ Call 0 (Emplace 10); Call 1 (TryEmplace 20); Run 0;
    Run 1; Run 1; Run 1; Run 1; Run 1; Return 1;
    Call 2 Pop; Run 2; Run 2;
    Run 0; Run 0; Run 0;
    Run 2; Run 2; Run 2; Run 2; Return 2; Return 0;
    Call 2 TryPop; Run 2; Run 2; Run 2; Run 2; Run 2; Run 2; Return 2 ].

Definition mpmc_final : system (T:=Z) :=
  {| shared :=
       {| Queue.max_capacity := 2;
          Queue.slots := [ {| Slot.turn := 2; Slot.storage := None |};
                           {| Slot.turn := 2; Slot.storage := None |};
                           Slot.fresh ];
          Queue.head := 2; Queue.tail := 2 |};
     pool := ∅;
     history := [ (1%nat, (TryEmplace 20, Queue.RBool true));
                  (2%nat, (Pop, Queue.RValue 10));
                  (0%nat, (Emplace 10, Queue.RVoid));
                  (2%nat, (TryPop, Queue.ROptional (Some 20))) ] |}.

(** One producer (thread 0) and one consumer (thread 1); the consumer
    returns before the producer does. *)
Definition spsc_run : list (action (T:=Z)) :=
  [ Call 0 (Push 10); Call 1 Pop; Run 1; Run 0; Run 1;
    Run 0; Run 0; Run 0; Run 1; Run 1; Run 1; Run 1; Return 1 ].

Definition spsc_state : system (T:=Z) :=
  {| shared :=
       {| Queue.max_capacity := 2;
          Queue.slots := [ {| Slot.turn := 2; Slot.storage := None |};
                           Slot.fresh; Slot.fresh ];
          Queue.head := 1; Queue.tail := 1 |};
     pool := {[ 0%nat := (Push 10, Queue.EmDone) ]};
     history := [ (1%nat, (Pop, Queue.RValue 10)) ] |}.




(** The type in which each call answers. *)
Definition answers_in_type {T : Type} (c : call (T:=T)) (r : Queue.retval T) : Prop :=
  match c with
  | Emplace _ | Push _ => r = Queue.RVoid
  | TryEmplace _ | TryPush _ => exists b, r = Queue.RBool b
  | Pop => exists x, r = Queue.RValue x
  | TryPop => exists o, r = Queue.ROptional o
  end.

Lemma invoke_answers {T : Type} fuel (q : Queue.queue T) c r q' :
  invoke fuel q c = Queue.Returns r q' -> answers_in_type c r.
Proof.
  intros H. rewrite invoke_entry in H.
  destruct (run_belongs fuel c (entry c) q r q' (belongs_entry c) H)
    as (p' & Hb & Hr).
  destruct c, p'; cbn in Hb, Hr; try contradiction; try discriminate;
    injection Hr as <-; cbn; eauto.
Qed.

(** C8: the constructor throws [std::bad_alloc] exactly when the allocation
    of the slot array fails or its address is not a multiple of the
    alignment of the slot type; every call that returns answers in the type
    of its function (nothing, a boolean, a value, an optional). The
    constraints on the element type exclude a throwing element operation in
    every inserting member, and in the removing members for an element type
    whose move constructor cannot throw; but [pop] and [try_pop] accept an
    element type whose move constructor can throw, and move-construct from
    the slot. *)
Theorem throwing_move_accepted {T : Type} :
  (forall allocate alignment capacity,
     construct (T:=T) allocate alignment capacity = BadAlloc <->
     allocate (wrap (capacity + 1)) = None \/
     exists address, allocate (wrap (capacity + 1)) = Some address /\
                     address mod alignment <> 0) /\
  (forall fuel (q : Queue.queue T) c r q',
     invoke fuel q c = Queue.Returns r q' -> answers_in_type c r) /\
  (forall m t, Traits.removes m = false -> Traits.accepted m t = true ->
               Traits.excluded m t = true) /\
  (forall m t, Traits.removes m = true -> Traits.accepted m t = true ->
               Traits.nothrow_move_constructible t = true ->
               Traits.excluded m t = true) /\
  Traits.accepted Traits.try_pop Traits.throwing_move = true /\
  Traits.accepted Traits.pop Traits.throwing_move = true /\
  In Traits.FromRvalue (Traits.performs Traits.try_pop) /\
  In Traits.FromRvalue (Traits.performs Traits.pop) /\
  Traits.may_throw Traits.throwing_move Traits.FromRvalue = true /\
  Traits.excluded Traits.try_pop Traits.throwing_move = false /\
  Traits.excluded Traits.pop Traits.throwing_move = false.
Proof.
  split; [intros allocate alignment capacity; apply construct_throws|].
  split; [intros fuel q c r q'; apply invoke_answers|].
  split; [exact Traits.inserts_excluded|].
  split; [exact Traits.removes_excluded|].
  repeat split; cbn; auto.
Qed.

(** * Further properties of the code *)

(** ** [size] and [empty] *)

Section Size.
Context {T : Type}.
Implicit Types (q : Queue.queue T) (l : list T).

Lemma to_ptrdiff_small z : 0 <= z <= ticket_limit -> to_ptrdiff (wrap z) = z.
Proof.
  intros Hz. rewrite ticket_limit_eq in Hz.
  rewrite wrap_small by (rewrite size_modulus_eq; lia).
  unfold to_ptrdiff, size_bits. destruct (Z.ltb_spec z (2 ^ (64 - 1))); [reflexivity|].
  change (2 ^ (64 - 1)) with 9223372036854775808 in *. lia.
Qed.

Lemma size_difference q :
  0 <= Queue.tail q <= Queue.head q -> Queue.head q <= ticket_limit ->
  Queue.size q = Queue.head q - Queue.tail q.
Proof. intros Ht Hh. unfold Queue.size. apply to_ptrdiff_small. lia. Qed.

Lemma size_minus_one q :
  0 <= Queue.head q -> Queue.head q <= ticket_limit ->
  Queue.size (Queue.set_tail q (Queue.head q + 1)) = -1.
Proof.
  intros H0 Hh. unfold Queue.size. cbn [Queue.set_tail Queue.head Queue.tail].
  replace (Queue.head q - (Queue.head q + 1)) with (-1) by lia. reflexivity.
Qed.
End Size.

(** X1: on a queue that holds the elements [l] with no call in progress,
    [size] is the number of elements, it lies between 0 and the capacity,
    and [empty] answers [true] exactly when there is no element. *)
Theorem size_counts_elements {T : Type} (q : Queue.queue T) (l : list T) :
  repr q l ->
  Queue.size q = Z.of_nat (length l) /\
  0 <= Queue.size q <= Queue.max_capacity q /\
  (Queue.empty q = true <-> l = []).
Proof.
  intros R. pose proof (repr_range q l R) as Hr.
  pose proof (repr_head q l R) as Hh. pose proof (repr_bound q l R) as Hb.
  assert (Hs : Queue.size q = Z.of_nat (length l))
    by (rewrite size_difference by lia; lia).
  split; [exact Hs|]. split; [lia|].
  unfold Queue.empty. rewrite Hs. destruct l as [|x l'].
  - split; reflexivity.
  - split; [|discriminate]. intros H. apply Z.leb_le in H. cbn [length] in H. lia.
Qed.

Lemma full_one_repr : repr full_one [7].
Proof.
  split; cbn; try lia; try reflexivity.
  - rewrite ticket_limit_eq. lia.
  - intros k Hk. assert (k = 0) as -> by lia. reflexivity.
Defined.

Lemma size_counts_elements_witness :
  Queue.size full_one = 1 /\ 0 <= Queue.size full_one <= 1 /\
  (Queue.empty full_one = true <-> [7] = []).
Proof. exact (size_counts_elements full_one [7] full_one_repr). Defined.

(** X2: a [pop] that starts on an empty queue takes its ticket at once and
    then waits; from then on [size] is [-1] and [empty] still answers
    [true], as the comment on [size] warns. *)
Theorem size_negative_while_reader_waits {T : Type} (q : Queue.queue T) :
  repr q [] -> Queue.tail q < ticket_limit ->
  exists q',
    Queue.step Queue.PopFetchAdd q = Some (Queue.PopSpin (Queue.tail q), q') /\
    Queue.step (Queue.PopSpin (Queue.tail q)) q' =
      Some (Queue.PopSpin (Queue.tail q), q') /\
    Queue.size q' = -1 /\ Queue.empty q' = true.
Proof.
  intros R Hlim. pose proof (repr_range q [] R) as Hr.
  pose proof (repr_head q [] R) as Hh. cbn [length] in Hh.
  pose proof (repr_cap q [] R) as Hc.
  pose proof (repr_empty_slot q R) as Hs.
  exists (Queue.set_tail q (Queue.tail q + 1)).
  assert (Hsz : Queue.size (Queue.set_tail q (Queue.tail q + 1)) = -1).
  { replace (Queue.tail q) with (Queue.head q) by lia.
    apply size_minus_one; lia. }
  split; [|split; [|split]].
  - cbn [Queue.step]. rewrite wrap_succ by lia.
    rewrite target_set_tail, (target_lookup q _ _ Hc Hs). reflexivity.
  - apply (pop_spin_waits (Queue.set_tail q (Queue.tail q + 1)) (Queue.tail q)
             (cell (Queue.tail q) (Queue.max_capacity q) None));
      [exact Hc|lia|exact Hs|cbn; lia].
  - exact Hsz.
  - unfold Queue.empty. now rewrite Hsz.
Qed.

Lemma size_negative_while_reader_waits_witness :
  exists q',
    Queue.step Queue.PopFetchAdd (initial (T:=Z) 1) = Some (Queue.PopSpin 0, q') /\
    Queue.step (Queue.PopSpin 0) q' = Some (Queue.PopSpin 0, q') /\
    Queue.size q' = -1 /\ Queue.empty q' = true.
Proof.
  refine (size_negative_while_reader_waits (initial (T:=Z) 1)
            (repr_initial 1 eq_refl) eq_refl).
Defined.

(** ** Reachable states of concurrent executions *)

Section Reachable.
Context {T : Type}.
Variable C : Z.
Hypothesis C_pos : 0 < C.
Implicit Types (q : Queue.queue T) (p : Queue.pc T) (c : call (T:=T))
  (σ : system (T:=T)) (wv : list T).

Lemma turn_of_defined q k j :
  Queue.max_capacity q = C -> is_Some (Queue.turn_of q k j).
Proof.
  intros Hc. unfold Queue.turn_of, Queue.get_current_turn. rewrite Hc.
  destruct (Z.eqb_spec C 0); [lia|]. cbn. eauto.
Qed.

(** No thread of a reachable state is about to divide by zero, subscript
    out of range, or touch an object that is not alive. *)
Lemma step_defined n σ wv done i c p :
  inv C n σ wv done -> pool σ !! i = Some (c, p) ->
  is_Some (Queue.step p (shared σ)).
Proof.
  intros I Hi.
  pose proof (inv_cap C _ _ _ _ I) as Hc. pose proof (inv_len C _ _ _ _ I) as Hl.
  pose proof (inv_phase C _ _ _ _ I _ _ _ Hi) as Hph.
  assert (Htg : forall k, Queue.target (shared σ) k =
                          Some (k mod C, slot_of C (shared σ) k))
    by (intros k; now apply target_slot_of).
  assert (Hto : forall k j, is_Some (Queue.turn_of (shared σ) k j))
    by (intros k j; now apply turn_of_defined).
  destruct p; cbn [Queue.step phase_of phase_ok] in *;
    rewrite ?target_set_head, ?target_set_tail, ?Htg; cbn [mbind option_bind];
    try (match goal with
         | |- context [Queue.turn_of ?a ?b ?d] =>
             destruct (Hto b d) as [? ->]; cbn [mbind option_bind]
         end);
    try (match goal with
         | |- context [if ?b then _ else _] => destruct b
         end); eauto.
  - destruct Hph as (_ & _ & x & Hx & _). unfold store_at in Hx.
    unfold Slot.move. rewrite Hx. cbn. eauto.
  - destruct Hph as (_ & _ & Hx & _). unfold store_at in Hx.
    unfold Slot.destroy. rewrite Hx. cbn. eauto.
  - destruct Hph as (_ & _ & x & Hx & _). unfold store_at in Hx.
    unfold Slot.move. rewrite Hx. cbn. eauto.
  - destruct Hph as (_ & _ & Hx & _). unfold store_at in Hx.
    unfold Slot.destroy. rewrite Hx. cbn. eauto.
Qed.

(** The ticket of a thread that is inside a critical section: between the
    end of its wait and the store that publishes the next turn. *)
Definition owned (ph : phase (T:=T)) : option Z :=
  match ph with
  | WOwn h _ | WBuilt h _ => Some h
  | ROwn t | RTook t _ | RFreed t _ => Some t
  | _ => None
  end.

Lemma owned_turn wv q ph h :
  phase_ok C wv q ph -> owned ph = Some h ->
  0 <= h /\
  ((wticket ph = Some h /\ turn_at C q h = 2 * (h / C)) \/
   (rticket ph = Some h /\ turn_at C q h = 2 * (h / C) + 1)).
Proof.
  destruct ph; cbn [owned phase_ok wticket rticket]; try discriminate;
    intros Hok [= ->]; (split; [lia|]);
    first [ left; split; [reflexivity|tauto]
          | right; split; [reflexivity|tauto] ].
Qed.

Lemma exclusive n σ wv done i j ci pi cj pj h k :
  inv C n σ wv done ->
  pool σ !! i = Some (ci, pi) -> pool σ !! j = Some (cj, pj) ->
  owned (phase_of pi) = Some h -> owned (phase_of pj) = Some k ->
  h mod C = k mod C -> i = j.
Proof.
  intros I Hi Hj Oi Oj Hslot.
  destruct (owned_turn wv (shared σ) _ h (inv_phase C _ _ _ _ I _ _ _ Hi) Oi)
    as [Hh [[Wi Ti]|[Ri Ti]]];
  destruct (owned_turn wv (shared σ) _ k (inv_phase C _ _ _ _ I _ _ _ Hj) Oj)
    as [Hk [[Wj Tj]|[Rj Tj]]];
  rewrite (turn_at_congr C (shared σ) h k Hslot) in Ti.
  - assert (h = k) as -> by (apply (same_slot_eq C C_pos); lia).
    exact (inv_wuniq C _ _ _ _ I i j _ _ _ _ k Hi Hj Wi Wj).
  - lia.
  - lia.
  - assert (h = k) as -> by (apply (same_slot_eq C C_pos); lia).
    exact (inv_runiq C _ _ _ _ I i j _ _ _ _ k Hi Hj Ri Rj).
Qed.

(** With no call in progress, the counters count the completed calls. *)
Lemma quiescent_counts n σ wv done :
  inv C n σ wv done -> quiescent σ ->
  Z.of_nat (length (inserted_in σ)) = Queue.head (shared σ) /\
  Z.of_nat (length (removed_in σ)) = Queue.tail (shared σ) /\
  0 <= Queue.tail (shared σ) <= Queue.head (shared σ).
Proof.
  intros I Hq.
  pose proof (inv_head C _ _ _ _ I) as Hh. pose proof (inv_tail C _ _ _ _ I) as Ht.
  assert (Hle : Queue.tail (shared σ) <= Queue.head (shared σ)).
  { destruct (Z.eq_dec (Queue.tail (shared σ)) 0) as [E|E]; [lia|].
    destruct (inv_done_cover C _ _ _ _ I (Queue.tail (shared σ) - 1) ltac:(lia))
      as [Hin|(j & cj & pj & Hj & _)].
    - apply list_elem_of_fmap in Hin as ([t x] & Et & Hin). cbn in Et. subst t.
      destruct (inv_done_val C _ _ _ _ I _ _ Hin) as [_ Hx].
      apply lookup_lt_Some in Hx. lia.
    - rewrite Hq, lookup_empty in Hj. discriminate. }
  rewrite (quiescent_inserted C n σ wv done I Hq).
  rewrite (quiescent_removed C n σ wv done I Hq), length_take.
  split; [lia|]. split; [lia|lia].
Qed.
End Reachable.

(** A producer that has taken ticket 0 and is about to construct. *)
Definition building_run : list (action (T:=Z)) :=
  [ Call 0 (Push 10); Run 0; Run 0 ].

Definition building_state : system (T:=Z) :=
  {| shared := Queue.set_head (initial 2) 1;
     pool := {[ 0%nat := (Push 10, Queue.EmConstruct 10 0) ]};
     history := [] |}.

(** One completed [emplace] and nothing else. *)
Definition one_inside_run : list (action (T:=Z)) :=
  [ Call 0 (Emplace 10); Run 0; Run 0; Run 0; Run 0; Return 0 ].

Definition one_inside : system (T:=Z) :=
  {| shared :=
       {| Queue.max_capacity := 2;
          Queue.slots := [ {| Slot.turn := 1; Slot.storage := Some 10 |};
                           Slot.fresh; Slot.fresh ];
          Queue.head := 1; Queue.tail := 0 |};
     pool := ∅;
     history := [ (0%nat, (Emplace 10, Queue.RVoid)) ] |}.





(** ** Destruction of the queue *)

Section Teardown.
Context {T : Type}.
Implicit Types (q : Queue.queue T) (l : list (Slot.slot T)) (s : Slot.slot T).

(** Runs [~slot] on the slots at the given indices, in order. *)
Fixpoint destroy_slots (indices : list nat) l : option (list (Slot.slot T)) :=
  match indices with
  | [] => Some l
  | i :: rest =>
      s ← l !! i;
      s' ← Slot.dtor s;
      destroy_slots rest (<[i := s']> l)
  end.

(** [~queue], queue.hpp:39-43: the explicit [slots[i].~slot()] for
    [i < max_capacity], and then the destruction of the member [slots]
    (queue.hpp:199), whose [delete[]] runs [~slot] on each of the allocated
    slots, last to first. The result is the slot array as it is left. *)
Definition teardown q : option (list (Slot.slot T)) :=
  l ← destroy_slots (seq 0 (Z.to_nat (Queue.max_capacity q))) (Queue.slots q);
  destroy_slots (reverse (seq 0 (length l))) l.

(** A slot whose object has been destroyed while its turn stayed odd. *)
Definition stale s : Prop := Z.odd (Slot.turn s) = true /\ Slot.storage s = None.

Lemma dtor_stale s : stale s -> Slot.dtor s = None.
Proof.
  intros [Ho Hs]. rewrite (dtor_odd s Ho). unfold Slot.destroy. now rewrite Hs.
Qed.

Lemma dtor_makes_stale s s' :
  Z.odd (Slot.turn s) = true -> Slot.dtor s = Some s' -> stale s'.
Proof.
  intros Ho H. rewrite (dtor_odd s Ho) in H. unfold Slot.destroy in H.
  destruct (Slot.storage s); [|discriminate]. injection H as <-.
  split; [exact Ho|reflexivity].
Qed.

Lemma destroy_slots_length indices : forall l l',
  destroy_slots indices l = Some l' -> length l' = length l.
Proof.
  induction indices as [|j rest IH]; intros l l' H; cbn [destroy_slots] in H.
  - now injection H as <-.
  - destruct (l !! j) as [sj|]; [|discriminate]. cbn in H.
    destruct (Slot.dtor sj) as [sj'|]; [|discriminate]. cbn in H.
    rewrite (IH _ _ H). apply length_insert.
Qed.

Lemma destroy_slots_other indices : forall l l' i,
  destroy_slots indices l = Some l' -> i ∉ indices -> l' !! i = l !! i.
Proof.
  induction indices as [|j rest IH]; intros l l' i H Hi; cbn [destroy_slots] in H.
  - now injection H as <-.
  - destruct (l !! j) as [sj|]; [|discriminate]. cbn in H.
    destruct (Slot.dtor sj) as [sj'|]; [|discriminate]. cbn in H.
    apply not_elem_of_cons in Hi as [Hne Hi].
    rewrite (IH _ _ i H Hi). apply list_lookup_insert_ne. congruence.
Qed.

(** Running [~slot] a second time on a slot with an odd turn is undefined. *)
Lemma destroy_slots_stale indices : forall l i s,
  l !! i = Some s -> stale s -> i ∈ indices -> destroy_slots indices l = None.
Proof.
  induction indices as [|j rest IH]; intros l i s Hs Hst Hi.
  - now apply elem_of_nil in Hi.
  - cbn [destroy_slots]. destruct (decide (j = i)) as [->|Hne].
    + rewrite Hs. cbn. now rewrite (dtor_stale s Hst).
    + destruct (l !! j) as [sj|]; [|reflexivity]. cbn.
      destruct (Slot.dtor sj) as [sj'|]; [|reflexivity]. cbn.
      apply (IH _ i s); [|exact Hst|].
      * rewrite list_lookup_insert_ne by exact Hne. exact Hs.
      * apply elem_of_cons in Hi as [->|Hi]; [contradiction|exact Hi].
Qed.

Lemma destroy_slots_odd indices : forall l l' i s,
  destroy_slots indices l = Some l' -> i ∈ indices ->
  l !! i = Some s -> Z.odd (Slot.turn s) = true ->
  exists s', l' !! i = Some s' /\ stale s'.
Proof.
  induction indices as [|j rest IH]; intros l l' i s H Hi Hs Ho.
  - now apply elem_of_nil in Hi.
  - cbn [destroy_slots] in H.
    destruct (l !! j) as [sj|] eqn:Ej; [|discriminate]. cbn in H.
    destruct (Slot.dtor sj) as [sj'|] eqn:Ed; [|discriminate]. cbn in H.
    destruct (decide (j = i)) as [->|Hne].
    + rewrite Hs in Ej. injection Ej as <-.
      pose proof (dtor_makes_stale s sj' Ho Ed) as Hst.
      assert (Hl : <[i := sj']> l !! i = Some sj')
        by (apply list_lookup_insert_eq; now apply lookup_lt_Some in Hs).
      destruct (decide (i ∈ rest)) as [Hin|Hnin].
      * now rewrite (destroy_slots_stale rest _ i sj' Hl Hst Hin) in H.
      * exists sj'. split; [|exact Hst].
        now rewrite (destroy_slots_other rest _ l' i H Hnin).
    + apply (IH _ l' i s H); [|now rewrite list_lookup_insert_ne|exact Ho].
      apply elem_of_cons in Hi as [->|Hi]; [contradiction|exact Hi].
Qed.

Lemma destroy_slots_even indices : forall l,
  Forall (fun s => Z.odd (Slot.turn s) = false) l ->
  Forall (fun i => (i < length l)%nat) indices ->
  destroy_slots indices l = Some l.
Proof.
  induction indices as [|j rest IH]; intros l He Hi; [reflexivity|].
  cbn [destroy_slots]. apply Forall_cons in Hi as [Hj Hi].
  destruct (lookup_lt_is_Some_2 l j Hj) as [sj Ej]. rewrite Ej. cbn.
  rewrite Forall_lookup in He. rewrite (dtor_even sj (He _ _ Ej)). cbn.
  rewrite (list_insert_id l j sj Ej). apply IH; [now rewrite Forall_lookup|exact Hi].
Qed.

Lemma teardown_live q i s :
  Queue.slots q !! i = Some s -> (i < Z.to_nat (Queue.max_capacity q))%nat ->
  Z.odd (Slot.turn s) = true -> teardown q = None.
Proof.
  intros Hs Hi Ho. unfold teardown.
  destruct (destroy_slots _ (Queue.slots q)) as [l|] eqn:E; [|reflexivity]. cbn.
  destruct (destroy_slots_odd _ _ l i s E ltac:(apply elem_of_seq; lia) Hs Ho)
    as (s' & Hs' & Hst).
  apply (destroy_slots_stale _ l i s' Hs' Hst).
  apply elem_of_reverse, elem_of_seq. apply lookup_lt_Some in Hs'. lia.
Qed.

Lemma teardown_even q :
  Forall (fun s => Z.odd (Slot.turn s) = false) (Queue.slots q) ->
  (Z.to_nat (Queue.max_capacity q) <= length (Queue.slots q))%nat ->
  teardown q = Some (Queue.slots q).
Proof.
  intros He Hl. unfold teardown. rewrite destroy_slots_even; cbn.
  - apply destroy_slots_even; [exact He|].
    apply Forall_forall. intros i Hi. apply elem_of_reverse, elem_of_seq in Hi. lia.
  - exact He.
  - apply Forall_forall. intros i Hi. apply elem_of_seq in Hi. lia.
Qed.
End Teardown.

(** X6: destroying a queue in which some slot of the ring has an odd turn
    (it holds an element that was never removed) destroys that element
    twice, once in the loop of [~queue] and once more when the slot array is
    deleted: the second destruction is undefined. Destroying a queue whose
    turns are all even destroys no element and is defined. In particular a
    queue with no call in progress can be destroyed exactly when it is
    empty. *)
Theorem teardown_destroys_twice {T : Type} (q : Queue.queue T) :
  (forall i s,
     Queue.slots q !! i = Some s -> (i < Z.to_nat (Queue.max_capacity q))%nat ->
     Z.odd (Slot.turn s) = true -> teardown q = None) /\
  (Forall (fun s => Z.odd (Slot.turn s) = false) (Queue.slots q) ->
   (Z.to_nat (Queue.max_capacity q) <= length (Queue.slots q))%nat ->
   teardown q = Some (Queue.slots q)) /\
  (forall l, repr q l -> (is_Some (teardown q) <-> l = [])).
Proof.
  split; [intros i s; apply teardown_live|]. split; [apply teardown_even|].
  intros l R. pose proof (repr_cap q l R) as Hc. pose proof (repr_len q l R) as Hl.
  destruct l as [|x l'].
  - split; [reflexivity|intros _].
    rewrite teardown_even; [eauto| |lia].
    apply Forall_lookup. intros i s Hs.
    pose proof (lookup_lt_Some _ _ _ Hs) as Hlt.
    destruct (decide (Z.of_nat i = Queue.max_capacity q)) as [E|E].
    + pose proof (repr_spare q _ R) as Hsp. unfold Queue.slot_at in Hsp.
      rewrite <- E, Nat2Z.id, Hs in Hsp. now injection Hsp as ->.
    + pose proof (repr_ring q _ R ((Z.of_nat i - Queue.tail q) mod Queue.max_capacity q)
                    ltac:(apply Z.mod_pos_bound; lia)) as Hr.
      rewrite Zplus_mod_idemp_r in Hr.
      replace (Queue.tail q + (Z.of_nat i - Queue.tail q)) with (Z.of_nat i) in Hr by lia.
      rewrite Z.mod_small in Hr by lia. unfold Queue.slot_at in Hr.
      rewrite Nat2Z.id, Hs, lookup_nil in Hr. injection Hr as ->.
      cbn. rewrite Z.odd_add, Z.odd_mul. reflexivity.
  - split; [|discriminate]. intros [r Hr]. exfalso.
    pose proof (repr_tail_slot q x l' R) as Hs. unfold Queue.slot_at in Hs.
    pose proof (Z.mod_pos_bound (Queue.tail q) _ Hc) as Hb.
    rewrite (teardown_live q _ _ Hs) in Hr; [discriminate|lia|].
    cbn. rewrite Z.odd_add, Z.odd_mul. reflexivity.
Qed.

Lemma teardown_destroys_twice_witness :
  teardown full_one = None /\
  teardown (initial (T:=Z) 1) = Some (Queue.slots (initial 1)).
Proof.
  pose proof (teardown_destroys_twice full_one) as (Hlive & _ & _).
  pose proof (teardown_destroys_twice (initial (T:=Z) 1)) as (_ & Heven & _).
  split.
  - exact (Hlive 0%nat {| Slot.turn := 1; Slot.storage := Some 7 |}
             eq_refl ltac:(vm_compute; lia) eq_refl).
  - apply Heven; [apply Forall_replicate; reflexivity|vm_compute; lia].
Defined.

(** X7: for every capacity below [SIZE_MAX] the constructor, once the
    allocation has succeeded, builds [capacity + 1] slots with turn 0 and
    no object, and both counters at 0, so that [size] is 0 and [empty]
    holds; for capacity [SIZE_MAX] the size [capacity + 1] of the
    allocation wraps to 0 and the placement loop writes behind the end of
    the array. *)
Theorem constructor_result {T : Type} (capacity : Z) :
  0 <= capacity < size_modulus ->
  (capacity < size_modulus - 1 ->
   exists q : Queue.queue T,
     Queue.make capacity = Some q /\
     Queue.max_capacity q = capacity /\
     Z.of_nat (length (Queue.slots q)) = capacity + 1 /\
     Forall (fun s => s = Slot.fresh) (Queue.slots q) /\
     Queue.head q = 0 /\ Queue.tail q = 0 /\
     Queue.size q = 0 /\ Queue.empty q = true) /\
  (capacity = size_modulus - 1 ->
   wrap (capacity + 1) = 0 /\
   Queue.make (T:=T) capacity = None /\
   forall allocate alignment address,
     allocate 0 = Some address -> address mod alignment = 0 ->
     construct (T:=T) allocate alignment capacity = Overrun).
Proof.
  intros Hc. split.
  - intros Hlt. exists (initial capacity).
    split; [apply make_initial; lia|]. split; [reflexivity|].
    split; [cbn; rewrite length_replicate; lia|].
    split; [cbn; now apply Forall_replicate|]. repeat split.
  - intros ->.
    assert (Hw : wrap (size_modulus - 1 + 1) = 0).
    { replace (size_modulus - 1 + 1) with size_modulus by lia.
      unfold wrap. apply Z.mod_same. rewrite size_modulus_eq. lia. }
    assert (Hm : Queue.make (T:=T) (size_modulus - 1) = None).
    { unfold Queue.make. rewrite Hw.
      rewrite placement_loop_short; [reflexivity|].
      rewrite length_replicate, size_modulus_eq. lia. }
    split; [exact Hw|]. split; [exact Hm|].
    intros allocate alignment address Ha Hal. unfold construct.
    now rewrite Hw, Ha, Hal, Hm.
Qed.

Lemma constructor_result_witness :
  exists q : Queue.queue Z,
    Queue.make 3 = Some q /\
    Queue.max_capacity q = 3 /\
    Z.of_nat (length (Queue.slots q)) = 3 + 1 /\
    Forall (fun s => s = Slot.fresh) (Queue.slots q) /\
    Queue.head q = 0 /\ Queue.tail q = 0 /\
    Queue.size q = 0 /\ Queue.empty q = true.
Proof.
  refine (proj1 (constructor_result 3 _) _).
  - split; [discriminate|reflexivity].
  - reflexivity.
Defined.

(** X8: on a queue that holds the elements [l] with no call in progress,
    every call behaves as on a first-in first-out buffer of [max_capacity]
    places: where the buffer answers, the call returns that answer within
    six steps and leaves a queue that holds the buffer's new contents;
    where the buffer would have to wait (insert into a full one, remove
    from an empty one), the blocking call never returns; and a call that
    returns has answered as the buffer does. *)
Theorem calls_refine_fifo {T : Type} (q : Queue.queue T) (l : list T)
    (c : call (T:=T)) :
  repr q l -> Queue.head q < ticket_limit ->
  (forall r l', fifo_call (Queue.max_capacity q) l c = Some (r, l') ->
     exists q', invoke 6 q c = Queue.Returns r q' /\ repr q' l') /\
  (fifo_call (Queue.max_capacity q) l c = None ->
     forall fuel, invoke fuel q c = Queue.Spinning) /\
  (forall fuel r q', invoke fuel q c = Queue.Returns r q' ->
     exists l', fifo_call (Queue.max_capacity q) l c = Some (r, l') /\ repr q' l').
Proof.
  intros R Hlim. pose proof (repr_bound q l R) as Hb.
  pose proof (repr_range q l R) as Hr. pose proof (repr_head q l R) as Hh.
  split; [|split].
  - intros r l' H.
    destruct c as [v|v|v|v| |]; cbn [fifo_call invoke Queue.push Queue.try_push] in *.
    + destruct (Z.ltb_spec (Z.of_nat (length l)) (Queue.max_capacity q)); [|discriminate].
      injection H as <- <-. exists (after_insert q v).
      split; [now apply (emplace_room 2 q l v)|now apply repr_after_insert].
    + destruct (Z.ltb_spec (Z.of_nat (length l)) (Queue.max_capacity q));
        injection H as <- <-.
      * exists (after_insert q v).
        split; [now apply (try_emplace_room 1 q l v)|now apply repr_after_insert].
      * exists q. split; [apply (try_emplace_full 3 q l v R); lia|exact R].
    + destruct (Z.ltb_spec (Z.of_nat (length l)) (Queue.max_capacity q)); [|discriminate].
      injection H as <- <-. exists (after_insert q v).
      split; [now apply (emplace_room 2 q l v)|now apply repr_after_insert].
    + destruct (Z.ltb_spec (Z.of_nat (length l)) (Queue.max_capacity q));
        injection H as <- <-.
      * exists (after_insert q v).
        split; [now apply (try_emplace_room 1 q l v)|now apply repr_after_insert].
      * exists q. split; [apply (try_emplace_full 3 q l v R); lia|exact R].
    + destruct l as [|x l0]; [discriminate|]. injection H as <- <-.
      exists (after_remove q).
      split; [now apply (pop_some 1 q x l0)|now apply (repr_after_remove q x)].
    + destruct l as [|x l0]; injection H as <- <-.
      * exists q. split; [now apply (try_pop_empty 3 q)|exact R].
      * exists (after_remove q).
        split; [now apply (try_pop_some 0 q x l0)|now apply (repr_after_remove q x)].
  - intros H fuel.
    destruct c as [v|v|v|v| |]; cbn [fifo_call invoke Queue.push Queue.try_push] in *.
    + destruct (Z.ltb_spec (Z.of_nat (length l)) (Queue.max_capacity q)); [discriminate|].
      apply (emplace_full q l v R); lia.
    + destruct (Z.of_nat (length l) <? Queue.max_capacity q); discriminate.
    + destruct (Z.ltb_spec (Z.of_nat (length l)) (Queue.max_capacity q)); [discriminate|].
      apply (emplace_full q l v R); lia.
    + destruct (Z.of_nat (length l) <? Queue.max_capacity q); discriminate.
    + destruct l as [|x l0]; [|discriminate]. cbn [length] in Hh.
      apply (pop_empty q R). lia.
    + destruct l; discriminate.
  - intros fuel r q' H.
    destruct (invoke_refines fuel q l c r q' R Hlim H) as (l' & Hf & R' & _).
    eauto.
Qed.

Lemma calls_refine_fifo_witness :
  (exists q', invoke 6 full_one (TryEmplace 8) = Queue.Returns (Queue.RBool false) q' /\
              repr q' [7]) /\
  (exists q', invoke 6 full_one Pop = Queue.Returns (Queue.RValue 7) q' /\
              repr q' []) /\
  (forall fuel, invoke fuel full_one (Emplace 8) = Queue.Spinning).
Proof.
  split; [|split].
  - exact (proj1 (calls_refine_fifo full_one [7] (TryEmplace 8) full_one_repr eq_refl)
             (Queue.RBool false) [7] eq_refl).
  - exact (proj1 (calls_refine_fifo full_one [7] Pop full_one_repr eq_refl)
             (Queue.RValue 7) [] eq_refl).
  - exact (proj1 (proj2 (calls_refine_fifo full_one [7] (Emplace 8) full_one_repr eq_refl))
             eq_refl).
Defined.

(** X9: the blocking [pop] answers only with an element. Once the slot of
    its ticket [t] shows turn [2 * (t div C) + 1] it finishes within four
    steps: it returns the element of the slot and leaves the slot without
    an object at turn [2 * (t div C) + 2]; as long as the slot shows
    another turn it stays in its loop, so on an empty queue into which
    nobody inserts it never returns. *)
Theorem blocking_pop {T : Type} (q : Queue.queue T) :
  0 < Queue.max_capacity q ->
  (forall fuel r q', Queue.pop fuel q = Queue.Returns r q' ->
     exists x, r = Queue.RValue x) /\
  (forall fuel t s x,
     0 <= t <= ticket_limit ->
     Queue.slot_at q (t mod Queue.max_capacity q) = Some s ->
     Slot.turn s = 2 * (t / Queue.max_capacity q) + 1 ->
     Slot.storage s = Some x ->
     Queue.run (4 + fuel) (Queue.PopSpin t) q =
     Queue.Returns (Queue.RValue x)
       (Queue.set_slot q (t mod Queue.max_capacity q)
          {| Slot.turn := 2 * (t / Queue.max_capacity q) + 2;
             Slot.storage := None |})) /\
  (forall t s,
     0 <= t <= ticket_limit ->
     Queue.slot_at q (t mod Queue.max_capacity q) = Some s ->
     Slot.turn s <> 2 * (t / Queue.max_capacity q) + 1 ->
     forall fuel, Queue.run fuel (Queue.PopSpin t) q = Queue.Spinning) /\
  (repr q [] -> Queue.tail q < ticket_limit ->
   forall fuel, Queue.pop fuel q = Queue.Spinning).
Proof.
  intros Hc. split; [|split; [|split]].
  - intros fuel r q' H. exact (invoke_answers fuel q Pop r q' H).
  - intros fuel t s x Ht Hs Hturn Hx. now apply (pop_spin_ready fuel q t s x).
  - intros t s Ht Hs Hturn fuel. apply run_stuck; [reflexivity|].
    now apply (pop_spin_waits q t s).
  - intros R Hlim fuel. now apply (pop_empty q R).
Qed.

Lemma blocking_pop_witness :
  Queue.run 4 (Queue.PopSpin 0) full_one =
    Queue.Returns (Queue.RValue 7)
      (Queue.set_slot full_one (0 mod 1)
         {| Slot.turn := 2 * (0 / 1) + 2; Slot.storage := None |}) /\
  (forall fuel, Queue.pop fuel (initial (T:=Z) 1) = Queue.Spinning).
Proof.
  split.
  - refine (proj1 (proj2 (blocking_pop full_one eq_refl)) 0%nat 0
              {| Slot.turn := 1; Slot.storage := Some 7 |} 7 _ eq_refl eq_refl eq_refl).
    split; discriminate.
  - exact (proj2 (proj2 (proj2 (blocking_pop (initial (T:=Z) 1) eq_refl)))
             (repr_initial 1 eq_refl) eq_refl).
Defined.

(** X10: an [emplace] or [try_emplace] that runs alone and finds the slot
    of its ticket [h] at turn [2 * (h div C)] returns ([true], for
    [try_emplace]) and leaves the element in slot [h mod C] at turn
    [2 * (h div C) + 1], with [head] advanced by one and [tail] as it was;
    [try_emplace] returns [false] exactly when that slot shows another
    turn. *)
Theorem enqueue_effect {T : Type} (q : Queue.queue T) (s : Slot.slot T) (v : T) :
  0 < Queue.max_capacity q -> 0 <= Queue.head q < ticket_limit ->
  Queue.slot_at q (Queue.head q mod Queue.max_capacity q) = Some s ->
  (Slot.turn s = 2 * (Queue.head q / Queue.max_capacity q) ->
   forall fuel,
     Queue.emplace (4 + fuel) q v = Queue.Returns Queue.RVoid (inserted_state q v) /\
     Queue.try_emplace (5 + fuel) q v =
       Queue.Returns (Queue.RBool true) (inserted_state q v) /\
     Queue.slot_at (inserted_state q v) (Queue.head q mod Queue.max_capacity q) =
       Some {| Slot.turn := 2 * (Queue.head q / Queue.max_capacity q) + 1;
               Slot.storage := Some v |} /\
     Queue.head (inserted_state q v) = Queue.head q + 1 /\
     Queue.tail (inserted_state q v) = Queue.tail q) /\
  (forall fuel,
     (exists q', Queue.try_emplace (3 + fuel) q v =
                 Queue.Returns (Queue.RBool false) q') <->
     Slot.turn s <> 2 * (Queue.head q / Queue.max_capacity q)).
Proof.
  intros Hc Hh Hs. split.
  - intros Hturn fuel.
    split; [now apply (emplace_alone_ready fuel q v s)|].
    split; [now apply (try_emplace_alone_ready fuel q v s)|].
    split; [|split; reflexivity].
    unfold inserted_state.
    apply (slot_at_set_slot_eq (Queue.set_head q (Queue.head q + 1)) _ _ s). exact Hs.
  - intros fuel. split.
    + intros [q' H] Hturn.
      pose proof (target_lookup q _ s Hc Hs) as Htg.
      pose proof (turn_of_small q (Queue.head q) 0 Hc ltac:(lia) ltac:(lia)) as Hto.
      unfold Queue.try_emplace in H. cbn [Nat.add] in H.
      rewrite run_unfold in H. cbn [Queue.returned Queue.step] in H.
      rewrite run_unfold in H. cbn [Queue.returned Queue.step] in H.
      rewrite Htg in H. cbn [mbind option_bind] in H.
      rewrite Hto in H. cbn [mbind option_bind] in H.
      rewrite Hturn, Z.add_0_r, Z.eqb_refl in H.
      rewrite run_unfold in H. cbn [Queue.returned Queue.step] in H.
      rewrite Z.eqb_refl in H.
      destruct (run_failed fuel _ _ _ _ H eq_refl) as [Hp _]. discriminate Hp.
    + intros Hturn. exists q.
      apply (try_emplace_alone_full fuel q v s); [exact Hc|lia|exact Hs|exact Hturn].
Qed.

Lemma enqueue_effect_witness :
  Queue.emplace 4 (initial 1) 7 = Queue.Returns Queue.RVoid (inserted_state (initial 1) 7) /\
  Queue.try_emplace 5 (initial 1) 7 =
    Queue.Returns (Queue.RBool true) (inserted_state (initial 1) 7) /\
  Queue.slot_at (inserted_state (initial 1) 7) (0 mod 1) =
    Some {| Slot.turn := 2 * (0 / 1) + 1; Slot.storage := Some 7 |} /\
  Queue.head (inserted_state (initial 1) 7) = 0 + 1 /\
  Queue.tail (inserted_state (initial 1) 7) = 0.
Proof.
  refine (proj1 (enqueue_effect (initial 1) Slot.fresh 7 eq_refl _ eq_refl)
            eq_refl 0%nat).
  split; [discriminate|reflexivity].
Defined.

(** ** Filling and draining *)

Section Drain.
Context {T : Type}.
Implicit Types (q : Queue.queue T) (l vs : list T).

Lemma execute_app fuel (cs1 cs2 : list (call (T:=T))) : forall q h1 q1,
  execute fuel q cs1 = (h1, Some q1) ->
  execute fuel q (cs1 ++ cs2) =
  (h1 ++ (execute fuel q1 cs2).1, (execute fuel q1 cs2).2).
Proof.
  induction cs1 as [|c cs1 IH]; intros q h1 q1 H; cbn [execute app] in *.
  - injection H as <- <-. now destruct (execute fuel q cs2).
  - destruct (invoke fuel q c) as [r q'| |]; [|discriminate..].
    destruct (execute fuel q' cs1) as [h e] eqn:E. injection H as <- ->.
    rewrite (IH q' h q1 E). reflexivity.
Qed.

Lemma execute_fill vs : forall q l,
  repr q l -> Z.of_nat (length l + length vs) <= Queue.max_capacity q ->
  Queue.head q + Z.of_nat (length vs) <= ticket_limit ->
  exists q', execute 6 q (map Emplace vs) =
             (map (fun v => (Emplace v, Queue.RVoid)) vs, Some q') /\
             repr q' (l ++ vs).
Proof.
  induction vs as [|v vs IH]; intros q l R Hroom Hlim; cbn [map execute length] in *.
  - exists q. split; [reflexivity|now rewrite app_nil_r].
  - cbn [invoke].
    pose proof (emplace_room 2 q l v R ltac:(lia) ltac:(lia)) as E0.
    cbn [Nat.add] in E0. rewrite E0.
    assert (R' : repr (after_insert q v) (l ++ [v]))
      by (apply repr_after_insert; [exact R|lia|lia]).
    destruct (IH (after_insert q v) (l ++ [v]) R') as (q' & He & Rq).
    + rewrite length_app. cbn [length].
      change (Queue.max_capacity (after_insert q v)) with (Queue.max_capacity q). lia.
    + change (Queue.head (after_insert q v)) with (Queue.head q + 1). lia.
    + exists q'. rewrite He. split; [reflexivity|]. now rewrite <- app_assoc in Rq.
Qed.

Lemma execute_drain l : forall q,
  repr q l ->
  exists q', execute 6 q (replicate (length l) Pop) =
             (map (fun x => (Pop, Queue.RValue x)) l, Some q') /\
             repr q' [].
Proof.
  induction l as [|x l IH]; intros q R; cbn [length replicate map execute].
  - exists q. split; [reflexivity|exact R].
  - cbn [invoke]. pose proof (pop_some 1 q x l R) as E0.
    cbn [Nat.add] in E0. rewrite E0.
    destruct (IH (after_remove q) (repr_after_remove q x l R)) as (q' & He & Rq).
    exists q'. rewrite He. split; [reflexivity|exact Rq].
Qed.

Lemma inserted_emplaced vs :
  inserted (map (fun v : T => (Emplace v, Queue.RVoid)) vs) = vs /\
  removed (map (fun v : T => (Emplace v, Queue.RVoid)) vs) = [].
Proof.
  unfold inserted, removed. induction vs as [|v vs [IH1 IH2]]; [split; reflexivity|].
  cbn. rewrite IH1, IH2. split; reflexivity.
Qed.

Lemma removed_popped l :
  removed (map (fun x : T => (Pop, Queue.RValue x)) l) = l /\
  inserted (map (fun x : T => (Pop (T:=T), Queue.RValue x)) l) = [].
Proof.
  unfold inserted, removed. induction l as [|x l [IH1 IH2]]; [split; reflexivity|].
  cbn. rewrite IH1, IH2. split; reflexivity.
Qed.
Lemma repr_empty_size q :
  repr q [] -> Queue.size q = 0 /\ Queue.empty q = true.
Proof.
  intros R. pose proof (repr_range q [] R) as Hr.
  pose proof (repr_head q [] R) as Hh. cbn [length] in Hh.
  assert (Hs : Queue.size q = 0) by (rewrite size_difference by lia; lia).
  split; [exact Hs|]. unfold Queue.empty. now rewrite Hs.
Qed.
End Drain.

(** X11: on a freshly constructed queue of capacity [C], inserting at most
    [C] elements with [emplace] and then calling [pop] as many times
    returns exactly those elements in the order of insertion; every call
    returns, and the queue is empty again afterwards. *)
Theorem fill_and_drain {T : Type} (C : Z) (q0 : Queue.queue T) (vs : list T) :
  0 < C -> Queue.make C = Some q0 ->
  Z.of_nat (length vs) <= C -> Z.of_nat (length vs) <= ticket_limit ->
  exists h q',
    execute 6 q0 (map Emplace vs ++ replicate (length vs) Pop) = (h, Some q') /\
    h = map (fun v => (Emplace v, Queue.RVoid)) vs ++
        map (fun x => (Pop, Queue.RValue x)) vs /\
    inserted h = vs /\ removed h = vs /\
    repr q' [] /\ Queue.size q' = 0 /\ Queue.empty q' = true.
Proof.
  intros HC Hmake Hlen Hlim.
  destruct (make_inv C q0 ltac:(lia) Hmake) as [-> _].
  destruct (execute_fill vs (initial C) [] (repr_initial C HC)) as (q1 & He1 & R1);
    [cbn; lia|cbn; lia|].
  cbn [app] in R1.
  destruct (execute_drain vs q1 R1) as (q2 & He2 & R2).
  eexists; exists q2. rewrite (execute_app 6 _ _ _ _ _ He1), He2. cbn [fst snd].
  split; [reflexivity|]. split; [reflexivity|].
  destruct (inserted_emplaced vs) as [Hi1 Hr1].
  destruct (removed_popped vs) as [Hr2 Hi2].
  unfold inserted, removed in *. rewrite !map_app, !concat_app.
  rewrite Hi1, Hi2, Hr1, Hr2, app_nil_r. cbn [app].
  split; [reflexivity|]. split; [reflexivity|]. split; [exact R2|].
  exact (repr_empty_size q2 R2).
Qed.

Lemma fill_and_drain_witness :
  exists h q',
    execute 6 (initial 2) (map Emplace [10; 20] ++ replicate (length [10; 20]) Pop) =
      (h, Some q') /\
    h = map (fun v => (Emplace v, Queue.RVoid)) [10; 20] ++
        map (fun x => (Pop, Queue.RValue x)) [10; 20] /\
    inserted h = [10; 20] /\ removed h = [10; 20] /\
    repr q' [] /\ Queue.size q' = 0 /\ Queue.empty q' = true.
Proof.
  refine (fill_and_drain 2 (initial 2) [10; 20] eq_refl eq_refl _ _).
  - discriminate.
  - discriminate.
Defined.

(** ** What a quiescent state holds *)

Section Occupancy.
Context {T : Type}.
Variable C : Z.
Hypothesis C_pos : 0 < C.
Implicit Types (q : Queue.queue T) (p : Queue.pc T) (c : call (T:=T))
  (σ : system (T:=T)) (wv : list T).

(** Every ticket below [count] has been served up to turn
    [2 * generation + goal], or the thread that holds it is still inside
    its call. *)
Definition served (count : Queue.queue T -> Z) (tk : phase (T:=T) -> option Z)
    (goal : Z) σ : Prop :=
  forall k, 0 <= k < count (shared σ) ->
    2 * (k / C) + goal <= turn_at C (shared σ) k \/
    busy (pool σ) (fun ph => tk ph = Some k).

(** Writers publish turn [2g + 1], readers turn [2g + 2]. *)
Definition published := served Queue.head wticket 1.
Definition consumed := served Queue.tail rticket 2.

Lemma served_frame count tk goal σ q' i c p p' :
  pool σ !! i = Some (c, p) ->
  (count q' = count (shared σ) \/
   (count q' = count (shared σ) + 1 /\
    tk (phase_of p') = Some (count (shared σ)))) ->
  (forall k, turn_at C (shared σ) k <= turn_at C q' k) ->
  (forall k, tk (phase_of p) = Some k ->
             tk (phase_of p') = Some k \/ 2 * (k / C) + goal <= turn_at C q' k) ->
  served count tk goal σ ->
  served count tk goal (System q' (<[i := (c, p')]> (pool σ)) (history σ)).
Proof.
  intros Hi Hcount Hmono Hkeep Hp k Hk. cbn [shared pool] in *.
  assert (Hold : 0 <= k < count (shared σ) ->
                 2 * (k / C) + goal <= turn_at C q' k \/
                 busy (<[i := (c, p')]> (pool σ)) (fun ph => tk ph = Some k)).
  { intros Hk'. destruct (Hp k Hk') as [Ht|(j & cj & pj & Hj & Hw)].
    - left. pose proof (Hmono k). lia.
    - destruct (decide (i = j)) as [->|Hne].
      + rewrite Hi in Hj. injection Hj as <- <-.
        destruct (Hkeep k Hw) as [Hw'|Ht]; [|now left].
        right. exists j, c, p'. split; [apply lookup_insert_eq|exact Hw'].
      + right. exists j, cj, pj. split; [|exact Hw]. now rewrite lookup_insert_ne. }
  destruct Hcount as [E|[E Hw]]; [apply Hold; lia|].
  destruct (Z.eq_dec k (count (shared σ))) as [->|Hne]; [|apply Hold; lia].
  right. exists i, c, p'. split; [apply lookup_insert_eq|exact Hw].
Qed.

Lemma turn_at_write q h s' k :
  Z.of_nat (length (Queue.slots q)) = C + 1 ->
  turn_at C q h <= Slot.turn s' ->
  turn_at C q k <= turn_at C (Queue.set_slot q (h mod C) s') k.
Proof.
  intros Hl Hle. destruct (Z.eq_dec (k mod C) (h mod C)) as [E|E].
  - rewrite (turn_at_set_same C C_pos q h k s' Hl E).
    now rewrite (turn_at_congr C q k h E).
  - rewrite (turn_at_set_other C C_pos q h k s' E). lia.
Qed.

(** What one step does to the counters, to the turns and to the ticket of
    the thread that takes it. *)
Definition effects q p p' q' : Prop :=
  (Queue.head q' = Queue.head q \/
   (Queue.head q' = Queue.head q + 1 /\
    wticket (phase_of p') = Some (Queue.head q))) /\
  (Queue.tail q' = Queue.tail q \/
   (Queue.tail q' = Queue.tail q + 1 /\
    rticket (phase_of p') = Some (Queue.tail q))) /\
  (forall k, turn_at C q k <= turn_at C q' k) /\
  (forall k, wticket (phase_of p) = Some k ->
     wticket (phase_of p') = Some k \/ 2 * (k / C) + 1 <= turn_at C q' k) /\
  (forall k, rticket (phase_of p) = Some k ->
     rticket (phase_of p') = Some k \/ 2 * (k / C) + 2 <= turn_at C q' k).

Lemma step_effects n σ wv done i c p p' q' :
  inv C n σ wv done -> pool σ !! i = Some (c, p) ->
  Queue.step p (shared σ) = Some (p', q') ->
  effects (shared σ) p p' q'.
Proof.
  intros I Hi Hs.
  pose proof (inv_cap C _ _ _ _ I) as Hc. pose proof (inv_len C _ _ _ _ I) as Hl.
  pose proof (inv_phase C _ _ _ _ I _ _ _ Hi) as Hph.
  pose proof (inv_count C _ _ _ _ I) as (Hhn & Htn & Hnl).
  pose proof (inv_head C _ _ _ _ I) as Hhd. pose proof (inv_tail C _ _ _ _ I) as Htl.
  assert (Htg : forall k, Queue.target (shared σ) k =
                          Some (k mod C, slot_of C (shared σ) k))
    by (intros k; now apply target_slot_of).
  assert (Hlim : 2 * ticket_limit + 2 < size_modulus)
    by (rewrite ticket_limit_eq, size_modulus_eq; lia).
  unfold effects.
  destruct p; cbn [Queue.step phase_of phase_ok wticket rticket] in *;
    rewrite ?target_set_head, ?target_set_tail, ?Htg in Hs;
    cbn [mbind option_bind] in Hs;
    repeat match type of Hs with
    | context [Queue.turn_of ?a ?b ?d] =>
        rewrite (turn_of_ticket C C_pos a b d Hc ltac:(lia) ltac:(lia)) in Hs;
        cbn [mbind option_bind] in Hs
    | context [Slot.move ?a] =>
        destruct (Slot.move a) as [?|]; cbn [mbind option_bind] in Hs; [|discriminate]
    | context [Slot.destroy ?a] =>
        let E := fresh "Ed" in
        destruct (Slot.destroy a) as [?|] eqn:E;
        cbn [mbind option_bind] in Hs; [|discriminate]
    | context [if ?a =? ?b then _ else _] => destruct (Z.eqb_spec a b)
    end;
    injection Hs as <- <-;
    cbn [phase_of wticket rticket Queue.set_head Queue.set_tail Queue.set_slot
         Queue.head Queue.tail];
    try match goal with
        | |- context [wrap (2 * (?h / C) + 0 + 1)] =>
            pose proof (div_le_self h C ltac:(lia) C_pos);
            rewrite (wrap_small (2 * (h / C) + 0 + 1)) by lia
        end;
    rewrite ?wrap_succ by lia;
    (split; [first [left; reflexivity | right; split; [lia|f_equal; lia]]|]);
    (split; [first [left; reflexivity | right; split; [lia|f_equal; lia]]|]);
    (split;
     [ intros k;
       first [ unfold turn_at; rewrite ?slot_of_set_head, ?slot_of_set_tail; lia
             | apply turn_at_write; [exact Hl|];
               first [ cbn [Slot.construct Slot.store_turn Slot.turn];
                       unfold turn_at in *; lia
                     | unfold Slot.destroy in Ed;
                       destruct (Slot.storage _); [|discriminate];
                       injection Ed as <-; cbn [Slot.turn]; unfold turn_at; lia ] ]
     |]);
    (split; intros k Hk;
     first [ discriminate Hk
           | left; exact Hk
           | injection Hk as <-; right;
             rewrite (turn_at_set_same C C_pos _ _ _ _ Hl eq_refl);
             cbn [Slot.store_turn Slot.turn]; lia ]).
Qed.

Lemma served_run n σ wv done i c p p' q' :
  inv C n σ wv done -> pool σ !! i = Some (c, p) ->
  Queue.step p (shared σ) = Some (p', q') ->
  published σ /\ consumed σ ->
  published (System q' (<[i := (c, p')]> (pool σ)) (history σ)) /\
  consumed (System q' (<[i := (c, p')]> (pool σ)) (history σ)).
Proof.
  intros I Hi Hs [Hp Hr].
  destruct (step_effects n σ wv done i c p p' q' I Hi Hs)
    as (Hh & Ht & Hmono & Hw & Hrd).
  split; now apply (served_frame _ _ _ σ q' i c p p' Hi).
Qed.
End Occupancy.

Section Quiescent.
Context {T : Type}.
Variable C : Z.
Hypothesis C_pos : 0 < C.
Implicit Types (q : Queue.queue T) (p : Queue.pc T) (c : call (T:=T))
  (σ : system (T:=T)) (wv : list T).

Lemma served_call count (tk : phase (T:=T) -> option Z) goal σ i c :
  pool σ !! i = None -> served C count tk goal σ ->
  served C count tk goal
    (System (shared σ) (<[i := (c, entry c)]> (pool σ)) (history σ)).
Proof.
  intros Hi Hs k Hk. destruct (Hs k Hk) as [Ht|Hb]; [now left|right].
  now apply busy_insert_fresh.
Qed.

Lemma served_return count (tk : phase (T:=T) -> option Z) goal σ i c p r h :
  tk Outside = None ->
  pool σ !! i = Some (c, p) -> Queue.returned p = Some r ->
  served C count tk goal σ ->
  served C count tk goal (System (shared σ) (delete i (pool σ)) h).
Proof.
  intros Ho Hi Hr Hs k Hk. destruct (Hs k Hk) as [Ht|Hb]; [now left|right].
  apply (busy_delete _ i c p); [exact Hi| |exact Hb].
  rewrite (returned_outside p r Hr), Ho. discriminate.
Qed.

Lemma served_perform n σ wv done a σ' :
  inv C n σ wv done -> perform a σ = Some σ' ->
  published C σ /\ consumed C σ -> published C σ' /\ consumed C σ'.
Proof.
  intros I Hp [Hw Hr]. destruct a as [i c|i|i]; cbn [perform] in Hp.
  - destruct (pool σ !! i) eqn:Hi; [discriminate|]. injection Hp as <-.
    split; now apply served_call.
  - destruct (pool σ !! i) as [[c p]|] eqn:Hi; [|discriminate].
    cbn [mbind option_bind] in Hp.
    destruct (Queue.returned p) eqn:Hret; [discriminate|].
    destruct (Queue.step p (shared σ)) as [[p' q']|] eqn:Hs; [|discriminate].
    cbn [mbind option_bind] in Hp. injection Hp as <-.
    exact (served_run C C_pos n σ wv done i c p p' q' I Hi Hs (conj Hw Hr)).
  - destruct (pool σ !! i) as [[c p]|] eqn:Hi; [|discriminate].
    cbn [mbind option_bind] in Hp.
    destruct (Queue.returned p) as [r|] eqn:Hret; [|discriminate].
    cbn [mbind option_bind] in Hp. injection Hp as <-.
    split; now apply (served_return _ _ _ σ i c p r).
Qed.

Lemma served_schedule acts : forall n σ wv done σ',
  inv C n σ wv done -> schedule acts σ = Some σ' ->
  n + Z.of_nat (length acts) <= ticket_limit ->
  published C σ /\ consumed C σ -> published C σ' /\ consumed C σ'.
Proof.
  induction acts as [|a acts IH]; intros n σ wv done σ' I Hs Hn Hpc;
    cbn [schedule length] in *.
  - now injection Hs as <-.
  - destruct (perform a σ) as [σ1|] eqn:Hp; [|discriminate].
    cbn [mbind option_bind] in Hs.
    pose proof (inv_perform C C_pos n σ wv done a σ1 I Hp ltac:(lia)) as I1.
    exact (IH (n + 1) σ1 _ _ σ' I1 Hs ltac:(lia)
              (served_perform n σ wv done a σ1 I Hp Hpc)).
Qed.

Lemma served_boot : published C (boot (T:=T) C) /\ consumed C (boot (T:=T) C).
Proof. split; intros k Hk; cbn in Hk; lia. Qed.

Lemma slot_eta (s : Slot.slot T) t o :
  Slot.turn s = t -> Slot.storage s = o ->
  s = {| Slot.turn := t; Slot.storage := o |}.
Proof. destruct s. cbn. now intros -> ->. Qed.

(** A state in which no call is in progress is a state of the sequential
    queue: it holds the elements of the writer tickets that no reader has
    taken. *)
Lemma quiescent_repr n σ wv done :
  inv C n σ wv done -> settled C (shared σ) ->
  published C σ -> consumed C σ -> quiescent σ ->
  repr (shared σ) (drop (Z.to_nat (Queue.tail (shared σ))) wv).
Proof.
  intros I (Hc & Hpos & Hspare) Hw Hr Hq.
  pose proof (inv_len C _ _ _ _ I) as Hl.
  pose proof (inv_head C _ _ _ _ I) as Hhd.
  pose proof (inv_count C _ _ _ _ I) as (Hhn & Htn & Hnl).
  destruct (quiescent_counts C n σ wv done I Hq) as (_ & _ & Ht0 & Hth).
  assert (Hidle : forall P, ~ busy (pool σ) P).
  { intros P (j & cj & pj & Hj & _). rewrite Hq, lookup_empty in Hj. discriminate. }
  assert (Hbound : Queue.head (shared σ) <= Queue.tail (shared σ) + C).
  { destruct (Z_le_gt_dec (Queue.head (shared σ)) (Queue.tail (shared σ) + C))
      as [|Hgt]; [assumption|exfalso].
    destruct (Hw (Queue.tail (shared σ) + C) ltac:(lia)) as [Hturn|Hb];
      [|exact (Hidle _ Hb)].
    rewrite (turn_at_congr C (shared σ) _ (Queue.tail (shared σ))
               (mod_add_cap _ C C_pos)) in Hturn.
    rewrite div_add_cap in Hturn by exact C_pos.
    pose proof (inv_read C _ _ _ _ I (Queue.tail (shared σ)) Ht0 ltac:(lia)). lia. }
  split; rewrite ?Hc.
  - exact C_pos.
  - exact Hl.
  - exact Ht0.
  - rewrite length_drop. lia.
  - rewrite length_drop. lia.
  - lia.
  - intros k Hk. set (j := Queue.tail (shared σ) + k).
    rewrite (slot_at_slot_of C C_pos (shared σ) j Hl). f_equal.
    rewrite lookup_drop. replace (Z.to_nat (Queue.tail (shared σ)) + Z.to_nat k)%nat
      with (Z.to_nat j) by (unfold j; lia).
    pose proof (slot_at_slot_of C C_pos (shared σ) j Hl) as Hin.
    unfold Queue.slot_at in Hin. rewrite Forall_lookup in Hpos.
    pose proof (Hpos _ _ Hin) as Hnonneg. fold (turn_at C (shared σ) j) in Hnonneg.
    destruct (Z_lt_le_dec j (Queue.head (shared σ))) as [Hlt|Hge].
    + destruct (Hw j ltac:(unfold j; lia)) as [Hturn|Hb]; [|destruct (Hidle _ Hb)].
      assert (Hexact : turn_at C (shared σ) j = 2 * (j / C) + 1).
      { destruct (Z_le_gt_dec (2 * (j / C) + 2) (turn_at C (shared σ) j)) as [Hbig|];
          [|lia].
        pose proof (inv_read C _ _ _ _ I j ltac:(unfold j; lia) Hbig). unfold j in *. lia. }
      destruct (inv_odd C _ _ _ _ I j ltac:(unfold j; lia) Hexact)
        as [(x & Hx & Hv)|Hb]; [|destruct (Hidle _ Hb)].
      rewrite Hv. unfold cell. apply slot_eta; [exact Hexact|exact Hx].
    + rewrite (lookup_ge_None_2 wv (Z.to_nat j)) by lia.
      assert (Hexact : turn_at C (shared σ) j = 2 * (j / C)).
      { destruct (Z_le_gt_dec (2 * (j / C) + 1) (turn_at C (shared σ) j)) as [Hbig|Hsmall].
        - pose proof (inv_written C _ _ _ _ I j ltac:(unfold j; lia) Hbig). lia.
        - destruct (Z_lt_le_dec j C) as [Hfirst|Hlater].
          + rewrite Z.div_small in * by (unfold j in *; lia). lia.
          + destruct (Hr (j - C) ltac:(unfold j in *; lia)) as [Hturn|Hb];
              [|destruct (Hidle _ Hb)].
            assert (Hd : j / C = (j - C) / C + 1)
              by (rewrite <- (div_add_cap (j - C) C C_pos); f_equal; lia).
            assert (Hm : turn_at C (shared σ) (j - C) = turn_at C (shared σ) j)
              by (apply turn_at_congr; rewrite <- (mod_add_cap (j - C) C C_pos);
                  f_equal; lia).
            lia. }
      destruct (inv_even C _ _ _ _ I j ltac:(unfold j; lia) Hexact)
        as [Hx|Hb]; [|destruct (Hidle _ Hb)].
      unfold cell. apply slot_eta; [rewrite Z.add_0_r; exact Hexact|exact Hx].
  - exact Hspare.
Qed.

Lemma reachable_repr acts σ :
  schedule acts (boot C) = Some σ ->
  Z.of_nat (length acts) <= ticket_limit -> quiescent σ ->
  exists l, repr (shared σ) l /\ inserted_in σ ≡ₚ removed_in σ ++ l.
Proof.
  intros Hs Hn Hq.
  destruct (inv_schedule C C_pos acts 0 (boot C) [] [] σ (inv_boot C C_pos) Hs
              ltac:(lia)) as (wv & done & I).
  destruct (served_schedule acts 0 (boot C) [] [] σ (inv_boot C C_pos) Hs
              ltac:(lia) served_boot) as [Hw Hr].
  pose proof (schedule_settled C C_pos acts (boot C) σ Hs (settled_initial C C_pos))
    as Hset.
  exists (drop (Z.to_nat (Queue.tail (shared σ))) wv). split.
  - exact (quiescent_repr _ σ wv done I Hset Hw Hr Hq).
  - rewrite (quiescent_inserted C _ σ wv done I Hq),
            (quiescent_removed C _ σ wv done I Hq).
    now rewrite take_drop.
Qed.
End Quiescent.


(** ** Retries need contention *)

Section Retries.
Context {T : Type}.
Implicit Types (q : Queue.queue T) (p : Queue.pc T) (v : T).

(** The two places from which [try_emplace] goes round its loop again, and
    the two of [try_pop]: each has just seen the counter differ from the
    value the call had loaded. *)
Lemma step_retry p q p' q' :
  Queue.step p q = Some (p', q') ->
  (forall v h, p = Queue.TeCas v h \/ p = Queue.TeReload v h ->
     forall h', p' = Queue.TeLoadTurn v h' -> h' = Queue.head q /\ h' <> h) /\
  (forall t, p = Queue.TpCas t \/ p = Queue.TpReload t ->
     forall t', p' = Queue.TpLoadTurn t' -> t' = Queue.tail q /\ t' <> t).
Proof.
  intros H. split.
  - intros v h [->| ->] h' ->; cbn [Queue.step] in H;
      destruct (Z.eqb_spec (Queue.head q) h); try discriminate;
      injection H as <- _; auto.
  - intros t [->| ->] t' ->; cbn [Queue.step] in H;
      destruct (Z.eqb_spec (Queue.tail q) t); try discriminate;
      injection H as <- _; auto.
Qed.

Lemma try_emplace_settles v q1 q2 q3 q4 q5 p out :
  Queue.head q3 = Queue.head q1 ->
  own_steps (Queue.TeLoadHead v) [q1; q2; q3; q4; q5] = Some (p, out) ->
  exists b, p = Queue.TeDone b.
Proof.
  intros Hh H. cbn [own_steps Queue.step mbind option_bind] in H.
  destruct (Queue.target q2 (Queue.head q1)) as [[i2 s2]|]; [|discriminate].
  cbn [mbind option_bind] in H.
  destruct (Queue.turn_of q2 (Queue.head q1) 0) as [e|]; [|discriminate].
  cbn [mbind option_bind] in H. destruct (e =? Slot.turn s2).
  - cbn [own_steps Queue.step mbind option_bind] in H.
    rewrite Hh, Z.eqb_refl in H. cbn [mbind option_bind own_steps Queue.step] in H.
    destruct (Queue.target q4 (Queue.head q1)) as [[i4 s4]|]; [|discriminate].
    cbn [mbind option_bind own_steps Queue.step] in H.
    destruct (Queue.target q5 (Queue.head q1)) as [[i5 s5]|]; [|discriminate].
    cbn [mbind option_bind] in H.
    destruct (Queue.turn_of q5 (Queue.head q1) 0) as [e5|]; [|discriminate].
    cbn [mbind option_bind] in H. injection H as <- _. eauto.
  - cbn [own_steps Queue.step mbind option_bind] in H.
    rewrite Hh, Z.eqb_refl in H. cbn [mbind option_bind own_steps Queue.step] in H.
    injection H as <- _. eauto.
Qed.

Lemma try_pop_settles q1 q2 q3 q4 q5 q6 p out :
  Queue.tail q3 = Queue.tail q1 ->
  own_steps Queue.TpLoadTail [q1; q2; q3; q4; q5; q6] = Some (p, out) ->
  exists o, p = Queue.TpDone o.
Proof.
  intros Hh H. cbn [own_steps Queue.step mbind option_bind] in H.
  destruct (Queue.target q2 (Queue.tail q1)) as [[i2 s2]|]; [|discriminate].
  cbn [mbind option_bind] in H.
  destruct (Queue.turn_of q2 (Queue.tail q1) 1) as [e|]; [|discriminate].
  cbn [mbind option_bind] in H. destruct (e =? Slot.turn s2).
  - cbn [own_steps Queue.step mbind option_bind] in H.
    rewrite Hh, Z.eqb_refl in H. cbn [mbind option_bind own_steps Queue.step] in H.
    destruct (Queue.target q4 (Queue.tail q1)) as [[i4 s4]|]; [|discriminate].
    cbn [mbind option_bind] in H.
    destruct (Slot.move s4) as [x|]; [|discriminate].
    cbn [mbind option_bind own_steps Queue.step] in H.
    destruct (Queue.target q5 (Queue.tail q1)) as [[i5 s5]|]; [|discriminate].
    cbn [mbind option_bind] in H.
    destruct (Slot.destroy s5) as [s5'|]; [|discriminate].
    cbn [mbind option_bind own_steps Queue.step] in H.
    destruct (Queue.target q6 (Queue.tail q1)) as [[i6 s6]|]; [|discriminate].
    cbn [mbind option_bind] in H.
    destruct (Queue.turn_of q6 (Queue.tail q1) 2) as [e6|]; [|discriminate].
    cbn [mbind option_bind] in H. injection H as <- _. eauto.
  - cbn [own_steps Queue.step mbind option_bind] in H.
    rewrite Hh, Z.eqb_refl in H. cbn [mbind option_bind own_steps Queue.step] in H.
    injection H as <- _. eauto.
Qed.
End Retries.

(** X13: [try_emplace] and [try_pop] go round their loop again only after
    seeing [head] (respectively [tail]) differ from the value they had
    loaded; when the counter is the same at the call's third step as at its
    first, the call has returned after five (respectively six) of its own
    steps, whatever other threads do to the slots in between. *)
Theorem retry_needs_contention {T : Type} (v : T) :
  (forall (p : Queue.pc T) q p' q',
     Queue.step p q = Some (p', q') ->
     (forall h, p = Queue.TeCas v h \/ p = Queue.TeReload v h ->
        forall h', p' = Queue.TeLoadTurn v h' -> h' = Queue.head q /\ h' <> h) /\
     (forall t, p = Queue.TpCas t \/ p = Queue.TpReload t ->
        forall t', p' = Queue.TpLoadTurn t' -> t' = Queue.tail q /\ t' <> t)) /\
  (forall q1 q2 q3 q4 q5 p out,
     Queue.head q3 = Queue.head q1 ->
     own_steps (Queue.TeLoadHead v) [q1; q2; q3; q4; q5] = Some (p, out) ->
     exists b, p = Queue.TeDone b) /\
  (forall (q1 : Queue.queue T) q2 q3 q4 q5 q6 p out,
     Queue.tail q3 = Queue.tail q1 ->
     own_steps Queue.TpLoadTail [q1; q2; q3; q4; q5; q6] = Some (p, out) ->
     exists o, p = Queue.TpDone o).
Proof.
  split; [|split].
  - intros p q p' q' H. destruct (step_retry p q p' q' H) as [H1 H2].
    split; [intros h; apply H1|exact H2].
  - intros q1 q2 q3 q4 q5 p out. apply try_emplace_settles.
  - intros q1 q2 q3 q4 q5 q6 p out. apply try_pop_settles.
Qed.

Lemma retry_needs_contention_witness :
  own_steps (Queue.TeLoadHead 8)
    [full_one; Queue.set_tail full_one 1; full_one; full_one; full_one] =
  Some (Queue.TeDone false,
        [full_one; Queue.set_tail full_one 1; full_one; full_one; full_one]) /\
  exists b, @Queue.TeDone Z false = Queue.TeDone b.
Proof.
  split; [reflexivity|].
  exact (proj1 (proj2 (retry_needs_contention 8))
           full_one (Queue.set_tail full_one 1) full_one full_one full_one
           (Queue.TeDone false) [full_one; Queue.set_tail full_one 1; full_one;
                                 full_one; full_one]
           eq_refl eq_refl).
Defined.

(** * The relaxed store of [try_pop]

    [try_pop] publishes turn [2g + 2] with [memory_order_relaxed]
    (queue.hpp:157-158) where [pop] uses [memory_order_release]
    (queue.hpp:136-137). A relaxed store is not ordered after the accesses
    to [storage] that precede it in program order: another thread may read
    the new turn while the [slot.move()] and the [slot.destroy()] of the
    reader are still to come. [perform] executes the steps of every call
    in program order; the machine below adds the executions in which that
    store takes effect early. *)

Section Relaxed.
Context {T : Type}.
Implicit Types (q : Queue.queue T) (p : Queue.pc T) (c : call (T:=T))
  (σ : system (T:=T)).

(** The threads, and the set of those inside [try_pop] whose store of the
    turn has taken effect already. *)
Record machine : Type := Machine {
  state : system (T:=T);
  early : gset nat
}.

Inductive event : Type :=
| InOrder (a : action (T:=T))   (* an action in program order *)
| Early (i : nat).              (* the turn store of thread [i] takes effect *)

(** The store of queue.hpp:157-158 taking effect while its thread is still
    before [slot.move()] or before [slot.destroy()]. *)
Definition publish_early (i : nat) (m : machine) : option machine :=
  '(c, p) ← pool (state m) !! i;
  match p with
  | Queue.TpMove t | Queue.TpDestroy t _ =>
      if decide (i ∈ early m) then None
      else
        '(idx, s) ← Queue.target (shared (state m)) t;
        t2 ← Queue.turn_of (shared (state m)) t 2;
        Some (Machine
                (System (Queue.set_slot (shared (state m)) idx (Slot.store_turn s t2))
                        (pool (state m)) (history (state m)))
                (early m ∪ {[ i ]}))
  | _ => None
  end.

(** A thread whose store has taken effect early has nothing left to do
    when it reaches the store in program order. *)
Definition occur (e : event) (m : machine) : option machine :=
  match e with
  | Early i => publish_early i m
  | InOrder (Run i) =>
      match pool (state m) !! i with
      | Some (c, Queue.TpStore t rv) =>
          if decide (i ∈ early m)
          then Some (Machine
                       (System (shared (state m))
                               (<[i := (c, Queue.TpDone (Some rv))]> (pool (state m)))
                               (history (state m)))
                       (early m ∖ {[ i ]}))
          else σ ← perform (Run i) (state m); Some (Machine σ (early m))
      | _ => σ ← perform (Run i) (state m); Some (Machine σ (early m))
      end
  | InOrder a => σ ← perform a (state m); Some (Machine σ (early m))
  end.

Fixpoint play (es : list event) (m : machine) : option machine :=
  match es with
  | [] => Some m
  | e :: es' => m' ← occur e m; play es' m'
  end.

Definition start (capacity : Z) : machine := Machine (boot capacity) ∅.

(** Executions in which every store takes effect in program order, as a
    release store would. *)
Definition in_order (e : event) : Prop :=
  match e with Early _ => False | InOrder _ => True end.

(** Executions in which no thread calls [try_pop]. *)
Definition pop_only (e : event) : Prop :=
  match e with InOrder (Call _ TryPop) => False | _ => True end.

Definition actions (es : list event) : list (action (T:=T)) :=
  omap (fun e => match e with InOrder a => Some a | Early _ => None end) es.

Lemma occur_in_order a m m' :
  early m = ∅ -> occur (InOrder a) m = Some m' ->
  perform a (state m) = Some (state m') /\ early m' = ∅.
Proof.
  intros He H.
  assert (Hgen : (σ ← perform a (state m); Some (Machine σ (early m))) = Some m' ->
                 perform a (state m) = Some (state m') /\ early m' = ∅).
  { destruct (perform a (state m)) as [σ|]; [|discriminate]. cbn.
    intros [= <-]. cbn. auto. }
  destruct a as [i c|i|i]; cbn [occur] in H; try exact (Hgen H).
  destruct (pool (state m) !! i) as [[c p]|]; [|exact (Hgen H)].
  destruct p; try exact (Hgen H).
  destruct (decide (i ∈ early m)) as [Hin|_]; [|exact (Hgen H)].
  rewrite He in Hin. now apply not_elem_of_empty in Hin.
Qed.

(** Without an early store the machine runs as [schedule] does. *)
Lemma play_in_order es : forall m m',
  early m = ∅ -> Forall in_order es -> play es m = Some m' ->
  schedule (actions es) (state m) = Some (state m') /\ early m' = ∅ /\
  length (actions es) = length es.
Proof.
  induction es as [|e es IH]; intros m m' He Hall H; cbn [play] in H.
  - injection H as <-. auto.
  - apply Forall_cons in Hall as [He1 Hall].
    destruct e as [a|i]; [|contradiction].
    destruct (occur (InOrder a) m) as [m1|] eqn:E; [|discriminate]. cbn in H.
    destruct (occur_in_order a m m1 He E) as [Hp He'].
    destruct (IH m1 m' He' Hall H) as (Hs & Hm' & Hl).
    cbn [actions omap list_omap]. fold (actions es). cbn [schedule length].
    rewrite Hp. cbn. rewrite Hs, Hl. auto.
Qed.

(** Every execution of [schedule] is an execution of the machine. *)
Lemma schedule_play acts : forall σ σ',
  schedule acts σ = Some σ' ->
  play (InOrder <$> acts) (Machine σ ∅) = Some (Machine σ' ∅).
Proof.
  induction acts as [|a acts IH]; intros σ σ' H; cbn [schedule] in H.
  - now injection H as <-.
  - destruct (perform a σ) as [σ1|] eqn:E; [|discriminate]. cbn in H.
    cbn [fmap list_fmap play]. fold (fmap (M:=list) (@InOrder) acts).
    assert (Ho : occur (InOrder a) (Machine σ ∅) = Some (Machine σ1 ∅)).
    { destruct a as [i c|i|i]; cbn [occur state early]; rewrite ?E; try reflexivity.
      destruct (pool σ !! i) as [[c p]|]; [|reflexivity].
      destruct p; reflexivity. }
    rewrite Ho. cbn. now apply IH.
Qed.

(** Only a thread inside [try_pop] can have its store take effect early. *)
Lemma play_pop_only es : forall m m',
  early m = ∅ ->
  (forall i c p, pool (state m) !! i = Some (c, p) -> belongs c p /\ c <> TryPop) ->
  Forall pop_only es -> play es m = Some m' -> Forall in_order es.
Proof.
  induction es as [|e es IH]; intros m m' He Hb Hall H; [constructor|].
  apply Forall_cons in Hall as [He1 Hall]. cbn [play] in H.
  destruct (occur e m) as [m1|] eqn:E; [|discriminate]. cbn in H.
  destruct e as [a|i].
  - constructor; [exact I|].
    destruct (occur_in_order a m m1 He E) as [Hp He'].
    apply (IH m1 m' He'); [|exact Hall|exact H].
    intros j cj pj Hj. destruct a as [i c|i|i]; cbn [perform] in Hp.
    + destruct (pool (state m) !! i) eqn:Hi; [discriminate|].
      injection Hp as Hp. rewrite <- Hp in Hj. cbn [pool] in Hj.
      apply lookup_insert_Some in Hj as [[<- [= <- <-]]|[_ Hj]]; [|now apply (Hb j)].
      split; [apply belongs_entry|]. intros ->. exact He1.
    + destruct (pool (state m) !! i) as [[c p]|] eqn:Hi; [|discriminate].
      cbn in Hp. destruct (Queue.returned p); [discriminate|].
      destruct (Queue.step p (shared (state m))) as [[p' q']|] eqn:Es; [|discriminate].
      cbn in Hp. injection Hp as Hp. rewrite <- Hp in Hj. cbn [pool] in Hj.
      apply lookup_insert_Some in Hj as [[<- [= <- <-]]|[_ Hj]]; [|now apply (Hb j)].
      destruct (Hb i c p Hi) as [Hbel Hne].
      split; [exact (belongs_step c p _ p' q' Hbel Es)|exact Hne].
    + destruct (pool (state m) !! i) as [[c p]|] eqn:Hi; [|discriminate].
      cbn in Hp. destruct (Queue.returned p); [|discriminate].
      cbn in Hp. injection Hp as Hp. rewrite <- Hp in Hj. cbn [pool] in Hj.
      apply lookup_delete_Some in Hj as [_ Hj]. now apply (Hb j).
  - exfalso. cbn [occur] in E. unfold publish_early in E.
    destruct (pool (state m) !! i) as [[c p]|] eqn:Hi; [|discriminate].
    destruct (Hb i c p Hi) as [Hbel Hne]. cbn in E.
    destruct p; try discriminate; destruct c; cbn in Hbel; try contradiction;
      now apply Hne.
Qed.

Lemma start_pop_only capacity es m' :
  Forall pop_only es -> play es (start capacity) = Some m' -> Forall in_order es.
Proof.
  apply play_pop_only; [reflexivity|].
  intros i c p Hi. cbn in Hi. rewrite lookup_empty in Hi. discriminate.
Qed.
End Relaxed.

(** A producer (thread 0) and a consumer (thread 1) on a queue of capacity
    one. The consumer's [try_pop] has claimed ticket 0 when its store of
    turn 2 takes effect; the producer's second [emplace] then constructs
    into the slot before the consumer has moved the first element out. *)
Definition lost_run : list (event (T:=Z)) :=
  [ InOrder (Call 0 (Emplace 10));
    InOrder (Run 0); InOrder (Run 0); InOrder (Run 0); InOrder (Run 0);
    InOrder (Return 0);
    InOrder (Call 1 TryPop);
    InOrder (Run 1); InOrder (Run 1); InOrder (Run 1);
    Early 1;
    InOrder (Call 0 (Emplace 20));
    InOrder (Run 0); InOrder (Run 0); InOrder (Run 0); InOrder (Run 0);
    InOrder (Return 0);
    InOrder (Run 1); InOrder (Run 1); InOrder (Run 1);
    InOrder (Return 1) ].

Definition lost_state : machine (T:=Z) :=
  {| state :=
       {| shared :=
            {| Queue.max_capacity := 1;
               Queue.slots := [ {| Slot.turn := 3; Slot.storage := None |};
                                Slot.fresh ];
               Queue.head := 2; Queue.tail := 1 |};
          pool := ∅;
          history := [ (0%nat, (Emplace 10, Queue.RVoid));
                       (0%nat, (Emplace 20, Queue.RVoid));
                       (1%nat, (TryPop, Queue.ROptional (Some 20))) ] |};
     early := ∅ |}.

Lemma lost_run_plays : play lost_run (start 1) = Some lost_state.
Proof. vm_compute. reflexivity. Qed.

(** The same execution up to the moment the consumer is about to move the
    element out. *)
Definition racing_state : machine (T:=Z) :=
  {| state :=
       {| shared :=
            {| Queue.max_capacity := 1;
               Queue.slots := [ {| Slot.turn := 3; Slot.storage := Some 20 |};
                                Slot.fresh ];
               Queue.head := 2; Queue.tail := 1 |};
          pool := {[ 1%nat := (TryPop, Queue.TpMove 0) ]};
          history := [ (0%nat, (Emplace 10, Queue.RVoid));
                       (0%nat, (Emplace 20, Queue.RVoid)) ] |};
     early := {[ 1%nat ]} |}.

Lemma racing_run_plays : play (take 17 lost_run) (start 1) = Some racing_state.
Proof. vm_compute. reflexivity. Qed.

(** What is left of [lost_state] cannot be removed: the slot of the next
    reader ticket shows the turn the reader waits for, over storage that
    holds no object. *)
Lemma lost_state_dead fuel :
  Queue.pop (3 + fuel) (shared (state lost_state)) = Queue.Undefined /\
  Queue.try_pop (4 + fuel) (shared (state lost_state)) = Queue.Undefined.
Proof.
  split.
  - unfold Queue.pop. cbn [Nat.add]. rewrite !run_unfold. reflexivity.
  - apply (try_pop_alone_dead fuel _ {| Slot.turn := 3; Slot.storage := None |});
      try reflexivity. split; [discriminate|reflexivity].
Qed.

(** Two consumers (threads 1 and 2) and a producer (thread 0) on a queue of
    capacity one. Both [try_pop] calls publish their turn before they have
    destroyed the element: both move the second element out, the first
    reader's destroy ends the life of the second element, the second
    reader's destroy that of the third. *)
Definition doubled_run : list (event (T:=Z)) :=
  [ InOrder (Call 0 (Emplace 10));
    InOrder (Run 0); InOrder (Run 0); InOrder (Run 0); InOrder (Run 0);
    InOrder (Return 0);
    InOrder (Call 1 TryPop);
    InOrder (Run 1); InOrder (Run 1); InOrder (Run 1);
    Early 1;
    InOrder (Call 0 (Emplace 20));
    InOrder (Run 0); InOrder (Run 0); InOrder (Run 0); InOrder (Run 0);
    InOrder (Return 0);
    InOrder (Call 2 TryPop);
    InOrder (Run 2); InOrder (Run 2); InOrder (Run 2); InOrder (Run 2);
    Early 2;
    InOrder (Run 1); InOrder (Run 1); InOrder (Run 1);
    InOrder (Return 1);
    InOrder (Call 0 (Emplace 30));
    InOrder (Run 0); InOrder (Run 0); InOrder (Run 0); InOrder (Run 0);
    InOrder (Return 0);
    InOrder (Run 2); InOrder (Run 2);
    InOrder (Return 2) ].

Definition doubled_state : machine (T:=Z) :=
  {| state :=
       {| shared :=
            {| Queue.max_capacity := 1;
               Queue.slots := [ {| Slot.turn := 5; Slot.storage := None |};
                                Slot.fresh ];
               Queue.head := 3; Queue.tail := 2 |};
          pool := ∅;
          history := [ (0%nat, (Emplace 10, Queue.RVoid));
                       (0%nat, (Emplace 20, Queue.RVoid));
                       (1%nat, (TryPop, Queue.ROptional (Some 20)));
                       (0%nat, (Emplace 30, Queue.RVoid));
                       (2%nat, (TryPop, Queue.ROptional (Some 20))) ] |};
     early := ∅ |}.

Lemma doubled_run_plays : play doubled_run (start 1) = Some doubled_state.
Proof. vm_compute. reflexivity. Qed.

(** The element 20 is returned twice and inserted once. *)
Lemma doubled_not_included :
  ~ removed_in (state doubled_state) ⊆+ inserted_in (state doubled_state).
Proof.
  change (~ [20; 20] ⊆+ [10; 20; 30]).
  apply (bool_decide_eq_false_1 ([20; 20] ⊆+ [10; 20; 30])).
  vm_compute. reflexivity.
Qed.

(** ** The non-blocking calls under interference *)

Section Bounded.
Context {T : Type}.
Implicit Types (q : Queue.queue T) (p : Queue.pc T) (v : T)
  (seen : list (Queue.queue T)).

(** How often the counter [f] differs between two consecutive states. *)
Fixpoint changes (f : Queue.queue T -> Z) seen : nat :=
  match seen with
  | a :: seen' =>
      match seen' with
      | b :: _ => (if f a =? f b then 0 else 1) + changes f seen'
      | [] => 0
      end
  | [] => 0
  end.

Lemma changes_two (f : Queue.queue T -> Z) a b c seen :
  f c <> f a ->
  (1 + changes f (c :: seen) <= changes f (a :: b :: c :: seen))%nat.
Proof.
  intros Hne. cbn [changes].
  destruct (Z.eqb_spec (f a) (f b)), (Z.eqb_spec (f b) (f c));
    first [lia|congruence].
Qed.

(** A call that has returned stays where it is. *)
Lemma own_steps_returned seen : forall p r p' out,
  Queue.returned p = Some r -> own_steps p seen = Some (p', out) -> p' = p.
Proof.
  induction seen as [|q seen IH]; intros p r p' out Hr H; cbn [own_steps] in H.
  - now injection H as <- _.
  - assert (Hs : Queue.step p q = Some (p, q))
      by (destruct p; cbn in Hr; try discriminate; reflexivity).
    rewrite Hs in H. cbn in H.
    destruct (own_steps p seen) as [[p1 out1]|] eqn:E; [|discriminate].
    cbn in H. injection H as <- _. exact (IH p r p1 out1 Hr E).
Qed.

Lemma try_emplace_loop v n : forall seen prev h p out,
  (length seen <= n)%nat -> h = Queue.head prev ->
  own_steps (Queue.TeLoadTurn v h) seen = Some (p, out) ->
  (2 * changes Queue.head (prev :: seen) + 4 <= length seen)%nat ->
  exists b, p = Queue.TeDone b.
Proof.
  induction n as [|n IH]; intros seen prev h p out Hn Hh H Hlen; [lia|].
  destruct seen as [|q1 [|q2 rest]]; cbn [length] in *; try lia.
  cbn [own_steps Queue.step] in H.
  destruct (Queue.target q1 h) as [[i1 s1]|]; [|discriminate].
  cbn [mbind option_bind] in H.
  destruct (Queue.turn_of q1 h 0) as [e|]; [|discriminate].
  cbn [mbind option_bind] in H.
  assert (Hretry : forall p1 out1 q2',
            Queue.head q2 <> h ->
            own_steps (Queue.TeLoadTurn v (Queue.head q2)) rest = Some (p1, out1) ->
            Some (p1, q1 :: q2' :: out1) = Some (p, out) ->
            exists b, p = Queue.TeDone b).
  { intros p1 out1 q2' Hne Ho [= <- _].
    apply (IH rest q2 (Queue.head q2) p1 out1); [lia|reflexivity|exact Ho|].
    pose proof (changes_two Queue.head prev q1 q2 rest ltac:(congruence)). lia. }
  destruct (e =? Slot.turn s1); cbn [own_steps Queue.step mbind option_bind] in H.
  - destruct (Z.eqb_spec (Queue.head q2) h) as [E|E];
      cbn [mbind option_bind] in H.
    + destruct rest as [|q3 [|q4 rest']]; cbn [length] in *; try lia.
      cbn [own_steps Queue.step] in H.
      destruct (Queue.target q3 h) as [[i3 s3]|]; [|discriminate].
      cbn [mbind option_bind own_steps Queue.step] in H.
      destruct (Queue.target q4 h) as [[i4 s4]|]; [|discriminate].
      cbn [mbind option_bind] in H.
      destruct (Queue.turn_of q4 h 0) as [e4|]; [|discriminate].
      cbn [mbind option_bind] in H.
      destruct (own_steps (Queue.TeDone true) rest') as [[p1 out1]|] eqn:Eo;
        [|discriminate].
      cbn in H. injection H as <- _. exists true.
      exact (own_steps_returned rest' (Queue.TeDone true) (Queue.RBool true)
               p1 out1 eq_refl Eo).
    + destruct (own_steps _ rest) as [[p1 out1]|] eqn:Eo; [|discriminate].
      cbn in H. exact (Hretry p1 out1 _ E eq_refl H).
  - destruct (Z.eqb_spec (Queue.head q2) h) as [E|E];
      cbn [mbind option_bind] in H.
    + destruct (own_steps (Queue.TeDone false) rest) as [[p1 out1]|] eqn:Eo;
        [|discriminate].
      cbn in H. injection H as <- _. exists false.
      exact (own_steps_returned rest (Queue.TeDone false) (Queue.RBool false)
               p1 out1 eq_refl Eo).
    + destruct (own_steps _ rest) as [[p1 out1]|] eqn:Eo; [|discriminate].
      cbn in H. exact (Hretry p1 out1 _ E eq_refl H).
Qed.

Lemma try_pop_loop n : forall seen prev t p out,
  (length seen <= n)%nat -> t = Queue.tail prev ->
  own_steps (Queue.TpLoadTurn t) seen = Some (p, out) ->
  (2 * changes Queue.tail (prev :: seen) + 5 <= length seen)%nat ->
  exists o, p = Queue.TpDone o.
Proof.
  induction n as [|n IH]; intros seen prev t p out Hn Ht H Hlen; [lia|].
  destruct seen as [|q1 [|q2 rest]]; cbn [length] in *; try lia.
  cbn [own_steps Queue.step] in H.
  destruct (Queue.target q1 t) as [[i1 s1]|]; [|discriminate].
  cbn [mbind option_bind] in H.
  destruct (Queue.turn_of q1 t 1) as [e|]; [|discriminate].
  cbn [mbind option_bind] in H.
  assert (Hretry : forall p1 out1 q2',
            Queue.tail q2 <> t ->
            own_steps (Queue.TpLoadTurn (Queue.tail q2)) rest = Some (p1, out1) ->
            Some (p1, q1 :: q2' :: out1) = Some (p, out) ->
            exists o, p = Queue.TpDone o).
  { intros p1 out1 q2' Hne Ho [= <- _].
    apply (IH rest q2 (Queue.tail q2) p1 out1); [lia|reflexivity|exact Ho|].
    pose proof (changes_two Queue.tail prev q1 q2 rest ltac:(congruence)). lia. }
  destruct (e =? Slot.turn s1); cbn [own_steps Queue.step mbind option_bind] in H.
  - destruct (Z.eqb_spec (Queue.tail q2) t) as [E|E];
      cbn [mbind option_bind] in H.
    + destruct rest as [|q3 [|q4 [|q5 rest']]]; cbn [length] in *; try lia.
      cbn [own_steps Queue.step] in H.
      destruct (Queue.target q3 t) as [[i3 s3]|]; [|discriminate].
      cbn [mbind option_bind] in H.
      destruct (Slot.move s3) as [x|]; [|discriminate].
      cbn [mbind option_bind own_steps Queue.step] in H.
      destruct (Queue.target q4 t) as [[i4 s4]|]; [|discriminate].
      cbn [mbind option_bind] in H.
      destruct (Slot.destroy s4) as [s4'|]; [|discriminate].
      cbn [mbind option_bind own_steps Queue.step] in H.
      destruct (Queue.target q5 t) as [[i5 s5]|]; [|discriminate].
      cbn [mbind option_bind] in H.
      destruct (Queue.turn_of q5 t 2) as [e5|]; [|discriminate].
      cbn [mbind option_bind] in H.
      destruct (own_steps (Queue.TpDone (Some x)) rest') as [[p1 out1]|] eqn:Eo;
        [|discriminate].
      cbn in H. injection H as <- _. exists (Some x).
      exact (own_steps_returned rest' (Queue.TpDone (Some x))
               (Queue.ROptional (Some x)) p1 out1 eq_refl Eo).
    + destruct (own_steps _ rest) as [[p1 out1]|] eqn:Eo; [|discriminate].
      cbn in H. exact (Hretry p1 out1 _ E eq_refl H).
  - destruct (Z.eqb_spec (Queue.tail q2) t) as [E|E];
      cbn [mbind option_bind] in H.
    + destruct (own_steps (Queue.TpDone None) rest) as [[p1 out1]|] eqn:Eo;
        [|discriminate].
      cbn in H. injection H as <- _. exists None.
      exact (own_steps_returned rest (Queue.TpDone None) (Queue.ROptional None)
               p1 out1 eq_refl Eo).
    + destruct (own_steps _ rest) as [[p1 out1]|] eqn:Eo; [|discriminate].
      cbn in H. exact (Hretry p1 out1 _ E eq_refl H).
Qed.

(** Whatever the other threads do in between, a [try_emplace] has returned
    after [2k + 5] of its own steps when it has seen [head] change [k]
    times, and a [try_pop] after [2k + 6] when it has seen [tail] change
    [k] times. *)
Lemma try_emplace_bounded v seen p out :
  own_steps (Queue.TeLoadHead v) seen = Some (p, out) ->
  (2 * changes Queue.head seen + 5 <= length seen)%nat ->
  exists b, p = Queue.TeDone b.
Proof.
  intros H Hlen. destruct seen as [|q0 seen]; cbn [length] in *; [lia|].
  cbn [own_steps Queue.step mbind option_bind] in H.
  destruct (own_steps _ seen) as [[p1 out1]|] eqn:Eo; [|discriminate].
  cbn in H. injection H as <- _.
  apply (try_emplace_loop v (length seen) seen q0 (Queue.head q0) p1 out1);
    [lia|reflexivity|exact Eo|lia].
Qed.

Lemma try_pop_bounded seen p out :
  own_steps Queue.TpLoadTail seen = Some (p, out) ->
  (2 * changes Queue.tail seen + 6 <= length seen)%nat ->
  exists o, p = Queue.TpDone o.
Proof.
  intros H Hlen. destruct seen as [|q0 seen]; cbn [length] in *; [lia|].
  cbn [own_steps Queue.step mbind option_bind] in H.
  destruct (own_steps _ seen) as [[p1 out1]|] eqn:Eo; [|discriminate].
  cbn in H. injection H as <- _.
  apply (try_pop_loop (length seen) seen q0 (Queue.tail q0) p1 out1);
    [lia|reflexivity|exact Eo|lia].
Qed.

(** Under interference too, the blocking [emplace] leaves its loop at the
    first of its own steps that finds the expected turn, and has returned
    two steps later. *)
Lemma emplace_settles v h q1 q2 q3 seen idx s p out :
  Queue.target q1 h = Some (idx, s) ->
  Queue.turn_of q1 h 0 = Some (Slot.turn s) ->
  own_steps (Queue.EmSpin v h) (q1 :: q2 :: q3 :: seen) = Some (p, out) ->
  p = Queue.EmDone.
Proof.
  intros Ht Hto H. cbn [own_steps Queue.step] in H.
  rewrite Ht in H. cbn [mbind option_bind] in H.
  rewrite Hto in H. cbn [mbind option_bind] in H.
  rewrite Z.eqb_refl in H. cbn [mbind option_bind own_steps Queue.step] in H.
  destruct (Queue.target q2 h) as [[i2 s2]|]; [|discriminate].
  cbn [mbind option_bind own_steps Queue.step] in H.
  destruct (Queue.target q3 h) as [[i3 s3]|]; [|discriminate].
  cbn [mbind option_bind] in H.
  destruct (Queue.turn_of q3 h 1) as [e3|]; [|discriminate].
  cbn [mbind option_bind] in H.
  destruct (own_steps Queue.EmDone seen) as [[p1 out1]|] eqn:Eo; [|discriminate].
  cbn in H. injection H as <- _.
  exact (own_steps_returned seen Queue.EmDone Queue.RVoid p1 out1 eq_refl Eo).
Qed.
End Bounded.

(** * Properties that depend on the order of the stores *)

Section InOrder.
Context {T : Type}.

(** An execution without early store, from a constructed queue, is an
    execution of [schedule] from [boot]. *)
Lemma in_order_schedule C (q0 : Queue.queue T) es m :
  0 < C -> Queue.make C = Some q0 ->
  play es (Machine (System q0 ∅ []) ∅) = Some m -> Forall in_order es ->
  schedule (actions es) (boot C) = Some (state m) /\
  length (actions es) = length es.
Proof.
  intros HC Hmake Hp Hall.
  destruct (make_inv C q0 ltac:(lia) Hmake) as [-> _].
  destruct (play_in_order es (Machine (System (initial C) ∅ []) ∅) m eq_refl Hall Hp)
    as (Hs & _ & Hl). auto.
Qed.

Lemma in_order_conservation C (q0 : Queue.queue T) es m :
  0 < C -> Queue.make C = Some q0 ->
  play es (Machine (System q0 ∅ []) ∅) = Some m -> Forall in_order es ->
  Z.of_nat (length es) <= ticket_limit -> quiescent (state m) ->
  removed_in (state m) ⊆+ inserted_in (state m) /\
  (length (inserted_in (state m)) = length (removed_in (state m)) ->
   inserted_in (state m) ≡ₚ removed_in (state m)).
Proof.
  intros HC Hmake Hp Hall Hn Hq.
  destruct (in_order_schedule C q0 es m HC Hmake Hp Hall) as [Hs Hl].
  destruct (conservation C HC (actions es) (state m) Hs ltac:(lia) Hq)
    as [rest Hrest].
  split.
  - rewrite Hrest. now apply submseteq_inserts_r.
  - intros Hlen. rewrite Hrest in Hlen. rewrite length_app in Hlen.
    destruct rest; [now rewrite app_nil_r in Hrest|cbn in Hlen; lia].
Qed.

Lemma in_order_fifo C P K (q0 : Queue.queue T) es m :
  0 < C -> Queue.make C = Some q0 ->
  play es (Machine (System q0 ∅ []) ∅) = Some m -> Forall in_order es ->
  Forall (allowed P K) (actions es) ->
  Z.of_nat (length es) <= ticket_limit ->
  forall k x, removed_in (state m) !! k = Some x ->
              (inserted_in (state m) ++ held pending_ins (state m) P) !! k = Some x.
Proof.
  intros HC Hmake Hp Hall Hrole Hn k x Hk.
  destruct (in_order_schedule C q0 es m HC Hmake Hp Hall) as [Hs Hl].
  destruct (spsc_prefix C HC P K (actions es) (state m) Hs Hrole ltac:(lia))
    as [rest ->].
  rewrite <- app_assoc. now apply lookup_app_l_Some.
Qed.

Lemma in_order_consistent C (q0 : Queue.queue T) es m :
  0 < C -> Queue.make C = Some q0 ->
  play es (Machine (System q0 ∅ []) ∅) = Some m -> Forall in_order es ->
  Z.of_nat (length es) <= ticket_limit -> quiescent (state m) ->
  consistent (shared (state m)).
Proof.
  intros HC Hmake Hp Hall Hn Hq.
  destruct (in_order_schedule C q0 es m HC Hmake Hp Hall) as [Hs Hl].
  apply (reachable_consistent C HC (actions es) (state m) Hs); [lia|exact Hq].
Qed.

Lemma single_thread_fifo C (q0 : Queue.queue T) fuel cs h e :
  0 < C -> Queue.make C = Some q0 ->
  Z.of_nat (length cs) <= ticket_limit -> execute fuel q0 cs = (h, e) ->
  forall k x, removed h !! k = Some x -> inserted h !! k = Some x.
Proof.
  intros HC Hmake Hn H k x Hk.
  destruct (make_inv C q0 ltac:(lia) Hmake) as [-> _].
  destruct (execute_contents fuel cs (initial C) [] h e (repr_initial C HC)
              ltac:(cbn; lia) H) as (l' & Hl & _).
  cbn [app] in Hl. rewrite Hl. now apply lookup_app_l_Some.
Qed.

(** Elements inserted one after the other are popped in the same order,
    and every one of the calls returns. *)
Lemma drained_in_order C (q0 : Queue.queue T) vs :
  0 < C -> Queue.make C = Some q0 ->
  Z.of_nat (length vs) <= C -> Z.of_nat (length vs) <= ticket_limit ->
  exists q',
    execute 6 q0 (map Emplace vs ++ replicate (length vs) Pop) =
    (map (fun v => (Emplace v, Queue.RVoid)) vs ++
     map (fun x => (Pop, Queue.RValue x)) vs, Some q').
Proof.
  intros HC Hmake Hlen Hlim.
  destruct (make_inv C q0 ltac:(lia) Hmake) as [-> _].
  destruct (execute_fill vs (initial C) [] (repr_initial C HC)) as (q1 & He1 & R1);
    [cbn; lia|cbn; lia|].
  cbn [app] in R1.
  destruct (execute_drain vs q1 R1) as (q2 & He2 & R2).
  exists q2. now rewrite (execute_app 6 _ _ _ _ _ He1), He2.
Qed.
End InOrder.

(** C1: in every execution in which the stores of the turn take effect in
    program order, once all calls have returned the removed elements are
    among the inserted ones, and are the inserted ones as multisets when as
    many removes as inserts have succeeded. The store of [try_pop] is
    relaxed and may take effect before the element has been moved out: in
    [lost_run] the producer then constructs over the first element, the
    two inserts of 10 and 20 are followed by one remove that returns 20,
    the element 10 is gone, and the slot of the next reader ticket shows
    the turn the reader waits for over storage that holds no object, so
    that the second remove is undefined. In [doubled_run] two [try_pop]
    calls both return the element 20 that was inserted once: all calls have
    returned, and the removed elements are not among the inserted ones. *)
Theorem relaxed_store_loses_element :
  (forall (T : Type) C (q0 : Queue.queue T) es m,
     0 < C -> Queue.make C = Some q0 ->
     play es (Machine (System q0 ∅ []) ∅) = Some m -> Forall in_order es ->
     Z.of_nat (length es) <= ticket_limit -> quiescent (state m) ->
     removed_in (state m) ⊆+ inserted_in (state m) /\
     (length (inserted_in (state m)) = length (removed_in (state m)) ->
      inserted_in (state m) ≡ₚ removed_in (state m))) /\
  Queue.make 1 = Some (shared (state (start (T:=Z) 1))) /\
  play lost_run (start 1) = Some lost_state /\
  quiescent (state lost_state) /\
  inserted_in (state lost_state) = [10; 20] /\
  removed_in (state lost_state) = [20] /\
  Queue.slots (shared (state lost_state)) =
    [ {| Slot.turn := 3; Slot.storage := None |}; Slot.fresh ] /\
  (forall fuel,
     Queue.pop (3 + fuel) (shared (state lost_state)) = Queue.Undefined /\
     Queue.try_pop (4 + fuel) (shared (state lost_state)) = Queue.Undefined) /\
  play doubled_run (start 1) = Some doubled_state /\
  quiescent (state doubled_state) /\
  inserted_in (state doubled_state) = [10; 20; 30] /\
  removed_in (state doubled_state) = [20; 20] /\
  ~ removed_in (state doubled_state) ⊆+ inserted_in (state doubled_state).
Proof.
  split; [intros T C q0 es m; apply in_order_conservation|].
  split; [reflexivity|]. split; [exact lost_run_plays|].
  split; [reflexivity|]. split; [reflexivity|]. split; [reflexivity|].
  split; [reflexivity|]. split; [exact lost_state_dead|].
  split; [exact doubled_run_plays|].
  split; [reflexivity|]. split; [reflexivity|]. split; [reflexivity|].
  exact doubled_not_included.
Qed.

(** C3: with one producer thread and one consumer thread, in every
    execution in which the stores of the turn take effect in program
    order, the [k]-th element removed is the [k]-th element inserted (the
    element of an insert that has not returned yet counting as inserted
    last); the same holds for every sequence of calls of one thread, where
    moreover [pop] and [try_pop] on a queue that holds [x] first return [x],
    and elements inserted one after the other are popped, every call
    returning, in the order of insertion. With the relaxed store of
    [try_pop] the order can break: in [lost_run], with producer 0 and
    consumer 1, the first element inserted is 10 and the first element
    removed is 20. *)
Theorem relaxed_store_breaks_order :
  (forall (T : Type) C P K (q0 : Queue.queue T) es m,
     0 < C -> Queue.make C = Some q0 ->
     play es (Machine (System q0 ∅ []) ∅) = Some m -> Forall in_order es ->
     Forall (allowed P K) (actions es) ->
     Z.of_nat (length es) <= ticket_limit ->
     forall k x, removed_in (state m) !! k = Some x ->
       (inserted_in (state m) ++ held pending_ins (state m) P) !! k = Some x) /\
  (forall (T : Type) C (q0 : Queue.queue T) fuel cs h e,
     0 < C -> Queue.make C = Some q0 ->
     Z.of_nat (length cs) <= ticket_limit -> execute fuel q0 cs = (h, e) ->
     forall k x, removed h !! k = Some x -> inserted h !! k = Some x) /\
  (forall (T : Type) (q : Queue.queue T) x l fuel,
     repr q (x :: l) ->
     Queue.pop (5 + fuel) q = Queue.Returns (Queue.RValue x) (after_remove q) /\
     Queue.try_pop (6 + fuel) q =
       Queue.Returns (Queue.ROptional (Some x)) (after_remove q) /\
     repr (after_remove q) l) /\
  (forall (T : Type) C (q0 : Queue.queue T) vs,
     0 < C -> Queue.make C = Some q0 ->
     Z.of_nat (length vs) <= C -> Z.of_nat (length vs) <= ticket_limit ->
     exists q',
       execute 6 q0 (map Emplace vs ++ replicate (length vs) Pop) =
       (map (fun v => (Emplace v, Queue.RVoid)) vs ++
        map (fun x => (Pop, Queue.RValue x)) vs, Some q')) /\
  play lost_run (start 1) = Some lost_state /\
  Forall (allowed 0 1) (actions lost_run) /\
  inserted_in (state lost_state) !! 0%nat = Some 10 /\
  removed_in (state lost_state) !! 0%nat = Some 20.
Proof.
  split; [intros T C P K q0 es m; apply in_order_fifo|].
  split; [intros T C q0 fuel cs h e; apply single_thread_fifo|].
  split.
  { intros T q x l fuel R.
    split; [now apply (pop_some fuel q x l)|].
    split; [now apply (try_pop_some fuel q x l)|now apply (repr_after_remove q x)]. }
  split; [intros T C q0 vs; apply drained_in_order|].
  split; [exact lost_run_plays|]. split; [|split; reflexivity].
  cbn. repeat constructor.
Qed.

(** C4: in every slot a [T] is alive exactly when the turn is odd. The
    constructor establishes this, every call that returns preserves it from
    any state in which it holds, [~slot] destroys the object exactly when
    the turn is odd and leaves no object behind, and in every concurrent
    execution in which the stores of the turn take effect in program order
    it holds whenever no call is in progress. With the relaxed store of
    [try_pop] it can fail: [lost_run] ends, with no call in progress, in a
    slot whose turn is 3 and whose storage holds no object. *)
Theorem relaxed_store_leaves_dead_slot :
  (forall (T : Type) capacity (q : Queue.queue T),
     0 <= capacity -> Queue.make capacity = Some q -> consistent q) /\
  (forall (T : Type) fuel (q : Queue.queue T) c r q',
     consistent q -> invoke fuel q c = Queue.Returns r q' -> consistent q') /\
  (forall (T : Type) (s : Slot.slot T),
     Slot.dtor s = if Z.odd (Slot.turn s) then Slot.destroy s else Some s) /\
  (forall (T : Type) (s : Slot.slot T),
     live_iff_odd s = true ->
     Slot.dtor s = Some {| Slot.turn := Slot.turn s; Slot.storage := None |}) /\
  (forall (T : Type) C (q0 : Queue.queue T) es m,
     0 < C -> Queue.make C = Some q0 ->
     play es (Machine (System q0 ∅ []) ∅) = Some m -> Forall in_order es ->
     Z.of_nat (length es) <= ticket_limit -> quiescent (state m) ->
     consistent (shared (state m))) /\
  play lost_run (start 1) = Some lost_state /\
  quiescent (state lost_state) /\
  Queue.slots (shared (state lost_state)) !! 0%nat =
    Some {| Slot.turn := 3; Slot.storage := None |} /\
  ~ consistent (shared (state lost_state)).
Proof.
  split.
  { intros T capacity q Hc H. destruct (make_inv capacity q Hc H) as [-> _].
    apply consistent_initial. }
  split; [intros T fuel q c r q'; apply invoke_consistent|].
  split.
  { intros T s. destruct (Z.odd (Slot.turn s)) eqn:E;
      [now apply dtor_odd | now apply dtor_even]. }
  split; [intros T s; apply dtor_consistent|].
  split; [intros T C q0 es m; apply in_order_consistent|].
  split; [exact lost_run_plays|]. split; [reflexivity|]. split; [reflexivity|].
  intros H. apply Forall_cons in H as [H _]. discriminate H.
Qed.

(** C7: the blocking [emplace] and [push] have no failure answer: a call
    that returns returns [void]. A call that finds the slot of its ticket
    [h] at turn [2 * (h div C)] returns within four steps, with the element
    constructed and turn [2 * (h div C) + 1] published; a call that is
    already waiting leaves its loop at the first of its steps that finds
    that turn and has returned two steps later, also when other threads run
    in between. As long as the slot shows another turn the call stays in
    its loop, so that on a full queue that nobody empties it never returns.
    [try_emplace] and [try_pop] have no loop that waits: run alone they
    answer within five and six steps; under any interference a
    [try_emplace] that has seen [head] change [k] times has returned after
    [2k + 5] of its own steps and a [try_pop] that has seen [tail] change
    [k] times after [2k + 6]; and only the two blocking loops can repeat a
    program point. *)
Theorem blocking_and_non_blocking {T : Type} (q : Queue.queue T) (v : T) :
  0 < Queue.max_capacity q ->
  (forall fuel r q', Queue.emplace fuel q v = Queue.Returns r q' -> r = Queue.RVoid) /\
  (forall fuel r q', Queue.push fuel q v = Queue.Returns r q' -> r = Queue.RVoid) /\
  (forall fuel s,
     0 <= Queue.head q < ticket_limit ->
     Queue.slot_at q (Queue.head q mod Queue.max_capacity q) = Some s ->
     Slot.turn s = 2 * (Queue.head q / Queue.max_capacity q) ->
     Queue.emplace (4 + fuel) q v = Queue.Returns Queue.RVoid (inserted_state q v) /\
     Queue.push (4 + fuel) q v = Queue.Returns Queue.RVoid (inserted_state q v)) /\
  (forall fuel h s,
     0 <= h <= ticket_limit ->
     Queue.slot_at q (h mod Queue.max_capacity q) = Some s ->
     Slot.turn s = 2 * (h / Queue.max_capacity q) ->
     Queue.run (3 + fuel) (Queue.EmSpin v h) q =
     Queue.Returns Queue.RVoid
       (Queue.set_slot q (h mod Queue.max_capacity q)
          {| Slot.turn := 2 * (h / Queue.max_capacity q) + 1;
             Slot.storage := Some v |})) /\
  (forall h idx s q2 q3 seen p out,
     Queue.target q h = Some (idx, s) ->
     Queue.turn_of q h 0 = Some (Slot.turn s) ->
     own_steps (Queue.EmSpin v h) (q :: q2 :: q3 :: seen) = Some (p, out) ->
     p = Queue.EmDone) /\
  (forall h s,
     0 <= h <= ticket_limit ->
     Queue.slot_at q (h mod Queue.max_capacity q) = Some s ->
     Slot.turn s <> 2 * (h / Queue.max_capacity q) ->
     forall fuel, Queue.run fuel (Queue.EmSpin v h) q = Queue.Spinning) /\
  (forall l,
     repr q l -> Z.of_nat (length l) = Queue.max_capacity q ->
     Queue.head q < ticket_limit ->
     forall fuel, Queue.emplace fuel q v = Queue.Spinning /\
                  Queue.push fuel q v = Queue.Spinning) /\
  (forall fuel s,
     0 <= Queue.head q < ticket_limit ->
     Queue.slot_at q (Queue.head q mod Queue.max_capacity q) = Some s ->
     exists b q', Queue.try_emplace (5 + fuel) q v =
                  Queue.Returns (Queue.RBool b) q') /\
  (forall fuel s,
     0 <= Queue.tail q < ticket_limit ->
     Queue.slot_at q (Queue.tail q mod Queue.max_capacity q) = Some s ->
     live_iff_odd s = true ->
     exists o q', Queue.try_pop (6 + fuel) q =
                  Queue.Returns (Queue.ROptional o) q') /\
  (forall seen p out,
     own_steps (Queue.TeLoadHead v) seen = Some (p, out) ->
     (2 * changes Queue.head seen + 5 <= length seen)%nat ->
     exists b, p = Queue.TeDone b) /\
  (forall (seen : list (Queue.queue T)) p out,
     own_steps Queue.TpLoadTail seen = Some (p, out) ->
     (2 * changes Queue.tail seen + 6 <= length seen)%nat ->
     exists o, p = Queue.TpDone o) /\
  (forall (p : Queue.pc T) q0 q1,
     Queue.returned p = None -> Queue.step p q0 = Some (p, q1) ->
     spins p = true).
Proof.
  intros Hc.
  split; [intros fuel r q'; apply emplace_void|].
  split; [intros fuel r q'; apply emplace_void|].
  split.
  { intros fuel s Hh Hs Ht.
    split; now apply (emplace_alone_ready fuel q v s). }
  split; [intros fuel h s Hh Hs Ht; now apply (emplace_spin_ready fuel q v h s)|].
  split; [intros h idx s q2 q3 seen p out; apply emplace_settles|].
  split.
  { intros h s Hh Hs Ht fuel. apply run_stuck; [reflexivity|].
    now apply (emplace_spin_waits q v h s). }
  split.
  { intros l R Hfull Hlim fuel. split; now apply (emplace_full q l v). }
  split; [intros fuel s Hh Hs; now apply (try_emplace_answers fuel q v s)|].
  split; [intros fuel s Ht Hs Hl; now apply (try_pop_answers fuel q s)|].
  split; [intros seen p out; apply try_emplace_bounded|].
  split; [intros seen p out; apply try_pop_bounded|].
  intros p q0 q1 Hr H. exact (step_repeats p q0 q1 Hr H).
Qed.

Lemma blocking_and_non_blocking_witness :
  (Queue.emplace 4 (initial 1) 8 =
     Queue.Returns Queue.RVoid (inserted_state (initial 1) 8) /\
   Queue.push 4 (initial 1) 8 =
     Queue.Returns Queue.RVoid (inserted_state (initial 1) 8)) /\
  (forall fuel, Queue.emplace fuel full_one 8 = Queue.Spinning /\
                Queue.push fuel full_one 8 = Queue.Spinning) /\
  (exists b q', Queue.try_emplace 5 full_one 8 = Queue.Returns (Queue.RBool b) q') /\
  (exists o q', Queue.try_pop 6 full_one = Queue.Returns (Queue.ROptional o) q') /\
  (exists b, @Queue.TeDone Z false = Queue.TeDone b).
Proof.
  pose proof (blocking_and_non_blocking (initial 1) 8 eq_refl)
    as (_ & _ & Hready & _).
  pose proof (blocking_and_non_blocking full_one 8 eq_refl)
    as (_ & _ & _ & _ & _ & _ & Hfull & Hte & Htp & Hbound & _).
  split; [|split; [|split; [|split]]].
  - apply (Hready 0%nat Slot.fresh); [split; [discriminate|reflexivity]| |];
      reflexivity.
  - apply (Hfull [7]); [exact full_one_repr|reflexivity|reflexivity].
  - apply (Hte 0%nat {| Slot.turn := 1; Slot.storage := Some 7 |});
      [split; [discriminate|reflexivity]|reflexivity].
  - apply (Htp 0%nat {| Slot.turn := 1; Slot.storage := Some 7 |});
      [split; [discriminate|reflexivity]|reflexivity|reflexivity].
  - apply (Hbound [full_one; Queue.set_tail full_one 1; full_one; full_one; full_one]
             (Queue.TeDone false)
             [full_one; Queue.set_tail full_one 1; full_one; full_one; full_one]);
      [reflexivity|vm_compute; lia].
Defined.

(** ** Executions without early store *)

Section Tame.
Context {T : Type}.

(** The turn stores take effect in program order; this is the case in
    particular when no thread calls [try_pop]. *)
Definition tame (es : list (event (T:=T))) : Prop :=
  Forall in_order es \/ Forall pop_only es.

Lemma tame_schedule C es (m : machine (T:=T)) :
  play es (start C) = Some m -> tame es ->
  schedule (actions es) (boot C) = Some (state m) /\ early m = ∅ /\
  length (actions es) = length es.
Proof.
  intros Hp Ht.
  assert (Hall : Forall in_order es)
    by (destruct Ht as [H|H]; [exact H|exact (start_pop_only C es m H Hp)]).
  exact (play_in_order es (start C) m eq_refl Hall Hp).
Qed.
End Tame.

(** X3: in every state reached by a concurrent execution in which the
    turn stores take effect in program order (in particular when no thread
    calls [try_pop]), the next step of every thread that is inside a call is
    defined: no division by zero, no subscript outside the slot array, no
    move from or destruction of an object that is not alive. *)
Theorem reachable_step_defined {T : Type} (C : Z) (es : list (event (T:=T)))
    (m : machine) (i : nat) (c : call) (p : Queue.pc T) :
  0 < C -> play es (start C) = Some m -> tame es ->
  Z.of_nat (length es) <= ticket_limit ->
  pool (state m) !! i = Some (c, p) -> Queue.returned p = None ->
  is_Some (Queue.step p (shared (state m))) /\
  is_Some (occur (InOrder (Run i)) m).
Proof.
  intros HC Hp Ht Hn Hi Hr.
  destruct (tame_schedule C es m Hp Ht) as (Hs & He & Hl).
  destruct (inv_reachable C HC (actions es) (state m) Hs ltac:(lia))
    as (n & wv & done & I).
  destruct (step_defined C HC n (state m) wv done i c p I Hi) as [[p' q'] Hstep].
  split; [eauto|].
  assert (Hperf : perform (Run i) (state m) =
                  Some (System q' (<[i := (c, p')]> (pool (state m)))
                               (history (state m))))
    by (cbn [perform]; rewrite Hi; cbn; rewrite Hr, Hstep; reflexivity).
  cbn [occur]. rewrite Hi, Hperf.
  destruct p; cbn [mbind option_bind]; eauto.
  destruct (decide (i ∈ early m)) as [Hin|_]; [|eauto].
  rewrite He in Hin. now apply not_elem_of_empty in Hin.
Qed.

Lemma reachable_step_defined_witness :
  play (InOrder <$> building_run) (start 2) = Some (Machine building_state ∅) /\
  is_Some (Queue.step (Queue.EmConstruct 10 0) (shared building_state)) /\
  is_Some (occur (InOrder (Run 0)) (Machine building_state ∅)).
Proof.
  assert (H : play (InOrder <$> building_run) (start 2) =
              Some (Machine building_state ∅)) by (vm_compute; reflexivity).
  split; [exact H|].
  refine (reachable_step_defined 2 (InOrder <$> building_run)
            (Machine building_state ∅) 0 (Push 10) (Queue.EmConstruct 10 0)
            eq_refl H _ _ eq_refl eq_refl).
  - right. repeat constructor.
  - rewrite ticket_limit_eq. cbn. lia.
Defined.

(** X4: in every state reached by a concurrent execution in which the
    turn stores take effect in program order (in particular when no thread
    calls [try_pop]), two threads that are both inside a critical section (a
    writer between the end of its wait and the store of turn [2g + 1], a
    reader between the end of its wait and the store of turn [2g + 2]) on
    the same slot are one and the same thread. *)
Theorem critical_sections_exclusive {T : Type} (C : Z)
    (es : list (event (T:=T))) (m : machine) (i j : nat) (ci cj : call)
    (pi pj : Queue.pc T) (h k : Z) :
  0 < C -> play es (start C) = Some m -> tame es ->
  Z.of_nat (length es) <= ticket_limit ->
  pool (state m) !! i = Some (ci, pi) -> pool (state m) !! j = Some (cj, pj) ->
  owned (phase_of pi) = Some h -> owned (phase_of pj) = Some k ->
  h mod C = k mod C -> i = j.
Proof.
  intros HC Hp Ht Hn Hi Hj Oi Oj Hslot.
  destruct (tame_schedule C es m Hp Ht) as (Hs & He & Hl).
  destruct (inv_reachable C HC (actions es) (state m) Hs ltac:(lia))
    as (n & wv & done & I).
  exact (exclusive C HC n (state m) wv done i j ci pi cj pj h k I Hi Hj Oi Oj Hslot).
Qed.

Lemma critical_sections_exclusive_witness :
  play (InOrder <$> building_run) (start 2) = Some (Machine building_state ∅) /\
  owned (phase_of (Queue.EmConstruct 10 0)) = Some 0 /\ 0%nat = 0%nat.
Proof.
  assert (H : play (InOrder <$> building_run) (start 2) =
              Some (Machine building_state ∅)) by (vm_compute; reflexivity).
  split; [exact H|]. split; [reflexivity|].
  refine (critical_sections_exclusive 2 (InOrder <$> building_run)
            (Machine building_state ∅) 0 0
            (Push 10) (Push 10) (Queue.EmConstruct 10 0) (Queue.EmConstruct 10 0)
            0 0 eq_refl H _ _ eq_refl eq_refl eq_refl eq_refl eq_refl).
  - right. repeat constructor.
  - rewrite ticket_limit_eq. cbn. lia.
Defined.

(** X12: whenever no call is in progress in a concurrent execution in
    which the turn stores take effect in program order (in particular when
    no thread calls [try_pop]), the queue is in a state of the sequential
    queue: its ring holds, in ticket order, a list of at most [C] elements,
    every other slot is empty at the turn of its next writer, and these
    elements together with the removed ones are the inserted ones; [size]
    is the length of that list. *)
Theorem quiescent_state_is_sequential {T : Type} (C : Z)
    (es : list (event (T:=T))) (m : machine) :
  0 < C -> play es (start C) = Some m -> tame es ->
  Z.of_nat (length es) <= ticket_limit -> quiescent (state m) ->
  exists l,
    repr (shared (state m)) l /\
    inserted_in (state m) ≡ₚ removed_in (state m) ++ l /\
    Z.of_nat (length l) <= C /\
    Queue.size (shared (state m)) = Z.of_nat (length l).
Proof.
  intros HC Hp Ht Hn Hq.
  destruct (tame_schedule C es m Hp Ht) as (Hs & He & Hl).
  destruct (reachable_repr C HC (actions es) (state m) Hs ltac:(lia) Hq)
    as (l & R & Hperm).
  exists l. split; [exact R|]. split; [exact Hperm|].
  pose proof (repr_bound _ l R) as Hb.
  destruct (inv_reachable C HC (actions es) (state m) Hs ltac:(lia))
    as (n & wv & done & I).
  rewrite (inv_cap C _ _ _ _ I) in Hb. split; [exact Hb|].
  pose proof (repr_range _ l R) as Hr. pose proof (repr_head _ l R) as Hh.
  rewrite size_difference by lia. lia.
Qed.

Lemma quiescent_state_is_sequential_witness :
  play (InOrder <$> one_inside_run) (start 2) = Some (Machine one_inside ∅) /\
  exists l,
    repr (shared one_inside) l /\
    inserted_in one_inside ≡ₚ removed_in one_inside ++ l /\
    Z.of_nat (length l) <= 2 /\
    Queue.size (shared one_inside) = Z.of_nat (length l).
Proof.
  assert (H : play (InOrder <$> one_inside_run) (start 2) =
              Some (Machine one_inside ∅)) by (vm_compute; reflexivity).
  split; [exact H|].
  refine (quiescent_state_is_sequential 2 (InOrder <$> one_inside_run)
            (Machine one_inside ∅) eq_refl H _ _ eq_refl).
  - right. repeat constructor.
  - rewrite ticket_limit_eq. cbn. lia.
Defined.
